(** * Polonium: the reconciliation driver and the directional resolver

    A shallow embedding of [controller/actions/shortcuts.ts] (the probe
    points of the directional commands) and of [driver/driver.ts] (the
    [TilingDriver] class), with the properties of the design document
    stated and proved over it.

    Conventions of the embedding:
    - a JavaScript [number] is an IEEE double ([JsNumber], binary64 with
      rounding to nearest) where the code computes a position from the
      frame of a window (the probe points); the relative and absolute
      rectangles of the tiles, which the driver divides and copies, are
      exact rationals ([Q]);
    - objects that the code compares by reference (live tiles, live
      windows, abstract tiles, clients) are identities ([nat]) into
      stores, and an allocator counts upwards, so that no identity is
      handed out twice;
    - every method is a state transformer on [World] that ends in a
      [Completion]: normally, by an early [return], by a thrown
      exception, or because the fuel that bounds its loops ran out;
    - [undefined] is [None]; reading a property of [undefined], or using
      an object that is not in its store, raises [TypeError]. *)

From Stdlib Require Import QArith Qpower Lqa SpecFloat.
From stdpp Require Import gmap list.

Set Default Proof Using "Type".

(** ** Geometry *)

Module QRect.
Record t : Type := mk { x : Q; y : Q; width : Q; height : Q }.
End QRect.

Module GPoint.
Record t : Type := mk { x : Q; y : Q }.
End GPoint.

Module GSize.
Record t : Type := mk { width : Q; height : Q }.
End GSize.

(** ** Doubles

    The numbers of JavaScript: IEEE 754 binary64 with rounding to nearest
    (ties to even), infinities and NaN, as the Standard Library specifies
    them. *)

Module JsNumber.

Definition t : Type := spec_float.

Definition prec : Z := 53.
Definition emax : Z := 1024.

(** The double nearest to [m * 2 ^ e], and the double of an integer
    literal. *)
Definition ofBinary (m e : Z) : t := binary_normalize prec emax m e false.
Definition ofZ (z : Z) : t := ofBinary z 0.

(** [x + y], [x - y] and [x / y] *)
Definition add (x y : t) : t := SFadd prec emax x y.
Definition sub (x y : t) : t := SFsub prec emax x y.

(** The rational that a finite double is, in lowest terms; an infinity
    and NaN are none. *)
Definition value (x : t) : option Q :=
  match x with
  | S754_zero _ => Some 0%Q
  | S754_finite s m e =>
      Some (Qred ((if s then - inject_Z (Zpos m) else inject_Z (Zpos m)) * 2 ^ e))%Q
  | S754_infinity _ | S754_nan => None
  end.

(** The double [x + y] (or [x - y]) is the sum (the difference) of the
    numbers that [x] and [y] are: the operation has not rounded, and
    nothing is infinite or NaN. *)
Definition exactSum (x y : t) : Prop :=
  match value x, value y, value (add x y) with
  | Some a, Some b, Some c => (c == a + b)%Q
  | _, _, _ => False
  end.

Definition exactDifference (x y : t) : Prop :=
  match value x, value y, value (sub x y) with
  | Some a, Some b, Some c => (c == a - b)%Q
  | _, _, _ => False
  end.

End JsNumber.

Declare Scope js_scope.
Delimit Scope js_scope with js.
Bind Scope js_scope with JsNumber.t.
Notation "1" := (JsNumber.ofZ 1) : js_scope.
Infix "+" := JsNumber.add : js_scope.
Infix "-" := JsNumber.sub : js_scope.

(** A [QRect] and a point whose numbers are doubles: the frame of a
    window and the probe point computed from it. *)
Module QRectF.
Record t : Type := mk { x : JsNumber.t; y : JsNumber.t; width : JsNumber.t; height : JsNumber.t }.

(** The rectangle of rationals that a rectangle of finite doubles is. *)
Definition value (g : t) : option QRect.t :=
  match JsNumber.value (x g), JsNumber.value (y g),
        JsNumber.value (width g), JsNumber.value (height g) with
  | Some a, Some b, Some c, Some d => Some (QRect.mk a b c d)
  | _, _, _, _ => None
  end.
End QRectF.

Module QPointF.
Record t : Type := mk { x : JsNumber.t; y : JsNumber.t }.

Definition value (p : t) : option GPoint.t :=
  match JsNumber.value (x p), JsNumber.value (y p) with
  | Some a, Some b => Some (GPoint.mk a b)
  | _, _ => None
  end.
End QPointF.

(** ** The directional resolver ([shortcuts.ts]) *)

Module Shortcuts.

(** [const enum Direction { Above, Below, Left, Right }] *)
Inductive Direction : Type := Above | Below | Left | Right.

(** The part of a live tile and of a live window that the probe
    functions read. *)
Record Tile : Type := mkTile { padding : JsNumber.t }.
Record Window : Type := mkWindow {
  tile : option Tile;
  frameGeometry : QRectF.t
}.

Definition pointAbove (window : Window) : option QPointF.t :=
  match tile window with
  | None => None
  | Some t =>
      let geometry := frameGeometry window in
      let coordOffset := 1 + padding t in
      let x := QRectF.x geometry + 1 in
      let y := QRectF.y geometry - coordOffset in
      Some (QPointF.mk x y)
  end%js.

Definition pointBelow (window : Window) : option QPointF.t :=
  match tile window with
  | None => None
  | Some t =>
      let geometry := frameGeometry window in
      let coordOffset := 1 + QRectF.height geometry + padding t in
      let x := QRectF.x geometry + 1 in
      let y := QRectF.y geometry + coordOffset in
      Some (QPointF.mk x y)
  end%js.

Definition pointLeft (window : Window) : option QPointF.t :=
  match tile window with
  | None => None
  | Some t =>
      let geometry := frameGeometry window in
      let coordOffset := 1 + padding t in
      let x := QRectF.x geometry - coordOffset in
      let y := QRectF.y geometry + 1 in
      Some (QPointF.mk x y)
  end%js.

Definition pointRight (window : Window) : option QPointF.t :=
  match tile window with
  | None => None
  | Some t =>
      let geometry := frameGeometry window in
      let coordOffset := 1 + QRectF.width geometry + padding t in
      let x := QRectF.x geometry + coordOffset in
      let y := QRectF.y geometry + 1 in
      Some (QPointF.mk x y)
  end%js.

Definition pointInDirection (window : Window) (direction : Direction)
  : option QPointF.t :=
  match direction with
  | Above => pointAbove window
  | Below => pointBelow window
  | Left => pointLeft window
  | Right => pointRight window
  end.

(** None of the additions and subtractions that the probe function of
    [direction] makes for a window in tile [t] rounds. *)
Definition exact (window : Window) (t : Tile) (direction : Direction) : Prop :=
  let geometry := frameGeometry window in
  match direction with
  | Above =>
      JsNumber.exactSum 1 (padding t)
      ∧ JsNumber.exactSum (QRectF.x geometry) 1
      ∧ JsNumber.exactDifference (QRectF.y geometry) (1 + padding t)
  | Below =>
      JsNumber.exactSum 1 (QRectF.height geometry)
      ∧ JsNumber.exactSum (1 + QRectF.height geometry) (padding t)
      ∧ JsNumber.exactSum (QRectF.x geometry) 1
      ∧ JsNumber.exactSum (QRectF.y geometry) (1 + QRectF.height geometry + padding t)
  | Left =>
      JsNumber.exactSum 1 (padding t)
      ∧ JsNumber.exactDifference (QRectF.x geometry) (1 + padding t)
      ∧ JsNumber.exactSum (QRectF.y geometry) 1
  | Right =>
      JsNumber.exactSum 1 (QRectF.width geometry)
      ∧ JsNumber.exactSum (1 + QRectF.width geometry) (padding t)
      ∧ JsNumber.exactSum (QRectF.x geometry) (1 + QRectF.width geometry + padding t)
      ∧ JsNumber.exactSum (QRectF.y geometry) 1
  end%js.



End Shortcuts.

(** ** Insertion-ordered maps and the bijective map

    The driver keeps its two identity maps in a [BiMap] (imported from
    [mnemonist/bi-map]), which is a pair of JavaScript [Map]s. A [Map] is
    an association list in insertion order; writing to a key that is
    already present keeps its position. *)

Module JsMap.
Section JsMap.
Context {K V : Type} `{EqDecision K}.

Fixpoint get (m : list (K * V)) (k : K) : option V :=
  match m with
  | [] => None
  | (k', v) :: m' => if decide (k' = k) then Some v else get m' k
  end.

Definition has (m : list (K * V)) (k : K) : bool :=
  match get m k with Some _ => true | None => false end.

Fixpoint set (m : list (K * V)) (k : K) (v : V) : list (K * V) :=
  match m with
  | [] => [(k, v)]
  | (k', v') :: m' =>
      if decide (k' = k) then (k, v) :: m' else (k', v') :: set m' k v
  end.

Fixpoint delete (m : list (K * V)) (k : K) : list (K * V) :=
  match m with
  | [] => []
  | (k', v') :: m' =>
      if decide (k' = k) then delete m' k else (k', v') :: delete m' k
  end.

Definition values (m : list (K * V)) : list V := map snd m.

End JsMap.
End JsMap.

(** Modelled from the spec: the identity maps are "two one-to-one maps
    kept mutually consistent by construction (single choke-point
    mutators)"; the class itself belongs to the imported library and is
    missing from the sources. The mutators below are the choke points:
    [set] first drops whatever the key and the value were associated
    with, [delete] drops both directions of an entry. *)
Module BiMap.
Section BiMap.
Context {K V : Type} `{EqDecision K} `{EqDecision V}.

Record t : Type := mk {
  forward : list (K * V);
  inverse : list (V * K)
}.

Definition empty : t := mk [] [].

(** [m.get(key)] and [m.has(key)] *)
Definition get (m : t) (k : K) : option V := JsMap.get (forward m) k.
Definition has (m : t) (k : K) : bool := JsMap.has (forward m) k.

(** [m.inverse.get(value)] *)
Definition inverse_get (m : t) (v : V) : option K := JsMap.get (inverse m) v.

(** [m.set(key, value)] *)
Definition set (m : t) (k : K) (v : V) : t :=
  let finish (fwd : list (K * V)) (inv : list (V * K)) :=
    match JsMap.get inv v with
    | Some currentKey =>
        if decide (currentKey = k) then mk fwd inv
        else mk (JsMap.set (JsMap.delete fwd currentKey) k v)
                (JsMap.set inv v k)
    | None => mk (JsMap.set fwd k v) (JsMap.set inv v k)
    end in
  match JsMap.get (forward m) k with
  | Some currentValue =>
      if decide (currentValue = v) then m
      else finish (forward m) (JsMap.delete (inverse m) currentValue)
  | None => finish (forward m) (inverse m)
  end.

(** [m.delete(key)] *)
Definition delete (m : t) (k : K) : t :=
  match JsMap.get (forward m) k with
  | Some currentValue =>
      mk (JsMap.delete (forward m) k) (JsMap.delete (inverse m) currentValue)
  | None => m
  end.

(** [m.inverse.delete(value)] *)
Definition inverse_delete (m : t) (v : V) : t :=
  match JsMap.get (inverse m) v with
  | Some currentKey =>
      mk (JsMap.delete (forward m) currentKey) (JsMap.delete (inverse m) v)
  | None => m
  end.

(** [m.clear()] *)
Definition clear (m : t) : t := empty.

(** [m.values()] *)
Definition values (m : t) : list V := JsMap.values (forward m).

(** The two directions tell the same story. *)
Definition consistent (m : t) : Prop :=
  ∀ k v, get m k = Some v ↔ inverse_get m v = Some k.

(** No two keys share a value, and no two values share a key. *)
Definition one_to_one (m : t) : Prop :=
  (∀ k1 k2 v, get m k1 = Some v → get m k2 = Some v → k1 = k2) ∧
  (∀ v1 v2 k, inverse_get m v1 = Some k → inverse_get m v2 = Some k → v1 = v2).

End BiMap.
Arguments t : clear implicits.
Arguments get : simpl never.
Arguments has : simpl never.
Arguments inverse_get : simpl never.
Arguments set : simpl never.
Arguments delete : simpl never.
Arguments inverse_delete : simpl never.
Arguments clear : simpl never.
Arguments values : simpl never.
End BiMap.

(** ** Exceptions and completions *)

(** [TypeError] is what reading a property of [undefined] raises (in the
    model also: using an object that is not in its store);
    [EngineError] stands for anything an engine method throws. *)
Inductive Exn : Type :=
| TypeError
| EngineError (code : nat).

Inductive Completion (A : Type) : Type :=
| Normal (a : A)
| Return
| Throw (e : Exn)
| OutOfFuel.
Arguments Normal {A} a.
Arguments Return {A}.
Arguments Throw {A} e.
Arguments OutOfFuel {A}.

(** ** Directions of the geometry utilities *)

(** Modelled from the spec: "the four-way direction enum with a rotation
    transform" of [util/geometry], which is missing from the sources.
    [rotateCw] turns a direction by 90 degrees clockwise. *)
Module Geometry.

Inductive Direction : Type := Up | Right | Down | Left.

Definition rotateCw (d : Direction) : Direction :=
  match d with
  | Up => Right
  | Right => Down
  | Down => Left
  | Left => Up
  end.

(** [GPoint.centerOfRect] and [GSize.fromRect] *)
Definition centerOfRect (r : QRect.t) : GPoint.t :=
  GPoint.mk (QRect.x r + QRect.width r / 2) (QRect.y r + QRect.height r / 2).

Definition fromRect (r : QRect.t) : GSize.t :=
  GSize.mk (QRect.width r) (QRect.height r).

End Geometry.

(** ** The host: live tiles and live windows

    Modelled from the spec: the live tile (ordered child list, relative
    and absolute geometry, layout direction, parent, padding, [split],
    [remove]) and the live window (frame geometry, assigned tile,
    minimized / fullscreen / maximize flags) of section 6; the host is
    not part of the sources. [layoutDirection] is [0 | 1 | 2] (floating,
    horizontal, vertical) as in [extern/kwin.d.ts]. *)
Module Kwin.

Record Tile : Type := mkTile {
  tiles : list nat;
  relativeGeometry : QRect.t;
  layoutDirection : Z;
  padding : JsNumber.t
}.

Record Window : Type := mkWindow {
  tile : option nat;
  frameGeometry : QRectF.t;
  minimized : bool;
  fullScreen : bool;
  maximizedVertically : bool;
  maximizedHorizontally : bool
}.

Record Host : Type := mkHost {
  tileStore : gmap nat Tile;
  nextTile : nat;
  windowStore : gmap nat Window;
  activeWindow : option nat;
  output : QRect.t;
  (* how [split] shares the rectangle of the tile it splits between the
     two tiles it leaves; the host's own business *)
  share : Z → QRect.t → QRect.t * QRect.t
}.

Definition with_tileStore (f : gmap nat Tile → gmap nat Tile) (h : Host) : Host :=
  mkHost (f (tileStore h)) (nextTile h) (windowStore h) (activeWindow h) (output h)
    (share h).

Definition with_windowStore (f : gmap nat Window → gmap nat Window) (h : Host) : Host :=
  mkHost (tileStore h) (nextTile h) (f (windowStore h)) (activeWindow h) (output h)
    (share h).

Definition with_tiles (l : list nat) (t : Tile) : Tile :=
  mkTile l (relativeGeometry t) (layoutDirection t) (padding t).

Definition with_relativeGeometry (g : QRect.t) (t : Tile) : Tile :=
  mkTile (tiles t) g (layoutDirection t) (padding t).

Definition with_layoutDirection (d : Z) (t : Tile) : Tile :=
  mkTile (tiles t) (relativeGeometry t) d (padding t).

Definition with_width (w : Q) (g : QRect.t) : QRect.t :=
  QRect.mk (QRect.x g) (QRect.y g) w (QRect.height g).

Definition with_height (h : Q) (g : QRect.t) : QRect.t :=
  QRect.mk (QRect.x g) (QRect.y g) (QRect.width g) h.

(** [tile.parent]: the tile that lists [t] among its children. *)
Definition parent (h : Host) (t : nat) : option nat :=
  fst <$> List.find (λ p, bool_decide (t ∈ tiles p.2)) (map_to_list (tileStore h)).

(** [tile.absoluteGeometry]: the relative geometry scaled to the output. *)
Definition absoluteGeometry (h : Host) (t : Tile) : QRect.t :=
  let r := relativeGeometry t in
  let o := output h in
  QRect.mk (QRect.x o + QRect.x r * QRect.width o)
           (QRect.y o + QRect.y r * QRect.height o)
           (QRect.width r * QRect.width o)
           (QRect.height r * QRect.height o).

(** [tile.remove()]: the tile leaves its parent's child list and is
    destroyed. *)
Definition detach (t : nat) (p : Tile) : Tile :=
  with_tiles (filter (λ c, c ≠ t) (tiles p)) p.

Definition remove (t : nat) (h : Host) : Host :=
  with_tileStore (λ s, delete t (detach t <$> s)) h.

(** [l] with [n] put right after the first occurrence of [t]. *)
Fixpoint insert_after (t n : nat) (l : list nat) : list nat :=
  match l with
  | [] => []
  | c :: l' => if decide (c = t) then c :: n :: l' else c :: insert_after t n l'
  end.

(** [tile.split(direction)]. Splitting a child of a tile that is laid
    out in the same direction produces the next sibling of that child
    ("splitting child i-1 produces the next sibling"); any other split
    gives the tile itself two children. Neither the sources nor the
    design document say how the space is shared between the two tiles: the
    host decides ([share]). [None] when [t] is not a live tile. *)
Definition split (t : nat) (d : Z) (h : Host) : option Host :=
  match tileStore h !! t with
  | None => None
  | Some kt =>
      let n := nextTile h in
      let '(g1, g2) := share h d (relativeGeometry kt) in
      let sibling :=
        match parent h t with
        | Some p =>
            match tileStore h !! p with
            | Some kp => if (layoutDirection kp =? d)%Z then Some (p, kp) else None
            | None => None
            end
        | None => None
        end in
      match sibling with
      | Some (p, kp) =>
          Some (mkHost
            (<[n := mkTile [] g2 (layoutDirection kt) (padding kt)]>
              (<[p := with_tiles (insert_after t n (tiles kp)) kp]>
                (<[t := with_relativeGeometry g1 kt]> (tileStore h))))
            (S n) (windowStore h) (activeWindow h) (output h) (share h))
      | None =>
          Some (mkHost
            (<[S n := mkTile [] g2 0 (padding kt)]>
              (<[n := mkTile [] g1 0 (padding kt)]>
                (<[t := with_layoutDirection d
                          (with_tiles (tiles kt ++ [n; S n]) kt)]> (tileStore h))))
            (S (S n)) (windowStore h) (activeWindow h) (output h) (share h))
      end
  end.

(** [window.tile = t] *)
Definition setTile (t : option nat) (w : Window) : Window :=
  mkWindow t (frameGeometry w) (minimized w) (fullScreen w)
    (maximizedVertically w) (maximizedHorizontally w).

(** [window.minimized = b] and [window.fullScreen = b] *)
Definition setMinimized (b : bool) (w : Window) : Window :=
  mkWindow (tile w) (frameGeometry w) b (fullScreen w)
    (maximizedVertically w) (maximizedHorizontally w).

Definition setFullScreen (b : bool) (w : Window) : Window :=
  mkWindow (tile w) (frameGeometry w) (minimized w) b
    (maximizedVertically w) (maximizedHorizontally w).

(** [window.setMaximize(vertically, horizontally)] *)
Definition setMaximize (v hz : bool) (w : Window) : Window :=
  mkWindow (tile w) (frameGeometry w) (minimized w) (fullScreen w) v hz.

Arguments with_tileStore f h /.
Arguments with_windowStore f h /.
Arguments with_tiles l t /.
Arguments with_relativeGeometry g t /.
Arguments with_layoutDirection d t /.
Arguments with_width w g /.
Arguments with_height h g /.
Arguments detach t p /.
Arguments setTile t w /.
Arguments setMinimized b w /.
Arguments setFullScreen b w /.
Arguments setMaximize v hz w /.

End Kwin.

(** ** The abstract model and the engine contract

    Modelled from the spec: the abstract [Tile] (ordered children, layout
    direction, at most one occupant, requested size, parent reference),
    the [Client] (an identity), the capability bitset and the engine
    contract of sections 3 and 6; the [engine] module is missing from
    the sources. *)
Module Engine.

Record Tile : Type := mkTile {
  parent : option nat;
  tiles : list nat;
  layoutDirection : Z;
  client : option nat;
  requestedSize : option GSize.t
}.

(** All abstract tiles that exist, by identity. *)
Record Heap : Type := mkHeap {
  tileStore : gmap nat Tile;
  nextTile : nat
}.

Definition with_tiles (l : list nat) (t : Tile) : Tile :=
  mkTile (parent t) l (layoutDirection t) (client t) (requestedSize t).

Definition with_requestedSize (s : option GSize.t) (t : Tile) : Tile :=
  mkTile (parent t) (tiles t) (layoutDirection t) (client t) s.

Arguments with_tiles l t /.
Arguments with_requestedSize s t /.

(** [tile.addChild()]: the child-adding primitive. The new node is a
    childless, unoccupied child appended to [t]; the specification does
    not fix its layout direction, which is left at 0 here. [None] when [t]
    is not in the store. *)
Definition addChild (t : nat) (h : Heap) : option (nat * Heap) :=
  match tileStore h !! t with
  | None => None
  | Some tl =>
      let n := nextTile h in
      Some (n, mkHeap (<[n := mkTile (Some t) [] 0 None None]>
                         (<[t := with_tiles (tiles tl ++ [n]) tl]> (tileStore h)))
                      (S n))
  end.

(** [tile.remove()] of the abstract [Tile] class. The class is missing
    from the sources and the design document does not say what the method
    does, so it is taken from the engine: a method that runs on the
    abstract tiles and either returns or throws. The driver calls it while
    it iterates over the child array of a tile; what the method does to
    that very array is its own business too, so it is given the array
    under iteration and returns it as it leaves it. *)
Definition TileMethod : Type := Heap → list nat → Heap * list nat * option Exn.

(** [tile.requestedSize = s] *)
Definition setRequestedSize (t : nat) (s : GSize.t) (h : Heap) : option Heap :=
  match tileStore h !! t with
  | None => None
  | Some tl => Some (mkHeap (<[t := with_requestedSize (Some s) tl]> (tileStore h))
                            (nextTile h))
  end.

(** [EngineCapability]: two distinct bits of a bitset. *)
Definition TranslateRotation : Z := 1.
Definition TilesMutable : Z := 2.

(** [InsertionPoint]: whether a new window goes next to the active one
    or wherever the engine's default placement puts it. *)
Inductive InsertionPoint : Type := DefaultPlacement | Active.

Record Config : Type := mkConfig {
  insertionPoint : InsertionPoint;
  rotateLayout : bool
}.

Section Contract.
Context {P : Type}.

(** The fields of an engine object; [priv] is whatever else the
    implementation keeps. *)
Record Data : Type := mkData {
  priv : P;
  rootTile : nat;
  untiledClients : list nat;
  config : Config;
  engineCapability : Z
}.

(** A method runs on the engine's own fields and on the abstract tiles,
    and either returns or throws. *)
Definition Method : Type := Data → Heap → Data * Heap * option Exn.

Record Methods : Type := mkMethods {
  addClient : nat → Method;
  removeClient : nat → Method;
  putClientInTile : nat → nat → option Geometry.Direction → Method;
  buildLayout : Method;
  regenerateLayout : Method;
  remove : nat → TileMethod  (* [tile.remove()] *)
}.

Record TilingEngine : Type := mkEngine {
  data : Data;
  methods : Methods
}.

End Contract.
Arguments Data : clear implicits.
Arguments Methods : clear implicits.
Arguments TilingEngine : clear implicits.
Arguments Method : clear implicits.

End Engine.

(** ** The driver ([driver.ts]) *)

Module Driver.

(** What the logger is given. *)
Inductive LogEntry : Type :=
| ErrorExn (e : Exn)
| ErrorTileNotRegistered (absoluteGeometry : option QRect.t)
| ErrorClientMissing (client : nat)
| DebugRotated (d : Geometry.Direction).

(** The calls made on the engine, as an observer of the engine sees
    them. *)
Inductive EngineCall : Type :=
| CallAddClient (client : nat)
| CallRemoveClient (client : nat)
| CallPutClientInTile (client tile : nat) (direction : option Geometry.Direction)
| CallBuildLayout
| CallRegenerateLayout
| CallTileRemove (tile : nat).

(** Modelled from the spec: the per-window record the controller keeps
    ([this.ctrl.windowExtensions]), whose class is missing from the
    sources; the fields are the ones that the driver and the shortcuts
    read and write. *)
Record WindowExtensions : Type := mkExtensions {
  isTiled : bool;
  maximized : bool;
  lastTiledLocation : option GPoint.t
}.

Definition with_lastTiledLocation (p : GPoint.t) (e : WindowExtensions)
  : WindowExtensions :=
  mkExtensions (isTiled e) (maximized e) (Some p).

Section Driver.
Context {P : Type}.

(** The driver's fields together with everything its methods reach. *)
Record World : Type := mkWorld {
  engine : Engine.TilingEngine P;  (* [this.engine] *)
  engineType : nat;  (* [this.engineType] *)
  tiles : BiMap.t (option nat) nat;  (* [this.tiles]: live tile (or [undefined]) to abstract tile *)
  clients : BiMap.t nat nat;  (* [this.clients]: live window to client *)
  untiledWindows : list nat;  (* [this.untiledWindows] *)
  heap : Engine.Heap;  (* the abstract tiles *)
  host : Kwin.Host;  (* the live tiles and windows *)
  managedTiles : gset (option nat);  (* [this.ctrl.managedTiles] *)
  windowExtensions : gmap nat WindowExtensions;  (* [this.ctrl.windowExtensions] *)
  maximizeSingle : bool;  (* [this.config.maximizeSingle] *)
  nextClient : nat;  (* the identity of the next [new Client] *)
  log : list LogEntry;  (* what [this.logger] was given, oldest first *)
  calls : list EngineCall  (* the calls made on the engine, oldest first *)
}.

Definition upd_engine (f : Engine.TilingEngine P → Engine.TilingEngine P)
    (w : World) : World :=
  mkWorld (f (engine w)) (engineType w) (tiles w) (clients w)
    (untiledWindows w) (heap w) (host w) (managedTiles w) (windowExtensions w)
    (maximizeSingle w) (nextClient w) (log w) (calls w).

Definition upd_engineType (f : nat → nat)
    (w : World) : World :=
  mkWorld (engine w) (f (engineType w)) (tiles w) (clients w)
    (untiledWindows w) (heap w) (host w) (managedTiles w) (windowExtensions w)
    (maximizeSingle w) (nextClient w) (log w) (calls w).

Definition upd_tiles (f : BiMap.t (option nat) nat → BiMap.t (option nat) nat)
    (w : World) : World :=
  mkWorld (engine w) (engineType w) (f (tiles w)) (clients w)
    (untiledWindows w) (heap w) (host w) (managedTiles w) (windowExtensions w)
    (maximizeSingle w) (nextClient w) (log w) (calls w).

Definition upd_clients (f : BiMap.t nat nat → BiMap.t nat nat)
    (w : World) : World :=
  mkWorld (engine w) (engineType w) (tiles w) (f (clients w))
    (untiledWindows w) (heap w) (host w) (managedTiles w) (windowExtensions w)
    (maximizeSingle w) (nextClient w) (log w) (calls w).

Definition upd_untiledWindows (f : list nat → list nat)
    (w : World) : World :=
  mkWorld (engine w) (engineType w) (tiles w) (clients w)
    (f (untiledWindows w)) (heap w) (host w) (managedTiles w)
    (windowExtensions w) (maximizeSingle w) (nextClient w) (log w) (calls w).

Definition upd_heap (f : Engine.Heap → Engine.Heap)
    (w : World) : World :=
  mkWorld (engine w) (engineType w) (tiles w) (clients w) (untiledWindows w)
    (f (heap w)) (host w) (managedTiles w) (windowExtensions w)
    (maximizeSingle w) (nextClient w) (log w) (calls w).

Definition upd_host (f : Kwin.Host → Kwin.Host)
    (w : World) : World :=
  mkWorld (engine w) (engineType w) (tiles w) (clients w) (untiledWindows w)
    (heap w) (f (host w)) (managedTiles w) (windowExtensions w)
    (maximizeSingle w) (nextClient w) (log w) (calls w).

Definition upd_managedTiles (f : gset (option nat) → gset (option nat))
    (w : World) : World :=
  mkWorld (engine w) (engineType w) (tiles w) (clients w) (untiledWindows w)
    (heap w) (host w) (f (managedTiles w)) (windowExtensions w)
    (maximizeSingle w) (nextClient w) (log w) (calls w).

Definition upd_windowExtensions (f : gmap nat WindowExtensions → gmap nat WindowExtensions)
    (w : World) : World :=
  mkWorld (engine w) (engineType w) (tiles w) (clients w) (untiledWindows w)
    (heap w) (host w) (managedTiles w) (f (windowExtensions w))
    (maximizeSingle w) (nextClient w) (log w) (calls w).

Definition upd_maximizeSingle (f : bool → bool)
    (w : World) : World :=
  mkWorld (engine w) (engineType w) (tiles w) (clients w) (untiledWindows w)
    (heap w) (host w) (managedTiles w) (windowExtensions w)
    (f (maximizeSingle w)) (nextClient w) (log w) (calls w).

Definition upd_nextClient (f : nat → nat)
    (w : World) : World :=
  mkWorld (engine w) (engineType w) (tiles w) (clients w) (untiledWindows w)
    (heap w) (host w) (managedTiles w) (windowExtensions w) (maximizeSingle w)
    (f (nextClient w)) (log w) (calls w).

Definition upd_log (f : list LogEntry → list LogEntry)
    (w : World) : World :=
  mkWorld (engine w) (engineType w) (tiles w) (clients w) (untiledWindows w)
    (heap w) (host w) (managedTiles w) (windowExtensions w) (maximizeSingle w)
    (nextClient w) (f (log w)) (calls w).

Definition upd_calls (f : list EngineCall → list EngineCall)
    (w : World) : World :=
  mkWorld (engine w) (engineType w) (tiles w) (clients w) (untiledWindows w)
    (heap w) (host w) (managedTiles w) (windowExtensions w) (maximizeSingle w)
    (nextClient w) (log w) (f (calls w)).

(** *** Method bodies as state transformers *)

Definition M (A : Type) : Type := World → Completion A * World.

Definition ret {A : Type} (a : A) : M A := λ w, (Normal a, w).

Definition bind {A B : Type} (m : M A) (f : A → M B) : M B :=
  λ w, match m w with
       | (Normal a, w') => f a w'
       | (Return, w') => (Return, w')
       | (Throw e, w') => (Throw e, w')
       | (OutOfFuel, w') => (OutOfFuel, w')
       end.

Definition throw {A : Type} (e : Exn) : M A := λ w, (Throw e, w).
Definition earlyReturn {A : Type} : M A := λ w, (Return, w).
Definition outOfFuel {A : Type} : M A := λ w, (OutOfFuel, w).
Definition gets {A : Type} (f : World → A) : M A := λ w, (Normal (f w), w).
Definition modify (f : World → World) : M unit := λ w, (Normal tt, f w).

(** [x.f] for an [x] that may be [undefined] *)
Definition defined {A : Type} (o : option A) : M A :=
  match o with Some a => ret a | None => throw TypeError end.

(** [try { body } catch (e) { handler }] *)
Definition tryCatch (body : M unit) (handler : Exn → M unit) : M unit :=
  λ w, match body w with
       | (Throw e, w') => handler e w'
       | r => r
       end.

(** A whole method body: [return] ends it normally. *)
Definition method (body : M unit) : M unit :=
  λ w, match body w with
       | (Return, w') => (Normal tt, w')
       | r => r
       end.

#[global] Instance M_ret : MRet M := @ret.
#[global] Instance M_bind : MBind M := λ A B f m, bind m f.

Fixpoint forEach {A : Type} (l : list A) (body : A → M unit) : M unit :=
  match l with
  | [] => ret tt
  | a :: l' => body a;; forEach l' body
  end.

(** *** Reaching the collaborators *)

Definition logError (e : LogEntry) : M unit := modify (upd_log (λ l, l ++ [e])).
Definition logDebug (e : LogEntry) : M unit := modify (upd_log (λ l, l ++ [e])).

(** [new Client(window)]: a client nobody has seen before. *)
Definition newClient (window : nat) : M nat :=
  λ w, (Normal (nextClient w), upd_nextClient S w).

(** One call of an engine method: it works on the engine's fields and on
    the abstract tiles, and may throw after having changed them. *)
Definition callEngine (c : EngineCall)
    (m : Engine.Methods P → Engine.Method P) : M unit :=
  λ w, let e := engine w in
       match m (Engine.methods e) (Engine.data e) (heap w) with
       | (d, h, r) =>
           let w' := upd_calls (λ l, l ++ [c])
                       (upd_heap (λ _, h)
                          (upd_engine (λ e, Engine.mkEngine d (Engine.methods e)) w)) in
           match r with
           | None => (Normal tt, w')
           | Some ex => (Throw ex, w')
           end
       end.

(** One call of [child.remove()] while the array [arr] is iterated:
    the array as the method leaves it. *)
Definition callRemove (child : nat) (arr : list nat) : M (list nat) :=
  λ w, match Engine.remove (Engine.methods (engine w)) child (heap w) arr with
       | (h, arr', r) =>
           let w' := upd_calls (λ l, l ++ [CallTileRemove child]) (upd_heap (λ _, h) w) in
           match r with
           | None => (Normal arr', w')
           | Some ex => (Throw ex, w')
           end
       end.

Definition engineData : M (Engine.Data P) := gets (λ w, Engine.data (engine w)).

Definition liveTile (t : nat) : M Kwin.Tile :=
  o ← gets (λ w, Kwin.tileStore (host w) !! t); defined o.

Definition updLiveTile (t : nat) (f : Kwin.Tile → Kwin.Tile) : M unit :=
  kt ← liveTile t;
  modify (upd_host (Kwin.with_tileStore (<[t := f kt]>))).

Definition liveWindow (window : nat) : M Kwin.Window :=
  o ← gets (λ w, Kwin.windowStore (host w) !! window); defined o.

Definition updWindow (window : nat) (f : Kwin.Window → Kwin.Window) : M unit :=
  kw ← liveWindow window;
  modify (upd_host (Kwin.with_windowStore (<[window := f kw]>))).

Definition abstractTile (t : nat) : M Engine.Tile :=
  o ← gets (λ w, Engine.tileStore (heap w) !! t); defined o.

Definition heapOp (f : Engine.Heap → option Engine.Heap) : M unit :=
  h ← gets heap;
  h' ← defined (f h);
  modify (upd_heap (λ _, h')).

(** [kwinTile.absoluteGeometry] as the logger prints it. *)
Definition loggedGeometry (kwinTile : nat) : M (option QRect.t) :=
  gets (λ w, Kwin.absoluteGeometry (host w) <$> Kwin.tileStore (host w) !! kwinTile).

(** [(capability & flag) == flag] *)
Definition hasCapability (capability flag : Z) : bool :=
  (Z.land capability flag =? flag)%Z.

(** *** [switchEngine] *)

Definition switchEngine (newEngine : Engine.TilingEngine P) (newEngineType : nat) : M unit :=
  modify (upd_engine (λ _, newEngine));;
  modify (upd_engineType (λ _, newEngineType));;
  tryCatch
    (cs ← gets (λ w, BiMap.values (clients w));
     forEach cs (λ client, callEngine (CallAddClient client) (λ m, Engine.addClient m client));;
     callEngine CallBuildLayout Engine.buildLayout)
    (λ e, logError (ErrorExn e)).

(** *** [buildLayout] *)

(** [while (rootTile.tiles.length > 0) rootTile.tiles[0].remove()] *)
Fixpoint clearRoot (fuel : nat) (rootTile : nat) : M unit :=
  match fuel with
  | O => outOfFuel
  | S fuel' =>
      rt ← liveTile rootTile;
      match Kwin.tiles rt with
      | [] => ret tt
      | first :: _ =>
          modify (upd_host (Kwin.remove first));;
          clearRoot fuel' rootTile
      end
  end.

(** [while (realRootTile.tiles.length == 1 && realRootTile.client == null)
       realRootTile = realRootTile.tiles[0]] *)
Fixpoint findRealRoot (fuel : nat) (realRootTile : nat) : M nat :=
  match fuel with
  | O => outOfFuel
  | S fuel' =>
      tl ← abstractTile realRootTile;
      match Engine.tiles tl, Engine.client tl with
      | [only], None => findRealRoot fuel' only
      | _, _ => ret realRootTile
      end
  end.

(** The body of [for (let i = 0; i < tilesLen; i += 1)], for the children
    from index [i] on; [queue] is the queue of the walk. *)
Fixpoint splitLoop (kwinTile : nat) (direction : Z) (horizontal : bool)
    (tilesLen : nat) (i : nat) (children : list nat) (queue : list nat)
    : M (list nat) :=
  match children with
  | [] => ret queue
  | child :: children' =>
      (if decide (i = 0) then
         h ← gets host;
         h' ← defined (Kwin.split kwinTile direction h);
         modify (upd_host (λ _, h'))
       else if decide (1 < i) then
         kt ← liveTile kwinTile;
         prev ← defined (Kwin.tiles kt !! (i - 1));
         h ← gets host;
         h' ← defined (Kwin.split prev direction h);
         modify (upd_host (λ _, h'))
       else ret tt);;
      (if horizontal && bool_decide (0 < i) then
         kt ← liveTile kwinTile;
         prev ← defined (Kwin.tiles kt !! (i - 1));
         let width := (QRect.width (Kwin.relativeGeometry kt)
                         / inject_Z (Z.of_nat tilesLen))%Q in
         updLiveTile prev (λ pt, Kwin.with_relativeGeometry
                                   (Kwin.with_width width (Kwin.relativeGeometry pt)) pt)
       else if decide (0 < i) then
         kt ← liveTile kwinTile;
         prev ← defined (Kwin.tiles kt !! (i - 1));
         let height := (QRect.height (Kwin.relativeGeometry kt)
                          / inject_Z (Z.of_nat tilesLen))%Q in
         updLiveTile prev (λ pt, Kwin.with_relativeGeometry
                                   (Kwin.with_height height (Kwin.relativeGeometry pt)) pt)
       else ret tt);;
      kt ← liveTile kwinTile;
      modify (upd_tiles (λ m, BiMap.set m (Kwin.tiles kt !! i) child));;
      splitLoop kwinTile direction horizontal tilesLen (S i) children' (queue ++ [child])
  end.

(** The part of the walk's body that places the occupant of [tile] in
    [kwinTile]. *)
Definition placeOccupant (kwinTile : nat) (occupant : option nat) : M unit :=
  match occupant with
  | None => ret tt
  | Some client =>
      window ← gets (λ w, BiMap.inverse_get (clients w) client);
      match window with
      | None => logError (ErrorClientMissing client);; earlyReturn
      | Some window =>
          extensions ← gets (λ w, windowExtensions w !! window);
          updWindow window (Kwin.setMinimized false);;
          updWindow window (Kwin.setFullScreen false);;
          extensions ← defined extensions;
          (if maximized extensions
           then updWindow window (Kwin.setMaximize false false)
           else ret tt);;
          updWindow window (Kwin.setTile (Some kwinTile));;
          kt ← liveTile kwinTile;
          center ← gets (λ w, Geometry.centerOfRect (Kwin.absoluteGeometry (host w) kt));
          modify (upd_windowExtensions
                    (<[window := with_lastTiledLocation center extensions]>))
      end
  end.

(** [while (queue.size > 0) { ... }] of [buildLayout] *)
Fixpoint buildLoop (fuel : nat) (queue : list nat) : M unit :=
  match fuel with
  | O => outOfFuel
  | S fuel' =>
      match queue with
      | [] => ret tt
      | tile :: queue =>
          kwinTile ← gets (λ w, mjoin (BiMap.inverse_get (tiles w) tile));
          modify (upd_managedTiles (λ s, {[kwinTile]} ∪ s));;
          tl ← abstractTile tile;
          kwinTile ← defined kwinTile;
          updLiveTile kwinTile (Kwin.with_layoutDirection (Engine.layoutDirection tl));;
          kt ← liveTile kwinTile;
          let horizontal := (Kwin.layoutDirection kt =? 1)%Z in
          let tilesLen := length (Engine.tiles tl) in
          queue ←
            (if decide (1 < tilesLen) then
               splitLoop kwinTile (Engine.layoutDirection tl) horizontal tilesLen 0
                 (Engine.tiles tl) queue
             else
               match Engine.tiles tl with
               | [only] =>
                   modify (upd_tiles (λ m, BiMap.set m (Some kwinTile) only));;
                   ret (queue ++ [only])
               | _ => ret queue
               end);
          placeOccupant kwinTile (Engine.client tl);;
          buildLoop fuel' queue
      end
  end.

(** [fixSizing]: an empty body in the source. *)
Definition fixSizing (rootTile kwinRootTile : nat) : M unit := ret tt.

(** The first part of [buildLayout]: the live root is cleared, the
    tile-map is emptied, the untracked list is recomputed and the real
    root of the abstract tree is found. *)
Definition prepareLayout (fuel : nat) (rootTile : nat) : M nat :=
  clearRoot fuel rootTile;;
  modify (upd_tiles BiMap.clear);;
  modify (upd_untiledWindows (λ _, []));;
  e ← engineData;
  forEach (Engine.untiledClients e)
    (λ client,
       window ← gets (λ w, BiMap.inverse_get (clients w) client);
       match window with
       | Some window => modify (upd_untiledWindows (λ l, l ++ [window]))
       | None => ret tt
       end);;
  e ← engineData;
  findRealRoot fuel (Engine.rootTile e).

Definition buildLayout (fuel : nat) (rootTile : nat) : M unit :=
  method
    (realRootTile ← prepareLayout fuel rootTile;
     rr ← abstractTile realRootTile;
     maximize ← gets maximizeSingle;
     if bool_decide (is_Some (Engine.client rr)) && (maximize : bool) then
       window ← gets (λ w, Engine.client rr ≫= BiMap.inverse_get (clients w));
       match window with
       | None => earlyReturn
       | Some window =>
           updWindow window (Kwin.setTile None);;
           updWindow window (Kwin.setMaximize true true);;
           earlyReturn
       end
     else
       modify (upd_tiles (λ m, BiMap.set m (Some rootTile) realRootTile));;
       buildLoop fuel [realRootTile];;
       fixSizing realRootTile rootTile).

(** *** [addWindow] *)

(** The labelled block [activeChecks]: the value is [failedActive] when
    the block is left. *)
Definition activeChecks (client : nat) : M bool :=
  e ← engineData;
  match Engine.insertionPoint (Engine.config e) with
  | Engine.Active =>
      activeWindow ← gets (λ w, Kwin.activeWindow (host w));
      match activeWindow with
      | None => ret true
      | Some activeWindow =>
          aw ← liveWindow activeWindow;
          match Kwin.tile aw with
          | None => ret true
          | Some activeTile =>
              tile ← gets (λ w, BiMap.get (tiles w) (Some activeTile));
              match tile with
              | None => ret true
              | Some tile =>
                  callEngine (CallPutClientInTile client tile None)
                    (λ m, Engine.putClientInTile m client tile None);;
                  ret false
              end
          end
      end
  | _ => ret true
  end.

Definition addWindow (window : nat) : M unit :=
  method
    (tracked ← gets (λ w, BiMap.has (clients w) window);
     if (tracked : bool) then earlyReturn
     else
       client ← newClient window;
       modify (upd_clients (λ m, BiMap.set m window client));;
       failedActive ← activeChecks client;
       tryCatch
         ((if (failedActive : bool)
           then callEngine (CallAddClient client) (λ m, Engine.addClient m client)
           else ret tt);;
          callEngine CallBuildLayout Engine.buildLayout)
         (λ e, logError (ErrorExn e))).

(** *** [removeWindow] *)

Definition removeWindow (window : nat) : M unit :=
  method
    (client ← gets (λ w, BiMap.get (clients w) window);
     match client with
     | None => earlyReturn
     | Some client =>
         modify (upd_clients (λ m, BiMap.delete m window));;
         modify (upd_untiledWindows (λ l, l ++ [window]));;
         tryCatch
           (callEngine (CallRemoveClient client) (λ m, Engine.removeClient m client);;
            callEngine CallBuildLayout Engine.buildLayout)
           (λ e, logError (ErrorExn e))
     end).

(** *** [putWindowInTile] *)

(** The direction handed to the engine: [rotatedDirection] at the call
    of [putClientInTile]. *)
Definition rotatedDirection (e : Engine.Data P)
    (direction : option Geometry.Direction) : M (option Geometry.Direction) :=
  match direction with
  | Some d =>
      if Engine.rotateLayout (Engine.config e)
         && hasCapability (Engine.engineCapability e) Engine.TranslateRotation
      then
        let rotated := Geometry.rotateCw d in
        logDebug (DebugRotated rotated);;
        ret (Some rotated)
      else ret direction
  | None => ret direction
  end.

Definition putWindowInTile (window kwinTile : nat)
    (direction : option Geometry.Direction) : M unit :=
  method
    (tile ← gets (λ w, BiMap.get (tiles w) (Some kwinTile));
     match tile with
     | None =>
         geometry ← loggedGeometry kwinTile;
         logError (ErrorTileNotRegistered geometry);;
         earlyReturn
     | Some tile =>
         tracked ← gets (λ w, BiMap.has (clients w) window);
         (if (tracked : bool) then ret tt
          else
            client ← newClient window;
            modify (upd_clients (λ m, BiMap.set m window client)));;
         client ← gets (λ w, BiMap.get (clients w) window);
         client ← defined client;
         tryCatch
           (e ← engineData;
            rotated ← rotatedDirection e direction;
            callEngine (CallPutClientInTile client tile rotated)
              (λ m, Engine.putClientInTile m client tile rotated);;
            callEngine CallBuildLayout Engine.buildLayout)
           (λ e, logError (ErrorExn e))
     end).

(** *** [regenerateLayout] *)

(** [x == null] for what [inverse.get] returns: absent, or the key
    [undefined]. *)
Definition isNull (k : option (option nat)) : bool :=
  match k with
  | Some (Some _) => false
  | _ => true
  end.

(** [for (const child of tile.tiles) { ... }]: the loop over the array
    [arr] of the abstract children of a tile, from position [i] on. The
    array iterator reads the array again at every step, and
    [child.remove()] may have changed it. *)
Fixpoint destroyLoop (fuel : nat) (arr : list nat) (i : nat) : M unit :=
  match fuel with
  | O => outOfFuel
  | S fuel' =>
      match arr !! i with
      | None => ret tt
      | Some child =>
          k ← gets (λ w, BiMap.inverse_get (tiles w) child);
          arr' ← (if isNull k then
                    modify (upd_tiles (λ m, BiMap.inverse_delete m child));;
                    callRemove child arr
                  else ret arr);
          destroyLoop fuel' arr' (S i)
      end
  end.

(** [for (const child of kwinTile.tiles) { ... }] *)
Definition createLoop (tile : nat) (liveChildren : list nat) : M unit :=
  forEach liveChildren
    (λ child,
       registered ← gets (λ w, BiMap.has (tiles w) (Some child));
       if (registered : bool) then ret tt
       else
         h ← gets heap;
         '(newTile, h') ← defined (Engine.addChild tile h);
         modify (upd_heap (λ _, h'));;
         modify (upd_tiles (λ m, BiMap.set m (Some child) newTile))).

(** The body of the walk for one dequeued live tile that is registered
    as [tile]. *)
Definition regenerateTile (fuel : nat) (kwinTile tile : nat) : M unit :=
  kt ← liveTile kwinTile;
  size ← gets (λ w, Geometry.fromRect (Kwin.absoluteGeometry (host w) kt));
  heapOp (Engine.setRequestedSize tile size);;
  e ← engineData;
  if hasCapability (Engine.engineCapability e) Engine.TilesMutable then
    tl ← abstractTile tile;
    destroyLoop fuel (Engine.tiles tl) 0;;
    kt ← liveTile kwinTile;
    createLoop tile (Kwin.tiles kt)
  else ret tt.

(** [while (queue.size > 0) { ... }] of [regenerateLayout] *)
Fixpoint regenerateLoop (fuel : nat) (queue : list nat) : M unit :=
  match fuel with
  | O => outOfFuel
  | S fuel' =>
      match queue with
      | [] => ret tt
      | kwinTile :: queue =>
          tile ← gets (λ w, BiMap.get (tiles w) (Some kwinTile));
          match tile with
          | None =>
              geometry ← loggedGeometry kwinTile;
              logError (ErrorTileNotRegistered geometry);;
              regenerateLoop fuel' queue
          | Some tile =>
              regenerateTile fuel kwinTile tile;;
              kt ← liveTile kwinTile;
              regenerateLoop fuel' (queue ++ Kwin.tiles kt)
          end
      end
  end.

Definition regenerateLayout (fuel : nat) (rootTile : nat) : M unit :=
  regenerateLoop fuel [rootTile];;
  tryCatch
    (callEngine CallRegenerateLayout Engine.regenerateLayout;;
     callEngine CallBuildLayout Engine.buildLayout)
    (λ e, logError (ErrorExn e)).

End Driver.

Arguments World : clear implicits.
Arguments M : clear implicits.
Arguments upd_engine {P} f w /.
Arguments upd_engineType {P} f w /.
Arguments upd_tiles {P} f w /.
Arguments upd_clients {P} f w /.
Arguments upd_untiledWindows {P} f w /.
Arguments upd_heap {P} f w /.
Arguments upd_host {P} f w /.
Arguments upd_managedTiles {P} f w /.
Arguments upd_windowExtensions {P} f w /.
Arguments upd_maximizeSingle {P} f w /.
Arguments upd_nextClient {P} f w /.
Arguments upd_log {P} f w /.
Arguments upd_calls {P} f w /.

End Driver.

(** * Vocabulary of the properties *)

Import Driver.

Section Vocabulary.
Context {P : Type}.

Definition mapsConsistent (w : World P) : Prop :=
  BiMap.consistent (tiles w) ∧ BiMap.consistent (clients w).

Definition mapsOneToOne (w : World P) : Prop :=
  BiMap.one_to_one (tiles w) ∧ BiMap.one_to_one (clients w).

Definition preserves (I : World P → Prop) {A : Type} (m : M P A) : Prop :=
  ∀ w, I w → I (m w).2.

End Vocabulary.

Section Reachable.
Context {P : Type}.

(** The worlds a driver can be in. It is constructed with empty maps;
    then public operations run, and between two of them anything but
    the two maps may have changed. *)
Inductive reachable : World P → Prop :=
| reach_new w :
    tiles w = BiMap.empty → clients w = BiMap.empty → reachable w
| reach_environment w w' :
    reachable w → tiles w' = tiles w → clients w' = clients w → reachable w'
| reach_addWindow w window :
    reachable w → reachable (addWindow window w).2
| reach_removeWindow w window :
    reachable w → reachable (removeWindow window w).2
| reach_putWindowInTile w window kwinTile direction :
    reachable w → reachable (putWindowInTile window kwinTile direction w).2
| reach_buildLayout w fuel rootTile :
    reachable w → reachable (buildLayout fuel rootTile w).2
| reach_regenerateLayout w fuel rootTile :
    reachable w → reachable (regenerateLayout fuel rootTile w).2
| reach_switchEngine w newEngine newEngineType :
    reachable w → reachable (switchEngine newEngine newEngineType w).2.

End Reachable.

Section DriverFields.
Context {P : Type}.

(** What the driver itself owns besides the engine's inner state: the
    two maps, the untracked list, the engine type and the engine's
    methods (which engine it is). *)
Definition driverFields (w : World P) :=
  (tiles w, clients w, untiledWindows w, engineType w, Engine.methods (engine w)).

End DriverFields.

Section EffectiveRoot.

(** [effectiveRoot store t r]: descending from [t] through single-child
    tiles without occupant ends at [r], a tile that is not such a
    wrapper. *)
Inductive effectiveRoot (store : gmap nat Engine.Tile) : nat → nat → Prop :=
| effectiveRoot_here t tl :
    store !! t = Some tl →
    (∀ only, ¬ (Engine.tiles tl = [only] ∧ Engine.client tl = None)) →
    effectiveRoot store t t
| effectiveRoot_descend t tl only r :
    store !! t = Some tl →
    Engine.tiles tl = [only] →
    Engine.client tl = None →
    effectiveRoot store only r →
    effectiveRoot store t r.

End EffectiveRoot.

(** The host never hands out the identity of a live tile twice: the
    identities from [nextTile] on are unused. *)
Definition allocatorAhead (h : Kwin.Host) : Prop :=
  ∀ t, Kwin.nextTile h ≤ t → Kwin.tileStore h !! t = None.


Section Capabilities.
Context {P : Type}.

(** The active engine declares its tiles mutable. *)
Definition tilesMutable (w : World P) : bool :=
  hasCapability (Engine.engineCapability (Engine.data (engine w))) Engine.TilesMutable.


End Capabilities.

(** What the walk of [regenerateLayout] asks of [tile.remove()] in order
    to come to an end: the method returns; it neither makes nor drops an
    abstract tile; it lengthens neither the child list of a tile nor the
    array under iteration. *)
Definition removeSettles (remove : nat → Engine.TileMethod) : Prop :=
  ∀ child h arr,
    ∃ h' arr',
      remove child h arr = (h', arr', None)
      ∧ Engine.nextTile h' = Engine.nextTile h
      ∧ (∀ t, is_Some (Engine.tileStore h' !! t) ↔ is_Some (Engine.tileStore h !! t))
      ∧ (∀ t tl tl', Engine.tileStore h !! t = Some tl →
           Engine.tileStore h' !! t = Some tl' →
           length (Engine.tiles tl') ≤ length (Engine.tiles tl))
      ∧ length arr' ≤ length arr.


(** [l] without the first occurrence of [t]
    ([l.splice(l.indexOf(t), 1)] for a [t] that occurs). *)
Fixpoint remove_first (t : nat) (l : list nat) : list nat :=
  match l with
  | [] => []
  | c :: l' => if decide (c = t) then l' else c :: remove_first t l'
  end.

(** A [tile.remove()] that takes the tile out of the very array that the
    loop iterates (a splice in place of the parent's child array). *)
Definition removeSplices (remove : nat → Engine.TileMethod) : Prop :=
  ∀ child h arr, (remove child h arr).1.2 = remove_first child arr.

(** * Worlds to run the driver on *)

Module Examples.

Definition unitRect : QRect.t := QRect.mk 0 0 1 1.
Definition screenRect : QRect.t := QRect.mk 0 0 1920 1080.

(** A host that shares the space of a split tile in two halves along
    the layout direction (1 splits the width, 2 the height). *)
Definition halves (d : Z) (g : QRect.t) : QRect.t * QRect.t :=
  if (d =? 1)%Z then
    let w := (QRect.width g / 2)%Q in
    (QRect.mk (QRect.x g) (QRect.y g) w (QRect.height g),
     QRect.mk (QRect.x g + w) (QRect.y g) w (QRect.height g))
  else if (d =? 2)%Z then
    let h := (QRect.height g / 2)%Q in
    (QRect.mk (QRect.x g) (QRect.y g) (QRect.width g) h,
     QRect.mk (QRect.x g) (QRect.y g + h) (QRect.width g) h)
  else (g, g).


Definition liveTile (children : list nat) : Kwin.Tile :=
  Kwin.mkTile children unitRect 0 (JsNumber.ofZ 4).

Definition liveWindow (t : option nat) : Kwin.Window :=
  Kwin.mkWindow t (QRectF.mk (JsNumber.ofZ 100) (JsNumber.ofZ 100) (JsNumber.ofZ 800) (JsNumber.ofZ 600))
    false false false false.

Definition extensions : WindowExtensions := mkExtensions true false None.

(** A [tile.remove()] that takes the tile out of the child array of its
    parent, in place: the array under iteration, which is that array for
    a child of the tile whose children are iterated, loses the tile too. *)
Definition spliceOut (t : nat) : Engine.TileMethod :=
  λ h arr,
    (match Engine.parent <$> Engine.tileStore h !! t with
     | Some (Some p) =>
         Engine.mkHeap (alter (λ pt, Engine.with_tiles (remove_first t (Engine.tiles pt)) pt) p
                          (Engine.tileStore h))
                       (Engine.nextTile h)
     | _ => h
     end,
     remove_first t arr, None).

(** A [tile.remove()] that gives the parent a new child array without
    the tile: the array under iteration stays as it is. *)
Definition replaceArray (t : nat) : Engine.TileMethod :=
  λ h arr, ((spliceOut t h arr).1.1, arr, None).

(** An engine that accepts every call and changes nothing; the tiles
    leave their parent's child array in place. *)
Definition accept : Engine.Method unit := λ d h, (d, h, None).

Definition idleMethods : Engine.Methods unit :=
  Engine.mkMethods (λ _, accept) (λ _, accept) (λ _ _ _, accept) accept accept spliceOut.

(** The same engine, except that placing a client in a tile fails. *)
Definition refuse : Engine.Method unit := λ d h, (d, h, Some (EngineError 1)).

Definition brokenPlacement : Engine.Methods unit :=
  Engine.mkMethods (λ _, accept) (λ _, accept) (λ _ _ _, refuse) accept accept spliceOut.

(** The idle engine, except that the tiles leave their parent through a
    new child array. *)
Definition replacing : Engine.Methods unit :=
  Engine.mkMethods (λ _, accept) (λ _, accept) (λ _ _ _, accept) accept accept replaceArray.

Definition abstractTile (parent : option nat) (children : list nat)
    (direction : Z) (occupant : option nat) : Engine.Tile :=
  Engine.mkTile parent children direction occupant None.

(** A live root (tile 0) with two children, windows 10 (active, in tile
    1) and 11 (in no tile). *)
Definition host : Kwin.Host :=
  Kwin.mkHost
    (<[0 := liveTile [1; 2]]> (<[1 := liveTile []]> (<[2 := liveTile []]> ∅)))
    3
    (<[10 := liveWindow (Some 1)]> (<[11 := liveWindow None]> ∅))
    (Some 10)
    screenRect
    halves.

(** One tracked window (10, as client 0) in a single abstract leaf (1)
    under a wrapper (0); "insert at active position", rotation enabled,
    both capabilities. *)
Definition singleWindow (methods : Engine.Methods unit) : World unit :=
  mkWorld
    (Engine.mkEngine
       (Engine.mkData tt 0 [] (Engine.mkConfig Engine.Active true) 3)
       methods)
    0
    (BiMap.set BiMap.empty (Some 1) 1)
    (BiMap.set BiMap.empty 10 0)
    []
    (Engine.mkHeap
       (<[0 := abstractTile None [1] 1 None]>
          (<[1 := abstractTile (Some 0) [] 1 (Some 0)]> ∅))
       2)
    host
    ∅
    (<[10 := extensions]> (<[11 := extensions]> ∅))
    true
    1
    []
    [].

(** A driver that has just been constructed. *)
Definition newDriver : World unit :=
  upd_clients (λ _, BiMap.empty) (upd_tiles (λ _, BiMap.empty) (singleWindow idleMethods)).

(** As [singleWindow], but the occupant of the abstract leaf is a client
    (5) that the client-map does not know, and the engine reports client
    0 as unplaced. *)
Definition unknownOccupant : World unit :=
  upd_heap
    (λ _, Engine.mkHeap
            (<[0 := abstractTile None [1] 1 None]>
               (<[1 := abstractTile (Some 0) [] 1 (Some 5)]> ∅))
            2)
    (upd_engine
       (λ _, Engine.mkEngine
               (Engine.mkData tt 0 [0] (Engine.mkConfig Engine.Active true) 3)
               idleMethods)
       (singleWindow idleMethods)).

(** Two tracked windows (10 and 11, as clients 0 and 1) in two abstract
    leaves (1 and 2) under a horizontal root (0). *)
Definition twoWindows : World unit :=
  upd_clients (λ m, BiMap.set m 11 1)
    (upd_heap
       (λ _, Engine.mkHeap
               (<[0 := abstractTile None [1; 2] 1 None]>
                  (<[1 := abstractTile (Some 0) [] 1 (Some 0)]>
                     (<[2 := abstractTile (Some 0) [] 1 (Some 1)]> ∅)))
               3)
       (singleWindow idleMethods)).

(** The live root is registered as abstract tile 0; its live children 1
    and 2 are not registered, and the abstract tile has a child (1) that
    has no live counterpart. *)
Definition outOfSync (capability : Z) : World unit :=
  upd_tiles (λ _, BiMap.set BiMap.empty (Some 0) 0)
    (upd_engine
       (λ _, Engine.mkEngine
               (Engine.mkData tt 0 [] (Engine.mkConfig Engine.Active true) capability)
               idleMethods)
       (singleWindow idleMethods)).

(** The same world with an engine of other methods. *)
Definition withMethods (methods : Engine.Methods unit) (w : World unit) : World unit :=
  upd_engine (λ e, Engine.mkEngine (Engine.data e) methods) w.


End Examples.

(** * Engine calls under a [try] *)

Section EngineSession.
Context {P : Type}.

(** One call of an engine method, with the name an observer sees. *)
Definition EngineStep : Type := EngineCall * (Engine.Methods P → Engine.Method P).

(** The engine calls of a [try] block, made in order on the engine's
    fields and on the abstract tiles until one of them throws: the calls
    that were made, the exception that ended them (if any), and what the
    fields and the tiles have become. *)
Fixpoint runEngine (ms : Engine.Methods P) (steps : list EngineStep)
    (d : Engine.Data P) (h : Engine.Heap)
    : list EngineCall * option Exn * (Engine.Data P * Engine.Heap) :=
  match steps with
  | [] => ([], None, (d, h))
  | (c, m) :: steps' =>
      match m ms d h with
      | (d', h', Some e) => ([c], Some e, (d', h'))
      | (d', h', None) =>
          let '(made, thrown, final) := runEngine ms steps' d' h' in
          (c :: made, thrown, final)
      end
  end.

(** What the [catch] of such a block hands to the logger. *)
Definition logged (thrown : option Exn) : list LogEntry :=
  match thrown with
  | Some e => [ErrorExn e]
  | None => []
  end.

Definition stepAddClient (client : nat) : EngineStep :=
  (CallAddClient client, λ m, Engine.addClient m client).

Definition stepRemoveClient (client : nat) : EngineStep :=
  (CallRemoveClient client, λ m, Engine.removeClient m client).

Definition stepPutClientInTile (client tile : nat)
    (direction : option Geometry.Direction) : EngineStep :=
  (CallPutClientInTile client tile direction,
   λ m, Engine.putClientInTile m client tile direction).

Definition stepBuildLayout : EngineStep := (CallBuildLayout, Engine.buildLayout).

Definition stepRegenerateLayout : EngineStep :=
  (CallRegenerateLayout, Engine.regenerateLayout).

End EngineSession.

Section AfterEngine.
Context {P : Type}.

(** The world after such a block whose [catch] logs the exception. *)
Definition afterEngine (w : World P) (steps : list EngineStep) : World P :=
  let '(made, thrown, (d, h)) :=
    runEngine (Engine.methods (engine w)) steps (Engine.data (engine w)) (heap w) in
  mkWorld (Engine.mkEngine d (Engine.methods (engine w))) (engineType w) (tiles w)
    (clients w) (untiledWindows w) h (host w) (managedTiles w) (windowExtensions w)
    (maximizeSingle w) (nextClient w) (log w ++ logged thrown) (calls w ++ made).

End AfterEngine.

Section ActiveInsertion.
Context {P : Type}.

(** When [addWindow] does not insert at the active position: the policy
    of the engine is not "insert at active position", or no window is
    active, or the active window has no tile, or its tile is not in the
    tile-map. *)
Definition fallsBack (w : World P) : Prop :=
  Engine.insertionPoint (Engine.config (Engine.data (engine w))) ≠ Engine.Active
  ∨ Kwin.activeWindow (host w) = None
  ∨ ∃ activeWindow aw,
      Kwin.activeWindow (host w) = Some activeWindow
      ∧ Kwin.windowStore (host w) !! activeWindow = Some aw
      ∧ (Kwin.tile aw = None
         ∨ ∃ activeTile, Kwin.tile aw = Some activeTile
                         ∧ BiMap.get (tiles w) (Some activeTile) = None).

End ActiveInsertion.

(** * The walk over the live tree *)

(** [walk store m queue visited skipped]: the breadth-first walk of
    [regenerateLayout] over the live tiles of [store], started with
    [queue], comes to an end. A live tile that is registered in the
    tile-map [m] is visited and its children join the queue; a live tile
    that is not registered is skipped, and so is everything below it.
    [visited] lists the visited live tiles with their abstract
    counterparts, [skipped] the live tiles that were skipped, each in
    the order of the walk. *)
Inductive walk (store : gmap nat Kwin.Tile) (m : BiMap.t (option nat) nat)
  : list nat → list (nat * nat) → list nat → Prop :=
| walk_done : walk store m [] [] []
| walk_skip kwinTile queue visited skipped :
    BiMap.get m (Some kwinTile) = None →
    walk store m queue visited skipped →
    walk store m (kwinTile :: queue) visited (kwinTile :: skipped)
| walk_visit kwinTile tile kt queue visited skipped :
    BiMap.get m (Some kwinTile) = Some tile →
    store !! kwinTile = Some kt →
    walk store m (queue ++ Kwin.tiles kt) visited skipped →
    walk store m (kwinTile :: queue) ((kwinTile, tile) :: visited) skipped.



(** * Live children made by splitting *)

(** [grown h kwinTile d n0 cnt]: the live tile [kwinTile] is laid out in
    direction [d] and its children are the [cnt] tiles made since the
    allocator stood at [n0], in the order of their identities; they have
    no children, the allocator stands right after them, and no other
    tile lists a tile made since then. *)
Definition grown (h : Kwin.Host) (kwinTile : nat) (d : Z) (n0 cnt : nat) : Prop :=
  (∃ kt, Kwin.tileStore h !! kwinTile = Some kt
         ∧ Kwin.tiles kt = seq n0 cnt
         ∧ Kwin.layoutDirection kt = d)
  ∧ kwinTile < n0
  ∧ Kwin.nextTile h = n0 + cnt
  ∧ (∀ j, j < cnt → ∃ leaf, Kwin.tileStore h !! (n0 + j) = Some leaf
                            ∧ Kwin.tiles leaf = [])
  ∧ (∀ t, n0 + cnt ≤ t → Kwin.tileStore h !! t = None)
  ∧ (∀ p kp c, Kwin.tileStore h !! p = Some kp → p ≠ kwinTile →
               c ∈ Kwin.tiles kp → c < n0).

(** Every tile that a live tile lists as a child has an identity that
    the allocator has already handed out. *)
Definition childrenAllocated (h : Kwin.Host) : Prop :=
  ∀ p kp c, Kwin.tileStore h !! p = Some kp → c ∈ Kwin.tiles kp → c < Kwin.nextTile h.

(** The tile-map after the live tiles [n0], [n0 + 1], ... have been
    registered, one after the other, for the abstract tiles
    [children]. *)
Fixpoint registered (m : BiMap.t (option nat) nat) (n0 : nat) (children : list nat)
  : BiMap.t (option nat) nat :=
  match children with
  | [] => m
  | child :: children' => registered (BiMap.set m (Some n0) child) (S n0) children'
  end.

(** * The directional commands ([ShortcutManager] of [shortcuts.ts])

    The commands work on the host and on the driver manager. The driver
    manager, the spatial queries of the host, the resize primitive of a
    live tile and [GRect.directionFromPoint] are not part of the
    sources: they are collaborators whose behaviour is left open, and
    the calls made on them are recorded. *)

Module ShortcutManager.

(** [Edge] of the host *)
Inductive Edge : Type := TopEdge | BottomEdge | LeftEdge | RightEdge.

(** What the logger is given ([resourceClass] names the window). *)
Inductive LogEntry : Type :=
| DebugFocusing (window : nat)
| DebugMoving (window : nat)
| DebugChangingSize (absoluteGeometry : QRect.t).

(** The calls made on the driver manager and on live tiles. *)
Inductive Call : Type :=
| CallRemoveWindow (window : nat)
| CallAddWindow (window : nat)
| CallRebuildLayout (output : option nat)
| CallPutWindowInTile (window tile : nat) (direction : Geometry.Direction)
| CallResizeByPixels (tile : nat) (amount : Q) (edge : Edge).

Section ShortcutManager.
Context {D : Type}.

(** What a collaborator may change: the host, the window records and the
    state [D] of the driver manager. *)
Record Env : Type := mkEnv {
  host : Kwin.Host;
  windowExtensions : gmap nat WindowExtensions;
  manager : D
}.

(** A call on a collaborator either returns or throws. *)
Definition Effect : Type := Env → Env * option Exn.

Record Collaborators : Type := mkCollaborators {
  (* [this.ctrl.driverManager] *)
  removeWindow : nat → Effect;
  addWindow : nat → Effect;
  rebuildLayout : option nat → Effect;
  putWindowInTile : nat → nat → Geometry.Direction → Effect;
  (* [tile.resizeByPixels(amount, edge)] *)
  resizeByPixels : nat → Q → Edge → Effect;
  (* [window.output] *)
  output : Kwin.Host → nat → nat;
  (* [workspace.tilingForScreen(output).bestTileForPosition(x, y)] *)
  bestTileForPosition : Kwin.Host → nat → JsNumber.t → JsNumber.t → option nat;
  (* [workspace.tilingForScreen(output).rootTile] *)
  rootTile : Kwin.Host → nat → nat;
  (* [tile.windows] *)
  windows : Kwin.Host → nat → list nat;
  (* [new GRect(rect).directionFromPoint(point)] *)
  directionFromPoint : QRect.t → QPointF.t → Geometry.Direction
}.

Record World : Type := mkWorld {
  env : Env;
  ctrl : Collaborators;
  resizeAmount : Q;  (* [this.config.resizeAmount] *)
  log : list LogEntry;  (* what [this.logger] was given, oldest first *)
  calls : list Call  (* the calls made on the collaborators, oldest first *)
}.

Definition M (A : Type) : Type := World → Completion A * World.

Definition ret {A : Type} (a : A) : M A := λ w, (Normal a, w).

Definition bind {A B : Type} (m : M A) (f : A → M B) : M B :=
  λ w, match m w with
       | (Normal a, w') => f a w'
       | (Return, w') => (Return, w')
       | (Throw e, w') => (Throw e, w')
       | (OutOfFuel, w') => (OutOfFuel, w')
       end.

Definition throw {A : Type} (e : Exn) : M A := λ w, (Throw e, w).
Definition earlyReturn {A : Type} : M A := λ w, (Return, w).
Definition outOfFuel {A : Type} : M A := λ w, (OutOfFuel, w).
Definition gets {A : Type} (f : World → A) : M A := λ w, (Normal (f w), w).
Definition modify (f : World → World) : M unit := λ w, (Normal tt, f w).

Definition defined {A : Type} (o : option A) : M A :=
  match o with Some a => ret a | None => throw TypeError end.

Definition method (body : M unit) : M unit :=
  λ w, match body w with
       | (Return, w') => (Normal tt, w')
       | r => r
       end.

#[global] Instance M_ret : MRet M := @ret.
#[global] Instance M_bind : MBind M := λ A B f m, bind m f.

Definition logDebug (e : LogEntry) : M unit :=
  modify (λ w, mkWorld (env w) (ctrl w) (resizeAmount w) (log w ++ [e]) (calls w)).

(** One call on a collaborator. *)
Definition call (c : Call) (f : Collaborators → Effect) : M unit :=
  λ w, match f (ctrl w) (env w) with
       | (e, r) =>
           let w' := mkWorld e (ctrl w) (resizeAmount w) (log w) (calls w ++ [c]) in
           match r with
           | None => (Normal tt, w')
           | Some ex => (Throw ex, w')
           end
       end.

Definition liveWindow (window : nat) : M Kwin.Window :=
  o ← gets (λ w, Kwin.windowStore (host (env w)) !! window); defined o.

Definition liveTile (t : nat) : M Kwin.Tile :=
  o ← gets (λ w, Kwin.tileStore (host (env w)) !! t); defined o.

(** [workspace.activeWindow] and [workspace.activeWindow = window] *)
Definition activeWindow : M (option nat) :=
  gets (λ w, Kwin.activeWindow (host (env w))).

Definition setActiveWindow (window : nat) : M unit :=
  modify (λ w,
    let h := host (env w) in
    mkWorld
      (mkEnv (Kwin.mkHost (Kwin.tileStore h) (Kwin.nextTile h) (Kwin.windowStore h)
                (Some window) (Kwin.output h) (Kwin.share h))
         (windowExtensions (env w)) (manager (env w)))
      (ctrl w) (resizeAmount w) (log w) (calls w)).

(** [window.output] *)
Definition outputOf (window : nat) : M nat :=
  gets (λ w, output (ctrl w) (host (env w)) window).

(** [pointInDirection(window, direction)] on a live window: what the
    probe functions read of the window and of its tile. *)
Definition pointInDirection (window : nat) (direction : Shortcuts.Direction)
  : M (option QPointF.t) :=
  kw ← liveWindow window;
  tile ← match Kwin.tile kw with
         | None => ret None
         | Some t => kt ← liveTile t; ret (Some (Shortcuts.mkTile (Kwin.padding kt)))
         end;
  ret (Shortcuts.pointInDirection (Shortcuts.mkWindow tile (Kwin.frameGeometry kw)) direction).

(** *** [retileWindow] *)

Definition retileWindow : M unit :=
  method
    (window ← activeWindow;
     match window with
     | None => earlyReturn
     | Some window =>
         extensions ← gets (λ w, windowExtensions (env w) !! window);
         match extensions with
         | None => earlyReturn
         | Some extensions =>
             (if isTiled extensions
              then call (CallRemoveWindow window) (λ c, removeWindow c window)
              else call (CallAddWindow window) (λ c, addWindow c window));;
             call (CallRebuildLayout None) (λ c, rebuildLayout c None)
         end
     end).

(** *** [tileInDirection] *)

Definition tileInDirection (window : nat) (point : option QPointF.t) : M (option nat) :=
  match point with
  | None => ret None
  | Some point =>
      out ← outputOf window;
      gets (λ w, bestTileForPosition (ctrl w) (host (env w)) out
                   (QPointF.x point) (QPointF.y point))
  end.

(** *** [focus] *)

Definition focus (direction : Shortcuts.Direction) : M unit :=
  method
    (window ← activeWindow;
     match window with
     | None => earlyReturn
     | Some window =>
         point ← pointInDirection window direction;
         tile ← tileInDirection window point;
         match tile with
         | None => earlyReturn
         | Some tile =>
             ws ← gets (λ w, windows (ctrl w) (host (env w)) tile);
             match ws with
             | [] => earlyReturn
             | newWindow :: _ =>
                 logDebug (DebugFocusing newWindow);;
                 setActiveWindow newWindow
             end
         end
     end).

(** *** [insert] *)

(** [while (tile.tiles.length == 1) tile = tile.tiles[0]] *)
Fixpoint descend (fuel : nat) (tile : nat) : M nat :=
  match fuel with
  | O => outOfFuel
  | S fuel' =>
      kt ← liveTile tile;
      match Kwin.tiles kt with
      | [only] => descend fuel' only
      | _ => ret tile
      end
  end.

Definition insert (fuel : nat) (direction : Shortcuts.Direction) : M unit :=
  method
    (window ← activeWindow;
     match window with
     | None => earlyReturn
     | Some window =>
         point ← pointInDirection window direction;
         match point with
         | None => earlyReturn
         | Some point =>
             logDebug (DebugMoving window);;
             call (CallRemoveWindow window) (λ c, removeWindow c window);;
             out ← outputOf window;
             call (CallRebuildLayout (Some out)) (λ c, rebuildLayout c (Some out));;
             tile ← tileInDirection window (Some point);
             tile ← match tile with
                    | Some tile => ret tile
                    | None =>
                        out ← outputOf window;
                        root ← gets (λ w, rootTile (ctrl w) (host (env w)) out);
                        descend fuel root
                    end;
             kt ← liveTile tile;
             direction ← gets (λ w, directionFromPoint (ctrl w)
                                      (Kwin.absoluteGeometry (host (env w)) kt) point);
             call (CallPutWindowInTile window tile direction)
               (λ c, putWindowInTile c window tile direction);;
             out ← outputOf window;
             call (CallRebuildLayout (Some out)) (λ c, rebuildLayout c (Some out))
         end
     end).

(** *** [resize] *)

Definition resize (direction : Shortcuts.Direction) : M unit :=
  method
    (window ← activeWindow;
     match window with
     | None => earlyReturn
     | Some window =>
         kw ← liveWindow window;
         match Kwin.tile kw with
         | None => earlyReturn
         | Some tile =>
             amount ← gets resizeAmount;
             kt ← liveTile tile;
             geometry ← gets (λ w, Kwin.absoluteGeometry (host (env w)) kt);
             logDebug (DebugChangingSize geometry);;
             match direction with
             | Shortcuts.Above =>
                 call (CallResizeByPixels tile amount TopEdge)
                   (λ c, resizeByPixels c tile amount TopEdge)
             | Shortcuts.Below =>
                 call (CallResizeByPixels tile amount BottomEdge)
                   (λ c, resizeByPixels c tile amount BottomEdge)
             | Shortcuts.Left =>
                 call (CallResizeByPixels tile amount LeftEdge)
                   (λ c, resizeByPixels c tile amount LeftEdge)
             | Shortcuts.Right =>
                 call (CallResizeByPixels tile amount RightEdge)
                   (λ c, resizeByPixels c tile amount RightEdge)
             end
         end
     end).

End ShortcutManager.

Arguments Env : clear implicits.
Arguments Effect : clear implicits.
Arguments Collaborators : clear implicits.
Arguments World : clear implicits.
Arguments M : clear implicits.

(** [singleChain store t r]: going down from the live tile [t] through
    tiles that have exactly one child ends at [r], a tile that has none
    or more than one. *)
Inductive singleChain (store : gmap nat Kwin.Tile) : nat → nat → Prop :=
| singleChain_here t kt :
    store !! t = Some kt →
    (∀ only, Kwin.tiles kt ≠ [only]) →
    singleChain store t t
| singleChain_down t kt only r :
    store !! t = Some kt →
    Kwin.tiles kt = [only] →
    singleChain store only r →
    singleChain store t r.

End ShortcutManager.

(** ** A world to run the commands on *)

Module ShortcutExamples.

Definition idle : ShortcutManager.Effect unit := λ e, (e, None).

(** The host finds tile 2 at every position of screen 0; tile 2 holds
    the windows 11 and 12; the root of the screen is tile 0. *)
Definition collaborators : ShortcutManager.Collaborators unit :=
  ShortcutManager.mkCollaborators
    (λ _, idle) (λ _, idle) (λ _, idle) (λ _ _ _, idle) (λ _ _ _, idle)
    (λ _ _, 0)
    (λ _ _ _ _, Some 2)
    (λ _ _, 0)
    (λ _ t, if decide (t = 2) then [11; 12] else [])
    (λ _ _, Geometry.Right).

(** The host of [Examples.host]: window 10 is active and in tile 1,
    window 11 floats. *)
Definition world : ShortcutManager.World unit :=
  ShortcutManager.mkWorld
    (ShortcutManager.mkEnv Examples.host
       (<[10 := Examples.extensions]> (<[11 := Examples.extensions]> ∅)) tt)
    collaborators 50 [] [].

(** The same with the floating window 11 active. *)
Definition floating : ShortcutManager.World unit :=
  ShortcutManager.mkWorld
    (ShortcutManager.mkEnv
       (Kwin.mkHost (Kwin.tileStore Examples.host) (Kwin.nextTile Examples.host)
          (Kwin.windowStore Examples.host) (Some 11) (Kwin.output Examples.host)
          (Kwin.share Examples.host))
       (<[10 := Examples.extensions]> (<[11 := Examples.extensions]> ∅)) tt)
    collaborators 50 [] [].

(** A host that finds no tile at any position. *)
Definition lost : ShortcutManager.Collaborators unit :=
  ShortcutManager.mkCollaborators
    (λ _, idle) (λ _, idle) (λ _, idle) (λ _ _ _, idle) (λ _ _ _, idle)
    (λ _ _, 0)
    (λ _ _ _ _, None)
    (λ _ _, 0)
    (λ _ _, [])
    (λ _ _, Geometry.Right).

(** A live root (tile 0) with one child (tile 1), which has two (tiles
    2 and 3); window 10 is active and in tile 2. *)
Definition nested : Kwin.Host :=
  Kwin.mkHost
    (<[0 := Examples.liveTile [1]]>
       (<[1 := Examples.liveTile [2; 3]]>
          (<[2 := Examples.liveTile []]> (<[3 := Examples.liveTile []]> ∅))))
    4
    (<[10 := Examples.liveWindow (Some 2)]> ∅)
    (Some 10)
    Examples.screenRect
    Examples.halves.

Definition chain : ShortcutManager.World unit :=
  ShortcutManager.mkWorld
    (ShortcutManager.mkEnv nested (<[10 := Examples.extensions]> ∅) tt)
    lost 50 [] [].

End ShortcutExamples.

(** ** Three windows side by side *)

Module Scenarios.

(** A live root (tile 0) without children and three windows in no
    tile. *)
Definition host : Kwin.Host :=
  Kwin.mkHost
    (<[0 := Examples.liveTile []]> ∅)
    1
    (<[10 := Examples.liveWindow None]>
       (<[11 := Examples.liveWindow None]> (<[12 := Examples.liveWindow None]> ∅)))
    None
    Examples.screenRect
    Examples.halves.

(** Three tracked windows (10, 11 and 12, as clients 0, 1 and 2) in three
    abstract leaves (1, 2 and 3) under a vertical root (0). *)
Definition threeWindows : World unit :=
  mkWorld
    (Engine.mkEngine
       (Engine.mkData tt 0 [] (Engine.mkConfig Engine.DefaultPlacement false) 0)
       Examples.idleMethods)
    0
    BiMap.empty
    (BiMap.set (BiMap.set (BiMap.set BiMap.empty 10 0) 11 1) 12 2)
    []
    (Engine.mkHeap
       (<[0 := Examples.abstractTile None [1; 2; 3] 2 None]>
          (<[1 := Examples.abstractTile (Some 0) [] 0 (Some 0)]>
             (<[2 := Examples.abstractTile (Some 0) [] 0 (Some 1)]>
                (<[3 := Examples.abstractTile (Some 0) [] 0 (Some 2)]> ∅))))
       4)
    host
    ∅
    (<[10 := Examples.extensions]>
       (<[11 := Examples.extensions]> (<[12 := Examples.extensions]> ∅)))
    false
    3
    []
    [].

End Scenarios.

(** * Properties *)

(** ** Doubles of integers

    The double of an integer below [2 ^ 53] in magnitude is that integer,
    and sums and differences of such doubles do not round where the
    result stays below [2 ^ 53]. *)

Section DoublesOfIntegers.
Local Open Scope Z_scope.






















End DoublesOfIntegers.

(** ** The directional resolver *)

Section ProbePoint.
Import Shortcuts.
Local Open Scope Q_scope.

Lemma pointInDirection_untiled (window : Window) (direction : Direction) :
  tile window = None → pointInDirection window direction = None.
Proof.
  intros Hnone.
  destruct direction; cbn;
    unfold pointAbove, pointBelow, pointLeft, pointRight; now rewrite Hnone.
Qed.









End ProbePoint.

(** ** Insertion-ordered maps *)

Section JsMapFacts.
Context {K V : Type} `{EqDecision K}.
Implicit Types (m : list (K * V)) (k : K) (v : V).

Lemma JsMap_get_set m k v k' :
  JsMap.get (JsMap.set m k v) k' = if decide (k = k') then Some v else JsMap.get m k'.
Proof.
  induction m as [|[k0 v0] m IH]; cbn.
  - destruct (decide (k = k')); reflexivity.
  - destruct (decide (k0 = k)) as [->|Hne]; cbn.
    + destruct (decide (k = k')); reflexivity.
    + destruct (decide (k0 = k')) as [->|Hne'].
      * destruct (decide (k = k')); [congruence|reflexivity].
      * exact IH.
Qed.

Lemma JsMap_get_delete m k k' :
  JsMap.get (JsMap.delete m k) k' = if decide (k = k') then None else JsMap.get m k'.
Proof.
  induction m as [|[k0 v0] m IH]; cbn.
  - destruct (decide (k = k')); reflexivity.
  - destruct (decide (k0 = k)) as [->|Hne]; cbn.
    + rewrite IH. destruct (decide (k = k')); reflexivity.
    + destruct (decide (k0 = k')) as [->|Hne'].
      * destruct (decide (k = k')); [congruence|reflexivity].
      * exact IH.
Qed.

Lemma JsMap_has_get m k : JsMap.has m k = true ↔ is_Some (JsMap.get m k).
Proof.
  unfold JsMap.has. destruct (JsMap.get m k); split; intros H; try done.
Qed.

Lemma JsMap_set_fresh m k v :
  JsMap.get m k = None → JsMap.set m k v = m ++ [(k, v)].
Proof.
  induction m as [|[k0 v0] m IH]; cbn; [done|].
  destruct (decide (k0 = k)); [done|]. intros H. now rewrite IH.
Qed.

Lemma JsMap_delete_absent m k :
  JsMap.get m k = None → JsMap.delete m k = m.
Proof.
  induction m as [|[k0 v0] m IH]; cbn; [done|].
  destruct (decide (k0 = k)); [done|]. intros H. now rewrite IH.
Qed.

Lemma JsMap_delete_app m m' k :
  JsMap.delete (m ++ m') k = JsMap.delete m k ++ JsMap.delete m' k.
Proof.
  induction m as [|[k0 v0] m IH]; cbn; [done|].
  destruct (decide (k0 = k)); cbn; now rewrite IH.
Qed.

End JsMapFacts.

(** ** The bijective map *)

Section BiMapFacts.
Context {K V : Type} `{EqDecision K} `{EqDecision V}.
Implicit Types (m : BiMap.t K V) (k : K) (v : V).

Lemma BiMap_empty_consistent : BiMap.consistent (BiMap.empty : BiMap.t K V).
Proof. intros k v. cbn. split; discriminate. Qed.

Lemma BiMap_consistent_one_to_one m : BiMap.consistent m → BiMap.one_to_one m.
Proof.
  intros Hc. split.
  - intros k1 k2 v H1 H2. apply Hc in H1, H2. congruence.
  - intros v1 v2 k H1 H2. apply Hc in H1, H2. congruence.
Qed.

Lemma BiMap_set_consistent m k v :
  BiMap.consistent m → BiMap.consistent (BiMap.set m k v).
Proof.
  intros Hc. unfold BiMap.set.
  destruct (JsMap.get (BiMap.forward m) k) as [cv|] eqn:Hk.
  - destruct (decide (cv = v)) as [->|Hcv]; [exact Hc|].
    rewrite JsMap_get_delete. destruct (decide (cv = v)); [done|].
    destruct (JsMap.get (BiMap.inverse m) v) as [ck|] eqn:Hv.
    + destruct (decide (ck = k)) as [->|Hck].
      { apply Hc in Hv. unfold BiMap.get in Hv. congruence. }
      intros k' v'. unfold BiMap.get, BiMap.inverse_get; cbn.
      rewrite !JsMap_get_set, !JsMap_get_delete.
      specialize (Hc k' v') as Hc'. unfold BiMap.get, BiMap.inverse_get in Hc'.
      pose proof (Hc k cv) as Hc1. pose proof (Hc ck v) as Hc2.
      unfold BiMap.get, BiMap.inverse_get in Hc1, Hc2.
      repeat case_decide; subst; intuition congruence.
    + intros k' v'. unfold BiMap.get, BiMap.inverse_get; cbn.
      rewrite !JsMap_get_set, !JsMap_get_delete.
      specialize (Hc k' v') as Hc'. unfold BiMap.get, BiMap.inverse_get in Hc'.
      pose proof (Hc k cv) as Hc1. pose proof (Hc k' v) as Hc2.
      unfold BiMap.get, BiMap.inverse_get in Hc1, Hc2.
      repeat case_decide; subst; intuition congruence.
  - destruct (JsMap.get (BiMap.inverse m) v) as [ck|] eqn:Hv.
    + destruct (decide (ck = k)) as [->|Hck].
      { apply Hc in Hv. unfold BiMap.get in Hv. congruence. }
      intros k' v'. unfold BiMap.get, BiMap.inverse_get; cbn.
      rewrite !JsMap_get_set, !JsMap_get_delete.
      specialize (Hc k' v') as Hc'. unfold BiMap.get, BiMap.inverse_get in Hc'.
      pose proof (Hc k v') as Hc1. pose proof (Hc ck v) as Hc2.
      unfold BiMap.get, BiMap.inverse_get in Hc1, Hc2.
      repeat case_decide; subst; intuition congruence.
    + intros k' v'. unfold BiMap.get, BiMap.inverse_get; cbn.
      rewrite !JsMap_get_set.
      specialize (Hc k' v') as Hc'. unfold BiMap.get, BiMap.inverse_get in Hc'.
      pose proof (Hc k v') as Hc1. pose proof (Hc k' v) as Hc2.
      unfold BiMap.get, BiMap.inverse_get in Hc1, Hc2.
      repeat case_decide; subst; intuition congruence.
Qed.

Lemma BiMap_delete_consistent m k :
  BiMap.consistent m → BiMap.consistent (BiMap.delete m k).
Proof.
  intros Hc. unfold BiMap.delete.
  destruct (JsMap.get (BiMap.forward m) k) as [cv|] eqn:Hk; [|exact Hc].
  intros k' v'. unfold BiMap.get, BiMap.inverse_get; cbn.
  rewrite !JsMap_get_delete.
  specialize (Hc k' v') as Hc'. unfold BiMap.get, BiMap.inverse_get in Hc'.
  pose proof (Hc k cv) as Hc1. pose proof (Hc k v') as Hc2. pose proof (Hc k' cv) as Hc3.
  unfold BiMap.get, BiMap.inverse_get in Hc1, Hc2, Hc3.
  repeat case_decide; subst; intuition congruence.
Qed.

Lemma BiMap_inverse_delete_consistent m v :
  BiMap.consistent m → BiMap.consistent (BiMap.inverse_delete m v).
Proof.
  intros Hc. unfold BiMap.inverse_delete.
  destruct (JsMap.get (BiMap.inverse m) v) as [ck|] eqn:Hv; [|exact Hc].
  intros k' v'. unfold BiMap.get, BiMap.inverse_get; cbn.
  rewrite !JsMap_get_delete.
  specialize (Hc k' v') as Hc'. unfold BiMap.get, BiMap.inverse_get in Hc'.
  pose proof (Hc ck v) as Hc1. pose proof (Hc ck v') as Hc2. pose proof (Hc k' v) as Hc3.
  unfold BiMap.get, BiMap.inverse_get in Hc1, Hc2, Hc3.
  repeat case_decide; subst; intuition congruence.
Qed.

End BiMapFacts.

Section BiMapLookups.
Context {K V : Type} `{EqDecision K} `{EqDecision V}.
Implicit Types (m : BiMap.t K V) (k : K) (v : V).

Lemma BiMap_has_get m k : BiMap.has m k = true ↔ is_Some (BiMap.get m k).
Proof. apply JsMap_has_get. Qed.

Lemma BiMap_has_false m k : BiMap.has m k = false ↔ BiMap.get m k = None.
Proof.
  unfold BiMap.has, BiMap.get, JsMap.has. destruct (JsMap.get _ k); split; done.
Qed.

Lemma BiMap_get_set_same m k v :
  BiMap.consistent m → BiMap.get (BiMap.set m k v) k = Some v.
Proof.
  intros Hc. unfold BiMap.set.
  destruct (JsMap.get (BiMap.forward m) k) as [cv|] eqn:Hk.
  - destruct (decide (cv = v)) as [->|Hcv]; [exact Hk|].
    rewrite JsMap_get_delete. destruct (decide (cv = v)); [done|].
    destruct (JsMap.get (BiMap.inverse m) v) as [ck|] eqn:Hv.
    + destruct (decide (ck = k)) as [->|Hck].
      { apply Hc in Hv. unfold BiMap.get in Hv. congruence. }
      unfold BiMap.get; cbn. rewrite JsMap_get_set. now destruct (decide (k = k)).
    + unfold BiMap.get; cbn. rewrite JsMap_get_set. now destruct (decide (k = k)).
  - destruct (JsMap.get (BiMap.inverse m) v) as [ck|] eqn:Hv.
    + destruct (decide (ck = k)) as [->|Hck].
      { apply Hc in Hv. unfold BiMap.get in Hv. congruence. }
      unfold BiMap.get; cbn. rewrite JsMap_get_set. now destruct (decide (k = k)).
    + unfold BiMap.get; cbn. rewrite JsMap_get_set. now destruct (decide (k = k)).
Qed.

(** A new key with a new value goes to the end of both directions. *)
Lemma BiMap_set_fresh m k v :
  BiMap.get m k = None → BiMap.inverse_get m v = None →
  BiMap.set m k v = BiMap.mk (BiMap.forward m ++ [(k, v)]) (BiMap.inverse m ++ [(v, k)]).
Proof.
  unfold BiMap.get, BiMap.inverse_get, BiMap.set. intros Hk Hv.
  rewrite Hk, Hv. now rewrite !JsMap_set_fresh.
Qed.

Lemma BiMap_delete_set_fresh m k v :
  BiMap.get m k = None → BiMap.inverse_get m v = None →
  BiMap.delete (BiMap.set m k v) k = m.
Proof.
  intros Hk Hv. rewrite BiMap_set_fresh by assumption.
  unfold BiMap.get, BiMap.inverse_get in *.
  unfold BiMap.delete; cbn.
  assert (Hg : JsMap.get (BiMap.forward m ++ [(k, v)]) k = Some v).
  { rewrite <- JsMap_set_fresh by assumption. rewrite JsMap_get_set.
    now destruct (decide (k = k)). }
  rewrite Hg, !JsMap_delete_app, !JsMap_delete_absent by assumption. cbn.
  destruct (decide (k = k)); [|done]. destruct (decide (v = v)); [|done].
  rewrite !app_nil_r, (JsMap_delete_absent (BiMap.inverse m)) by assumption.
  now destruct m.
Qed.

End BiMapLookups.

Section BiMapInverse.
Context {K V : Type} `{EqDecision K} `{EqDecision V}.
Implicit Types (m : BiMap.t K V) (k : K) (v : V).

(** Lookups after [set] on a consistent map whose new key and value are
    both unused. *)
Lemma BiMap_get_set_fresh m k v k' :
  BiMap.get m k = None → BiMap.inverse_get m v = None →
  BiMap.get (BiMap.set m k v) k' = if decide (k = k') then Some v else BiMap.get m k'.
Proof.
  intros Hk Hv. rewrite BiMap_set_fresh by assumption.
  unfold BiMap.get in *; cbn. rewrite <- JsMap_set_fresh by assumption.
  apply JsMap_get_set.
Qed.

Lemma BiMap_inverse_get_set_fresh m k v v' :
  BiMap.get m k = None → BiMap.inverse_get m v = None →
  BiMap.inverse_get (BiMap.set m k v) v'
  = if decide (v = v') then Some k else BiMap.inverse_get m v'.
Proof.
  intros Hk Hv. rewrite BiMap_set_fresh by assumption.
  unfold BiMap.inverse_get in *; cbn. rewrite <- JsMap_set_fresh by assumption.
  apply JsMap_get_set.
Qed.

End BiMapInverse.

Section BiMapInverseDelete.
Context {K V : Type} `{EqDecision K} `{EqDecision V}.
Implicit Types (m : BiMap.t K V) (k : K) (v : V).

Lemma BiMap_get_inverse_delete m v k :
  BiMap.get (BiMap.inverse_delete m v) k
  = match BiMap.inverse_get m v with
    | Some ck => if decide (ck = k) then None else BiMap.get m k
    | None => BiMap.get m k
    end.
Proof.
  unfold BiMap.inverse_delete, BiMap.inverse_get, BiMap.get.
  destruct (JsMap.get (BiMap.inverse m) v) as [ck|]; [|done].
  cbn. apply JsMap_get_delete.
Qed.

Lemma BiMap_inverse_get_inverse_delete m v v' :
  BiMap.inverse_get (BiMap.inverse_delete m v) v'
  = match BiMap.inverse_get m v with
    | Some _ => if decide (v = v') then None else BiMap.inverse_get m v'
    | None => BiMap.inverse_get m v'
    end.
Proof.
  unfold BiMap.inverse_delete, BiMap.inverse_get.
  destruct (JsMap.get (BiMap.inverse m) v) as [ck|]; [|done].
  cbn. apply JsMap_get_delete.
Qed.

End BiMapInverseDelete.


(** ** Running the steps of a method *)

Section Run.
Context {P : Type}.
Implicit Types (w : World P).

Lemma run_bind {A B} (m : M P A) (f : A → M P B) w a w' :
  m w = (Normal a, w') → (m ≫= f) w = f a w'.
Proof. intros H. unfold mbind, M_bind, bind. now rewrite H. Qed.

Lemma run_liveTile w t kt :
  Kwin.tileStore (host w) !! t = Some kt → liveTile t w = (Normal kt, w).
Proof. intros H. unfold liveTile, mbind, M_bind, bind, gets. now rewrite H. Qed.

Lemma run_updLiveTile w t kt f :
  Kwin.tileStore (host w) !! t = Some kt →
  updLiveTile t f w = (Normal tt, upd_host (Kwin.with_tileStore (<[t := f kt]>)) w).
Proof.
  intros H. unfold updLiveTile. now rewrite (run_bind _ _ _ _ _ (run_liveTile _ _ _ H)).
Qed.

Lemma run_liveWindow w x kw :
  Kwin.windowStore (host w) !! x = Some kw → liveWindow x w = (Normal kw, w).
Proof. intros H. unfold liveWindow, mbind, M_bind, bind, gets. now rewrite H. Qed.

Lemma run_updWindow w x kw f :
  Kwin.windowStore (host w) !! x = Some kw →
  updWindow x f w = (Normal tt, upd_host (Kwin.with_windowStore (<[x := f kw]>)) w).
Proof.
  intros H. unfold updWindow. now rewrite (run_bind _ _ _ _ _ (run_liveWindow _ _ _ H)).
Qed.

Lemma run_abstractTile w t tl :
  Engine.tileStore (heap w) !! t = Some tl → abstractTile t w = (Normal tl, w).
Proof. intros H. unfold abstractTile, mbind, M_bind, bind, gets. now rewrite H. Qed.

End Run.

(** ** What every step of a method preserves *)

Section Preservation.
Context {P : Type}.
Implicit Types (w : World P) (I : World P → Prop).

Lemma preserves_ret I {A} (a : A) : preserves I (ret a).
Proof. intros w H. exact H. Qed.

Lemma preserves_bind I {A B} (m : M P A) (f : A → M P B) :
  preserves I m → (∀ a, preserves I (f a)) → preserves I (m ≫= f).
Proof.
  intros Hm Hf w H. specialize (Hm w H).
  unfold mbind, M_bind, bind. destruct (m w) as [[a| |e|] w']; cbn in *; try exact Hm.
  now apply Hf.
Qed.

Lemma preserves_throw I {A} e : preserves I (throw (A:=A) e).
Proof. intros w H. exact H. Qed.

Lemma preserves_earlyReturn I {A} : preserves I (earlyReturn (A:=A)).
Proof. intros w H. exact H. Qed.

Lemma preserves_outOfFuel I {A} : preserves I (outOfFuel (A:=A)).
Proof. intros w H. exact H. Qed.

Lemma preserves_gets I {A} (f : World P → A) : preserves I (gets f).
Proof. intros w H. exact H. Qed.

Lemma preserves_defined I {A} (o : option A) : preserves I (defined o).
Proof. destruct o; [apply preserves_ret|apply preserves_throw]. Qed.

Lemma preserves_modify I (f : World P → World P) :
  (∀ w, I w → I (f w)) → preserves I (modify f).
Proof. intros Hf w H. now apply Hf. Qed.

Lemma preserves_tryCatch I body handler :
  preserves I body → (∀ e, preserves I (handler e)) → preserves I (tryCatch body handler).
Proof.
  intros Hb Hh w H. specialize (Hb w H).
  unfold tryCatch. destruct (body w) as [[a| |e|] w']; cbn in *; try exact Hb.
  now apply Hh.
Qed.

Lemma preserves_method I body : preserves I body → preserves I (method body).
Proof.
  intros Hb w H. specialize (Hb w H).
  unfold method. destruct (body w) as [[a| |e|] w']; cbn in *; exact Hb.
Qed.

Lemma preserves_forEach I {A} (l : list A) body :
  (∀ a, preserves I (body a)) → preserves I (forEach l body).
Proof.
  intros Hb. induction l as [|a l IH]; cbn.
  - apply preserves_ret.
  - apply preserves_bind; [apply Hb|intros _; exact IH].
Qed.

Lemma preserves_callEngine I c m :
  (∀ w d h, I w →
     I (upd_calls (λ l, l ++ [c])
          (upd_heap (λ _, h)
             (upd_engine (λ e, Engine.mkEngine d (Engine.methods e)) w)))) →
  preserves I (callEngine c m).
Proof.
  intros HI w H. unfold callEngine.
  destruct (m _ _ _) as [[d h] [e|]]; cbn; now apply HI.
Qed.

Lemma preserves_callRemove I child arr :
  (∀ w h, I w → I (upd_calls (λ l, l ++ [CallTileRemove child]) (upd_heap (λ _, h) w))) →
  preserves I (callRemove child arr).
Proof.
  intros HI w H. unfold callRemove.
  destruct (Engine.remove _ _ _ _) as [[h arr'] [e|]]; cbn; now apply HI.
Qed.

Lemma preserves_newClient I window :
  (∀ w, I w → I (upd_nextClient S w)) → preserves I (newClient window).
Proof. intros HI w H. now apply HI. Qed.

End Preservation.

(** One step of a preservation proof: follow the structure of the body;
    [tac] shows that a single update keeps the invariant. *)
Ltac pres_step tac :=
  lazymatch goal with
  | |- preserves _ (_ ≫= _) => apply preserves_bind; [|intros ?]
  | |- preserves _ (ret _) => apply preserves_ret
  | |- preserves _ (throw _) => apply preserves_throw
  | |- preserves _ earlyReturn => apply preserves_earlyReturn
  | |- preserves _ outOfFuel => apply preserves_outOfFuel
  | |- preserves _ (gets _) => apply preserves_gets
  | |- preserves _ (defined _) => apply preserves_defined
  | |- preserves _ (tryCatch _ _) => apply preserves_tryCatch; [|intros ?]
  | |- preserves _ (method _) => apply preserves_method
  | |- preserves _ (forEach _ _) => apply preserves_forEach; intros ?
  | |- preserves _ (callEngine _ _) => apply preserves_callEngine; intros ? ? ? ?; tac
  | |- preserves _ (callRemove _ _) => apply preserves_callRemove; intros ? ? ?; tac
  | |- preserves _ (newClient _) => apply preserves_newClient; intros ? ?; tac
  | |- preserves _ (modify _) => apply preserves_modify; intros ? ?; tac
  | |- preserves _ (logError _) => unfold logError
  | |- preserves _ (logDebug _) => unfold logDebug
  | |- preserves _ engineData => unfold engineData
  | |- preserves _ (liveTile _) => unfold liveTile
  | |- preserves _ (updLiveTile _ _) => unfold updLiveTile
  | |- preserves _ (liveWindow _) => unfold liveWindow
  | |- preserves _ (updWindow _ _) => unfold updWindow
  | |- preserves _ (abstractTile _) => unfold abstractTile
  | |- preserves _ (heapOp _) => unfold heapOp
  | |- preserves _ (loggedGeometry _) => unfold loggedGeometry
  | |- preserves _ (fixSizing _ _) => unfold fixSizing
  | |- preserves _ (rotatedDirection _ _) => unfold rotatedDirection
  | |- preserves _ (match ?x with _ => _ end) => destruct x
  end.

Ltac pres tac := repeat pres_step tac.


(** ** The identity maps stay one-to-one *)

Section MapsConsistent.
Context {P : Type}.
Implicit Types (w : World P).

Lemma mapsConsistent_frame w w' :
  tiles w' = tiles w → clients w' = clients w →
  mapsConsistent w → mapsConsistent w'.
Proof. unfold mapsConsistent. intros -> ->. done. Qed.

Lemma mapsConsistent_one_to_one w : mapsConsistent w → mapsOneToOne w.
Proof. intros [Ht Hc]. split; now apply BiMap_consistent_one_to_one. Qed.

Lemma mapsConsistent_upd_tiles f w :
  (∀ m, BiMap.consistent m → BiMap.consistent (f m)) →
  mapsConsistent w → mapsConsistent (upd_tiles f w).
Proof. intros Hf [Ht Hc]. split; cbn; auto. Qed.

Lemma mapsConsistent_upd_clients f w :
  (∀ m, BiMap.consistent m → BiMap.consistent (f m)) →
  mapsConsistent w → mapsConsistent (upd_clients f w).
Proof. intros Hf [Ht Hc]. split; cbn; auto. Qed.

End MapsConsistent.

(** A single update keeps the two maps consistent. *)
Ltac maps_update :=
  first
    [ assumption
    | apply mapsConsistent_upd_tiles; [intros ? ?|assumption]
    | apply mapsConsistent_upd_clients; [intros ? ?|assumption] ];
  try first
    [ apply BiMap_set_consistent; assumption
    | apply BiMap_delete_consistent; assumption
    | apply BiMap_inverse_delete_consistent; assumption
    | apply BiMap_empty_consistent ].

Ltac pres_maps := pres maps_update.

Section MapsPreserved.
Context {P : Type}.
Implicit Types (w : World P).

Lemma preserves_switchEngine e ty : preserves (P:=P) mapsConsistent (switchEngine e ty).
Proof. unfold switchEngine. pres_maps. Qed.

Lemma preserves_clearRoot fuel rootTile :
  preserves (P:=P) mapsConsistent (clearRoot fuel rootTile).
Proof.
  induction fuel as [|fuel IH]; cbn; pres_maps. exact IH.
Qed.

Lemma preserves_findRealRoot fuel t :
  preserves (P:=P) mapsConsistent (findRealRoot fuel t).
Proof.
  revert t. induction fuel as [|fuel IH]; intros t; cbn; pres_maps; apply IH.
Qed.

Lemma preserves_splitLoop kwinTile direction horizontal tilesLen i children queue :
  preserves (P:=P) mapsConsistent
    (splitLoop kwinTile direction horizontal tilesLen i children queue).
Proof.
  revert i queue. induction children as [|child children IH]; intros i queue; cbn;
    pres_maps; apply IH.
Qed.

Lemma preserves_placeOccupant kwinTile occupant :
  preserves (P:=P) mapsConsistent (placeOccupant kwinTile occupant).
Proof. unfold placeOccupant. pres_maps. Qed.

Lemma preserves_buildLoop fuel queue :
  preserves (P:=P) mapsConsistent (buildLoop fuel queue).
Proof.
  revert queue. induction fuel as [|fuel IH]; intros queue; cbn; [pres_maps|].
  destruct queue as [|tile queue]; pres_maps;
    first [apply preserves_splitLoop | apply preserves_placeOccupant | apply IH].
Qed.

Lemma preserves_prepareLayout fuel rootTile :
  preserves (P:=P) mapsConsistent (prepareLayout fuel rootTile).
Proof.
  unfold prepareLayout. pres_maps;
    first [apply preserves_clearRoot | apply preserves_findRealRoot].
Qed.

Lemma preserves_buildLayout fuel rootTile :
  preserves (P:=P) mapsConsistent (buildLayout fuel rootTile).
Proof.
  unfold buildLayout. pres_maps;
    first [apply preserves_prepareLayout | apply preserves_buildLoop].
Qed.

Lemma preserves_activeChecks client :
  preserves (P:=P) mapsConsistent (activeChecks client).
Proof. unfold activeChecks. pres_maps. Qed.

Lemma preserves_addWindow window :
  preserves (P:=P) mapsConsistent (addWindow window).
Proof. unfold addWindow. pres_maps. apply preserves_activeChecks. Qed.

Lemma preserves_removeWindow window :
  preserves (P:=P) mapsConsistent (removeWindow window).
Proof. unfold removeWindow. pres_maps. Qed.

Lemma preserves_putWindowInTile window kwinTile direction :
  preserves (P:=P) mapsConsistent (putWindowInTile window kwinTile direction).
Proof. unfold putWindowInTile. pres_maps. Qed.

Lemma preserves_destroyLoop fuel arr i :
  preserves (P:=P) mapsConsistent (destroyLoop fuel arr i).
Proof.
  revert arr i. induction fuel as [|fuel IH]; intros arr i; cbn; pres_maps; apply IH.
Qed.

Lemma preserves_createLoop tile children :
  preserves (P:=P) mapsConsistent (createLoop tile children).
Proof. unfold createLoop. pres_maps. Qed.

Lemma preserves_regenerateTile fuel kwinTile tile :
  preserves (P:=P) mapsConsistent (regenerateTile fuel kwinTile tile).
Proof.
  unfold regenerateTile. pres_maps;
    first [apply preserves_destroyLoop | apply preserves_createLoop].
Qed.

Lemma preserves_regenerateLoop fuel queue :
  preserves (P:=P) mapsConsistent (regenerateLoop fuel queue).
Proof.
  revert queue. induction fuel as [|fuel IH]; intros queue; cbn; [pres_maps|].
  destruct queue as [|kwinTile queue]; pres_maps;
    first [apply preserves_regenerateTile | apply IH].
Qed.

Lemma preserves_regenerateLayout fuel rootTile :
  preserves (P:=P) mapsConsistent (regenerateLayout fuel rootTile).
Proof. unfold regenerateLayout. pres_maps. apply preserves_regenerateLoop. Qed.

(** C8. From a driver that starts with empty maps, whatever public
    operations are run ([addWindow], [removeWindow], [putWindowInTile],
    [buildLayout], [regenerateLayout], [switchEngine]; with any arguments,
    any fuel, and however each of them ends) and whatever happens to the
    collaborators in between, both identity maps are one-to-one in both
    directions: no two live objects share an abstract object and no two
    abstract objects share a live object. The single-child collapse of
    [buildLayout] is one of the steps covered ([BiMap.set] on a live tile
    that is already a key). *)
Theorem identity_maps_one_to_one w : reachable w → mapsOneToOne w.
Proof.
  intros Hr. apply mapsConsistent_one_to_one.
  induction Hr as [w Ht Hc|w w' _ IH Ht Hc|w window _ IH|w window _ IH
                  |w window kwinTile direction _ IH|w fuel rootTile _ IH
                  |w fuel rootTile _ IH|w e ty _ IH].
  - split; [rewrite Ht|rewrite Hc]; apply BiMap_empty_consistent.
  - now apply (mapsConsistent_frame w w').
  - now apply preserves_addWindow.
  - now apply preserves_removeWindow.
  - now apply preserves_putWindowInTile.
  - now apply preserves_buildLayout.
  - now apply preserves_regenerateLayout.
  - now apply preserves_switchEngine.
Qed.

End MapsPreserved.

(** ** Placing a window in a tile *)

Section Placement.
Context {P : Type}.
Implicit Types (w : World P).

(** C5. [putWindowInTile] on a live tile that is not in the tile-map logs
    one error and returns; nothing else changes: the client-map, the
    tile-map, the untracked list, the abstract tiles, the live tiles and
    windows (and the engine, which is not called) are as before. *)
Theorem putWindowInTile_unregistered w window kwinTile direction :
  BiMap.get (tiles w) (Some kwinTile) = None →
  ∃ geometry,
    putWindowInTile window kwinTile direction w
    = (Normal tt, upd_log (λ l, l ++ [ErrorTileNotRegistered geometry]) w)
    ∧ clients (putWindowInTile window kwinTile direction w).2 = clients w
    ∧ tiles (putWindowInTile window kwinTile direction w).2 = tiles w
    ∧ untiledWindows (putWindowInTile window kwinTile direction w).2 = untiledWindows w
    ∧ heap (putWindowInTile window kwinTile direction w).2 = heap w
    ∧ host (putWindowInTile window kwinTile direction w).2 = host w
    ∧ engine (putWindowInTile window kwinTile direction w).2 = engine w
    ∧ calls (putWindowInTile window kwinTile direction w).2 = calls w.
Proof.
  intros Hnone.
  exists (Kwin.absoluteGeometry (host w) <$> Kwin.tileStore (host w) !! kwinTile).
  unfold putWindowInTile, method, mbind, M_bind, bind, gets. rewrite Hnone. cbn.
  repeat split.
Qed.

Lemma rotateCw_moves d : Geometry.rotateCw d ≠ d.
Proof. destruct d; discriminate. Qed.

Lemma hasCapability_spec capability flag :
  hasCapability capability flag = true ↔ Z.land capability flag = flag.
Proof. unfold hasCapability. apply Z.eqb_eq. Qed.

Ltac run_placement :=
  unfold tryCatch, engineData, rotatedDirection, mbind, M_bind, bind, gets,
    logDebug, logError, modify, ret, callEngine; cbn;
  repeat match goal with
         | H : Engine.rotateLayout _ = _ |- _ => rewrite H
         | H : hasCapability _ _ = _ |- _ => rewrite H
         end; cbn;
  repeat match goal with
         | |- context [Engine.putClientInTile ?m ?c ?t ?d ?e ?h] =>
             destruct (Engine.putClientInTile m c t d e h) as [[? ?] [?|]]; cbn
         | |- context [Engine.buildLayout ?m ?e ?h] =>
             destruct (Engine.buildLayout m e h) as [[? ?] [?|]]; cbn
         end;
  eexists; rewrite <- ?app_assoc; reflexivity.

Ltac split_rest :=
  match goal with
  | |- ex (λ rest, @?A rest ∧ ?B) =>
      enough (ex A) as [rest Hrest]; [exists rest; split; [exact Hrest|]|]
  end.

(** C6. When [putWindowInTile] is given a direction (and the live tile is
    registered), the direction in the engine's placement call is the
    given one rotated clockwise by 90 degrees if and only if rotation is
    enabled in the engine's configuration and the capability bitset
    includes the rotation-translation flag; otherwise it is the given
    direction itself. *)
Theorem putWindowInTile_direction w window kwinTile tile d :
  BiMap.consistent (clients w) →
  BiMap.get (tiles w) (Some kwinTile) = Some tile →
  let e := Engine.data (engine w) in
  let rotates := Engine.rotateLayout (Engine.config e) = true
                 ∧ Z.land (Engine.engineCapability e) Engine.TranslateRotation
                   = Engine.TranslateRotation in
  ∃ client passed rest,
    calls (putWindowInTile window kwinTile (Some d) w).2
    = calls w ++ CallPutClientInTile client tile (Some passed) :: rest
    ∧ (passed = Geometry.rotateCw d ↔ rotates)
    ∧ (¬ rotates → passed = d).
Proof.
  intros Hc Htile e rotates.
  assert (Hclient : ∃ w1 client,
            BiMap.get (clients w1) window = Some client ∧ calls w1 = calls w
            ∧ engine w1 = engine w ∧
            ((if BiMap.has (clients w) window then ret tt
              else newClient window ≫= λ client,
                     modify (upd_clients (λ m, BiMap.set m window client))) w
             = (Normal tt, w1))).
  { destruct (BiMap.has (clients w) window) eqn:Hhas.
    - apply BiMap_has_get in Hhas as [client Hclient]. now exists w, client.
    - eexists _, (nextClient w). split; [|split; [|split; [|reflexivity]]]; cbn; [|done..].
      now apply BiMap_get_set_same. }
  destruct Hclient as (w1 & client & Hget & Hcalls & Hengine & Hrun).
  unfold putWindowInTile, method. unfold mbind at 1, M_bind at 1, bind at 1, gets at 1.
  rewrite Htile. unfold mbind at 1, M_bind at 1, bind at 1, gets at 1.
  unfold mbind at 1, M_bind at 1, bind at 1. rewrite Hrun.
  unfold mbind at 1, M_bind at 1, bind at 1, gets at 1. rewrite Hget.
  unfold mbind at 1, M_bind at 1, bind at 1, defined, ret at 1.
  rewrite <- Hcalls. subst e rotates. rewrite <- Hengine. clear.
  destruct (Engine.rotateLayout (Engine.config (Engine.data (engine w1)))) eqn:Hrot;
    [destruct (hasCapability (Engine.engineCapability (Engine.data (engine w1)))
                 Engine.TranslateRotation) eqn:Hcap|].
  - exists client, (Geometry.rotateCw d).
    apply hasCapability_spec in Hcap as Hcap'. split_rest; [tauto|run_placement].
  - exists client, d. split_rest; [|run_placement].
    split; [|done]. split; [intros H; symmetry in H; now apply rotateCw_moves in H|].
    intros [_ H]. apply hasCapability_spec in H. congruence.
  - exists client, d. split_rest; [|run_placement].
    split; [|done]. split; [intros H; symmetry in H; now apply rotateCw_moves in H|].
    intros [H _]. discriminate.
Qed.


End Placement.

(** ** Adding and removing a window *)

Section AddRemove.
Context {P : Type}.
Implicit Types (w : World P).

(** The tail of [addWindow], after the client is registered. *)
Lemma addWindow_untracked w window :
  BiMap.get (clients w) window = None →
  addWindow window w
  = method
      (activeChecks (nextClient w) ≫= λ failedActive : bool,
         tryCatch
           ((if failedActive
             then callEngine (CallAddClient (nextClient w))
                    (λ m, Engine.addClient m (nextClient w))
             else ret tt);;
            callEngine CallBuildLayout Engine.buildLayout)
           (λ e, logError (ErrorExn e)))
      (upd_clients (λ m, BiMap.set m window (nextClient w)) (upd_nextClient S w)).
Proof.
  intros Hnone. apply BiMap_has_false in Hnone.
  unfold addWindow, method. unfold mbind at 1, M_bind at 1, bind at 1, gets at 1.
  rewrite Hnone. reflexivity.
Qed.

Lemma removeWindow_tracked w window client :
  BiMap.get (clients w) window = Some client →
  removeWindow window w
  = method
      (tryCatch
         (callEngine (CallRemoveClient client) (λ m, Engine.removeClient m client);;
          callEngine CallBuildLayout Engine.buildLayout)
         (λ e, logError (ErrorExn e)))
      (upd_untiledWindows (λ l, l ++ [window])
         (upd_clients (λ m, BiMap.delete m window) w)).
Proof.
  intros Hsome.
  unfold removeWindow, method. unfold mbind at 1, M_bind at 1, bind at 1, gets at 1.
  rewrite Hsome. reflexivity.
Qed.

Lemma preserves_driverFields_activeChecks x client :
  preserves (P:=P) (λ w, driverFields w = x) (activeChecks client).
Proof. unfold activeChecks. pres assumption. Qed.

Lemma addWindow_driverFields w window :
  BiMap.get (clients w) window = None →
  driverFields (addWindow window w).2
  = driverFields (upd_clients (λ m, BiMap.set m window (nextClient w)) w).
Proof.
  intros Hnone. rewrite addWindow_untracked by assumption.
  apply (preserves_method (λ w', driverFields w' = _)); [|reflexivity].
  pres assumption. apply preserves_driverFields_activeChecks.
Qed.

Lemma removeWindow_driverFields w window client :
  BiMap.get (clients w) window = Some client →
  driverFields (removeWindow window w).2
  = driverFields (upd_untiledWindows (λ l, l ++ [window])
                    (upd_clients (λ m, BiMap.delete m window) w)).
Proof.
  intros Hsome. rewrite (removeWindow_tracked _ _ client) by assumption.
  apply (preserves_method (λ w', driverFields w' = _)); [|reflexivity].
  pres assumption.
Qed.

(** C7. For a window that is not tracked, [addWindow] followed at once by
    [removeWindow] leaves the tile-map and the client-map exactly as
    they were; of what the driver owns only the untracked list differs:
    it has gained the window. (The client made by [addWindow] is a new
    object: no entry of the client-map holds it.) *)
Theorem addWindow_removeWindow_roundtrip w window :
  BiMap.get (clients w) window = None →
  BiMap.inverse_get (clients w) (nextClient w) = None →
  let w1 := (addWindow window w).2 in
  let w2 := (removeWindow window w1).2 in
  tiles w2 = tiles w
  ∧ clients w2 = clients w
  ∧ untiledWindows w2 = untiledWindows w ++ [window]
  ∧ engineType w2 = engineType w
  ∧ Engine.methods (engine w2) = Engine.methods (engine w).
Proof.
  intros Hnone Hfresh w1 w2.
  pose proof (addWindow_driverFields w window Hnone) as H1. fold w1 in H1.
  assert (Hget : BiMap.get (clients w1) window = Some (nextClient w)).
  { unfold driverFields in H1. cbn in H1.
    assert (Hc : clients w1 = BiMap.set (clients w) window (nextClient w)) by congruence.
    rewrite Hc, BiMap_set_fresh by assumption.
    unfold BiMap.get in *; cbn. rewrite <- JsMap_set_fresh by assumption.
    rewrite JsMap_get_set. now destruct (decide (window = window)). }
  pose proof (removeWindow_driverFields w1 window _ Hget) as H2. fold w2 in H2.
  unfold driverFields in H1, H2. cbn in H1, H2.
  assert (Hc : clients w1 = BiMap.set (clients w) window (nextClient w)) by congruence.
  rewrite Hc, BiMap_delete_set_fresh in H2 by assumption.
  repeat split; congruence.
Qed.

(** *** What [addWindow] catches and what it lets through *)

(** Under default placement the engine is called inside the [try]:
    whatever [addClient] or [buildLayout] throws is logged, [addWindow]
    returns normally, and the client-map keeps the new entry. *)
Lemma addWindow_default_placement_caught w window :
  BiMap.get (clients w) window = None →
  BiMap.consistent (clients w) →
  Engine.insertionPoint (Engine.config (Engine.data (engine w))) ≠ Engine.Active →
  let w' := (addWindow window w).2 in
  (addWindow window w).1 = Normal tt
  ∧ BiMap.get (clients w') window = Some (nextClient w)
  ∧ (log w' = log w ∨ ∃ e, log w' = log w ++ [ErrorExn e]).
Proof.
  intros Hnone Hc Hpolicy w'. subst w'.
  rewrite addWindow_untracked by assumption.
  assert (Hget : BiMap.get (BiMap.set (clients w) window (nextClient w)) window
                 = Some (nextClient w)) by now apply BiMap_get_set_same.
  unfold activeChecks, engineData, method, tryCatch, mbind, M_bind, bind, gets. cbn.
  destruct (Engine.insertionPoint _); [|done]. cbn.
  unfold callEngine; cbn.
  destruct (Engine.addClient _ _ _ _) as [[d h] [e|]]; cbn.
  - split; [done|]. split; [exact Hget|]. right. now exists e.
  - destruct (Engine.buildLayout _ _ _) as [[d' h'] [e|]]; cbn.
    + split; [done|]. split; [exact Hget|]. right. now exists e.
    + split; [done|]. split; [exact Hget|]. now left.
Qed.

(** C1 (where the code departs from it). Under the "insert at active
    position" policy, with an active window whose live tile is in the
    tile-map, [addWindow] on an untracked window calls [putClientInTile]
    before its [try]: an exception of that call is neither caught nor
    logged, it ends [addWindow]. The client-map entry made for the
    window stays. *)
Theorem addWindow_placement_failure_escapes w window activeWindow aw activeTile tile e :
  BiMap.get (clients w) window = None →
  BiMap.consistent (clients w) →
  Engine.insertionPoint (Engine.config (Engine.data (engine w))) = Engine.Active →
  Kwin.activeWindow (host w) = Some activeWindow →
  Kwin.windowStore (host w) !! activeWindow = Some aw →
  Kwin.tile aw = Some activeTile →
  BiMap.get (tiles w) (Some activeTile) = Some tile →
  (Engine.putClientInTile (Engine.methods (engine w)) (nextClient w) tile None
     (Engine.data (engine w)) (heap w)).2 = Some e →
  let w' := (addWindow window w).2 in
  (addWindow window w).1 = Throw e
  ∧ log w' = log w
  ∧ BiMap.get (clients w') window = Some (nextClient w).
Proof.
  intros Hnone Hc Hpolicy Hactive Haw Htile Hreg Hthrow w'. subst w'.
  rewrite addWindow_untracked by assumption.
  assert (Hget : BiMap.get (BiMap.set (clients w) window (nextClient w)) window
                 = Some (nextClient w)) by now apply BiMap_get_set_same.
  unfold activeChecks, engineData, liveWindow, method, tryCatch, mbind, M_bind, bind, gets.
  cbn. rewrite Hpolicy. cbn. rewrite Hactive. cbn. rewrite Haw. cbn. rewrite Htile. cbn. rewrite Hreg. cbn.
  unfold callEngine; cbn.
  destruct (Engine.putClientInTile _ _ _ _ _ _) as [[d h] r]; cbn in *. subst r. cbn.
  split; [done|]. split; [done|exact Hget].
Qed.

End AddRemove.

(** ** The full rebuild *)

Section HostFacts.
Implicit Types (h : Kwin.Host) (t : nat).

Lemma Kwin_parent_None h t :
  Kwin.parent h t = None ↔
  ∀ p kp, Kwin.tileStore h !! p = Some kp → t ∉ Kwin.tiles kp.
Proof.
  unfold Kwin.parent. rewrite fmap_None. split.
  - intros Hfind p kp Hp Hin.
    assert (Hf : bool_decide (t ∈ Kwin.tiles (p, kp).2) = false).
    { apply (find_none _ _ Hfind (p, kp)).
      apply list_elem_of_In, elem_of_map_to_list, Hp. }
    cbn in Hf. now apply bool_decide_eq_false_1 in Hf.
  - intros Hall. destruct (List.find _ _) as [[p kp]|] eqn:Hfind; [|done].
    apply find_some in Hfind as [Hin Hdec]. cbn in Hdec.
    apply bool_decide_eq_true_1 in Hdec.
    apply list_elem_of_In, elem_of_map_to_list in Hin.
    now destruct (Hall p kp Hin).
Qed.

Lemma Kwin_remove_lookup c h t :
  Kwin.tileStore (Kwin.remove c h) !! t
  = if decide (c = t) then None else Kwin.detach c <$> Kwin.tileStore h !! t.
Proof.
  unfold Kwin.remove. cbn. rewrite lookup_delete. case_decide; [done|].
  now rewrite lookup_fmap.
Qed.

End HostFacts.

Section ClearRoot.
Context {P : Type}.
Implicit Types (w : World P).

(** What the clearing loop leaves behind. *)
Lemma clearRoot_spec fuel rootTile : ∀ w rt,
  Kwin.tileStore (host w) !! rootTile = Some rt →
  rootTile ∉ Kwin.tiles rt →
  length (Kwin.tiles rt) < fuel →
  ∃ store',
    clearRoot fuel rootTile w
    = (Normal tt, upd_host (Kwin.with_tileStore (λ _, store')) w)
    ∧ store' !! rootTile = Some (Kwin.with_tiles [] rt)
    ∧ (∀ t, Kwin.tileStore (host w) !! t = None → store' !! t = None)
    ∧ (∀ p kp', store' !! p = Some kp' →
         ∃ kp, Kwin.tileStore (host w) !! p = Some kp
               ∧ Kwin.tiles kp' ⊆ Kwin.tiles kp).
Proof.
  induction fuel as [|fuel IH]; intros w rt Hroot Hnotin Hlen; [lia|].
  cbn [clearRoot]. unfold liveTile, mbind, M_bind, bind, gets. rewrite Hroot. cbn.
  destruct (Kwin.tiles rt) as [|first rest] eqn:Htiles.
  - exists (Kwin.tileStore (host w)). split; [|split; [|split]].
    + destruct w as [? ? ? ? ? ? [] ? ? ? ? ? ?]; reflexivity.
    + rewrite Hroot. f_equal. destruct rt; cbn in *; congruence.
    + auto.
    + intros p kp' Hp. now exists kp'.
  - assert (Hne : first ≠ rootTile).
    { intros ->. apply Hnotin. left. }
    unfold modify. cbn.
    set (w1 := mkWorld _ _ _ _ _ _ _ _ _ _ _ _ _).
    assert (Hroot1 : Kwin.tileStore (host w1) !! rootTile = Some (Kwin.detach first rt)).
    { subst w1. cbn [host]. rewrite Kwin_remove_lookup.
      destruct (decide (first = rootTile)); [done|]. now rewrite Hroot. }
    destruct (IH w1 _ Hroot1) as (store' & Hrun & Hr & Hfresh & Hsub).
    { cbn. rewrite Htiles. intros Hin. apply list_elem_of_filter in Hin as [_ Hin].
      now apply Hnotin. }
    { cbn. rewrite Htiles. rewrite filter_cons_False by (intros H; now apply H).
      pose proof (length_filter (λ c, c ≠ first) rest). cbn in Hlen. lia. }
    exists store'. split; [|split; [|split]].
    + rewrite Hrun. subst w1. reflexivity.
    + rewrite Hr. reflexivity.
    + intros t Ht. apply Hfresh. subst w1. cbn [host]. rewrite Kwin_remove_lookup.
      case_decide; [done|]. now rewrite Ht.
    + intros p kp' Hp. destruct (Hsub p kp' Hp) as (kp1 & Hp1 & Hsub1).
      subst w1. cbn [host] in Hp1. rewrite Kwin_remove_lookup in Hp1.
      case_decide; [done|].
      destruct (Kwin.tileStore (host w) !! p) as [kp|]; [|done].
      exists kp. split; [done|]. injection Hp1 as <-. cbn in Hsub1.
      intros c Hc. apply Hsub1 in Hc. now apply list_elem_of_filter in Hc as [_ Hc].
Qed.

End ClearRoot.

Section BuildLayoutSteps.
Context {P : Type}.
Implicit Types (w : World P).

(** The untracked list after its recomputation. *)
Lemma recomputeUntiled_spec (cs : list nat) : ∀ w,
  forEach cs
    (λ client,
       window ← gets (λ w, BiMap.inverse_get (clients w) client);
       match window with
       | Some window => modify (upd_untiledWindows (λ l, l ++ [window]))
       | None => ret tt
       end) w
  = (Normal tt,
     upd_untiledWindows (λ l, l ++ omap (BiMap.inverse_get (clients w)) cs) w).
Proof.
  induction cs as [|client cs IH]; intros w.
  - cbn. rewrite app_nil_r. now destruct w.
  - cbn [forEach]. unfold mbind at 1, M_bind at 1, bind at 1.
    unfold mbind at 1, M_bind at 1, bind at 1, gets at 1.
    destruct (BiMap.inverse_get (clients w) client) as [window|] eqn:Hw.
    + unfold modify at 1. rewrite IH. cbn. now rewrite Hw, <- app_assoc.
    + unfold ret at 1. rewrite IH. cbn. now rewrite Hw.
Qed.

Lemma findRealRoot_spec store t r :
  effectiveRoot store t r →
  ∃ N, ∀ fuel w, N ≤ fuel → Engine.tileStore (heap w) = store →
    findRealRoot fuel t w = (Normal r, w).
Proof.
  induction 1 as [t tl Ht Hnot|t tl only r Ht Htiles Hclient _ [N IH]].
  - exists 1. intros [|fuel] w Hle <-; [lia|]. cbn [findRealRoot].
    unfold abstractTile, mbind, M_bind, bind, gets. rewrite Ht. cbn.
    destruct (Engine.tiles tl) as [|a [|b l]]; try reflexivity.
    destruct (Engine.client tl); [reflexivity|].
    now destruct (Hnot a).
  - exists (S N). intros [|fuel] w Hle <-; [lia|]. cbn [findRealRoot].
    unfold abstractTile, mbind, M_bind, bind, gets. rewrite Ht. cbn.
    rewrite Htiles, Hclient. apply IH; [lia|done].
Qed.

Lemma effectiveRoot_live store t r :
  effectiveRoot store t r → is_Some (store !! r).
Proof. induction 1; eauto. Qed.

End BuildLayoutSteps.

Section PrepareLayout.
Context {P : Type}.
Implicit Types (w : World P).

Lemma prepareLayout_spec w rootTile rt r :
  Kwin.tileStore (host w) !! rootTile = Some rt →
  rootTile ∉ Kwin.tiles rt →
  effectiveRoot (Engine.tileStore (heap w)) (Engine.rootTile (Engine.data (engine w))) r →
  ∃ N, ∀ fuel, N ≤ fuel →
    ∃ store',
      prepareLayout fuel rootTile w
      = (Normal r,
         upd_untiledWindows
           (λ _, omap (BiMap.inverse_get (clients w))
                   (Engine.untiledClients (Engine.data (engine w))))
           (upd_tiles (λ _, BiMap.empty)
              (upd_host (Kwin.with_tileStore (λ _, store')) w)))
      ∧ store' !! rootTile = Some (Kwin.with_tiles [] rt)
      ∧ (∀ t, Kwin.tileStore (host w) !! t = None → store' !! t = None)
      ∧ (∀ p kp', store' !! p = Some kp' →
           ∃ kp, Kwin.tileStore (host w) !! p = Some kp
                 ∧ Kwin.tiles kp' ⊆ Kwin.tiles kp).
Proof.
  intros Hroot Hnotin Heff.
  destruct (findRealRoot_spec (P:=P) _ _ _ Heff) as [N HN].
  exists (S (length (Kwin.tiles rt)) + N). intros fuel Hfuel.
  destruct (clearRoot_spec fuel rootTile w rt Hroot Hnotin) as (store' & Hrun & Hr & Hfresh & Hsub);
    [lia|].
  exists store'. split; [|done].
  unfold prepareLayout. unfold mbind at 1, M_bind at 1, bind at 1. rewrite Hrun.
  unfold mbind at 1, M_bind at 1, bind at 1, modify at 1.
  unfold mbind at 1, M_bind at 1, bind at 1, modify at 1.
  unfold mbind at 1, M_bind at 1, bind at 1, engineData at 1, gets at 1.
  unfold mbind at 1, M_bind at 1, bind at 1. rewrite recomputeUntiled_spec.
  unfold mbind at 1, M_bind at 1, bind at 1, engineData at 1, gets at 1.
  cbn. rewrite HN; [reflexivity|lia|reflexivity].
Qed.

(** C3. With "maximize single window" enabled, when the descent from the
    engine's root through single-child tiles without occupant ends at a
    tile whose occupant is the client of a known window, [buildLayout]
    (given enough fuel for its loops) returns normally and leaves the
    live root without child tiles, the window without tile and maximized
    in both directions, and the tile-map empty: no live tile tree has
    been built. *)
Theorem buildLayout_maximizes_single w rootTile rt r rr client window kw :
  maximizeSingle w = true →
  Kwin.tileStore (host w) !! rootTile = Some rt →
  Kwin.parent (host w) rootTile = None →
  effectiveRoot (Engine.tileStore (heap w)) (Engine.rootTile (Engine.data (engine w))) r →
  Engine.tileStore (heap w) !! r = Some rr →
  Engine.client rr = Some client →
  BiMap.inverse_get (clients w) client = Some window →
  Kwin.windowStore (host w) !! window = Some kw →
  ∃ N, ∀ fuel, N ≤ fuel →
    let w' := (buildLayout fuel rootTile w).2 in
    (buildLayout fuel rootTile w).1 = Normal tt
    ∧ (∃ rt', Kwin.tileStore (host w') !! rootTile = Some rt' ∧ Kwin.tiles rt' = [])
    ∧ (∃ kw', Kwin.windowStore (host w') !! window = Some kw'
              ∧ Kwin.tile kw' = None
              ∧ Kwin.maximizedVertically kw' = true
              ∧ Kwin.maximizedHorizontally kw' = true)
    ∧ tiles w' = BiMap.empty.
Proof.
  intros Hmax Hroot Hparent Heff Hr Hclient Hwindow Hkw.
  assert (Hnotin : rootTile ∉ Kwin.tiles rt).
  { rewrite Kwin_parent_None in Hparent. now apply (Hparent rootTile). }
  destruct (prepareLayout_spec w rootTile rt r Hroot Hnotin Heff) as [N HN].
  exists N. intros fuel Hfuel.
  destruct (HN fuel Hfuel) as (store' & Hrun & Hroot' & _).
  destruct (buildLayout fuel rootTile w) as [c w'] eqn:Hres.
  unfold buildLayout, method in Hres.
  unfold mbind at 1, M_bind at 1, bind at 1 in Hres. rewrite Hrun in Hres.
  unfold abstractTile, updWindow, liveWindow, mbind, M_bind, bind, gets in Hres.
  cbn in Hres. rewrite Hr in Hres. cbn in Hres. rewrite Hclient, Hmax in Hres.
  cbn in Hres. rewrite Hwindow in Hres. cbn in Hres. rewrite Hkw in Hres.
  cbn in Hres. rewrite lookup_insert_eq in Hres. cbn in Hres.
  injection Hres as <- <-. cbn.
  refine (conj eq_refl (conj _ (conj _ eq_refl))).
  - eexists. split; [exact Hroot'|done].
  - eexists. split; [apply lookup_insert_eq|]. done.
Qed.

(** C10 (as the code has it). With "maximize single window" enabled,
    when the occupant of the effective root has no entry in the
    client-map, [buildLayout] (given enough fuel) returns normally and
    logs nothing; the live root has lost its child tiles, the tile-map
    is empty, no window has been touched and the engine has not been
    called. The untracked list is not left empty: it holds, in order, the
    windows of the engine's unplaced clients that the client-map knows. *)
Theorem buildLayout_unknown_occupant w rootTile rt r rr client :
  maximizeSingle w = true →
  Kwin.tileStore (host w) !! rootTile = Some rt →
  Kwin.parent (host w) rootTile = None →
  effectiveRoot (Engine.tileStore (heap w)) (Engine.rootTile (Engine.data (engine w))) r →
  Engine.tileStore (heap w) !! r = Some rr →
  Engine.client rr = Some client →
  BiMap.inverse_get (clients w) client = None →
  ∃ N, ∀ fuel, N ≤ fuel →
    let w' := (buildLayout fuel rootTile w).2 in
    (buildLayout fuel rootTile w).1 = Normal tt
    ∧ log w' = log w
    ∧ (∃ rt', Kwin.tileStore (host w') !! rootTile = Some rt' ∧ Kwin.tiles rt' = [])
    ∧ tiles w' = BiMap.empty
    ∧ untiledWindows w'
      = omap (BiMap.inverse_get (clients w))
          (Engine.untiledClients (Engine.data (engine w)))
    ∧ Kwin.windowStore (host w') = Kwin.windowStore (host w)
    ∧ calls w' = calls w.
Proof.
  intros Hmax Hroot Hparent Heff Hr Hclient Hwindow.
  assert (Hnotin : rootTile ∉ Kwin.tiles rt).
  { rewrite Kwin_parent_None in Hparent. now apply (Hparent rootTile). }
  destruct (prepareLayout_spec w rootTile rt r Hroot Hnotin Heff) as [N HN].
  exists N. intros fuel Hfuel.
  destruct (HN fuel Hfuel) as (store' & Hrun & Hroot' & _).
  destruct (buildLayout fuel rootTile w) as [c w'] eqn:Hres.
  unfold buildLayout, method in Hres.
  unfold mbind at 1, M_bind at 1, bind at 1 in Hres. rewrite Hrun in Hres.
  unfold abstractTile, mbind, M_bind, bind, gets in Hres.
  cbn in Hres. rewrite Hr in Hres. cbn in Hres. rewrite Hclient, Hmax in Hres.
  cbn in Hres. rewrite Hwindow in Hres. cbn in Hres.
  injection Hres as <- <-. cbn.
  refine (conj eq_refl (conj eq_refl (conj _ (conj eq_refl (conj eq_refl (conj eq_refl eq_refl)))))).
  eexists. split; [exact Hroot'|done].
Qed.

End PrepareLayout.

Section Walk.
Context {P : Type}.
Implicit Types (w : World P).

(** Placing the occupant of a tile whose window is known. *)
Lemma placeOccupant_spec w kwinTile kt client window kw extensions :
  BiMap.inverse_get (clients w) client = Some window →
  windowExtensions w !! window = Some extensions →
  Kwin.windowStore (host w) !! window = Some kw →
  Kwin.tileStore (host w) !! kwinTile = Some kt →
  ∃ windows' center,
    placeOccupant kwinTile (Some client) w
    = (Normal tt,
       upd_windowExtensions (<[window := with_lastTiledLocation center extensions]>)
         (upd_host (Kwin.with_windowStore (λ _, windows')) w))
    ∧ (∃ kw', windows' !! window = Some kw' ∧ Kwin.tile kw' = Some kwinTile)
    ∧ (∀ x, x ≠ window → windows' !! x = Kwin.windowStore (host w) !! x).
Proof.
  intros Hwindow Hext Hkw Hkt.
  unfold placeOccupant.
  unfold mbind at 1, M_bind at 1, bind at 1, gets at 1. rewrite Hwindow.
  unfold mbind at 1, M_bind at 1, bind at 1, gets at 1. rewrite Hext.
  rewrite (run_bind _ _ _ _ _ (run_updWindow _ _ _ _ Hkw)).
  erewrite run_bind; [|apply run_updWindow; cbn; apply lookup_insert_eq].
  unfold mbind at 1, M_bind at 1, bind at 1, defined at 1, ret at 1.
  destruct (maximized extensions).
  - erewrite run_bind; [|apply run_updWindow; cbn; apply lookup_insert_eq].
    erewrite run_bind; [|apply run_updWindow; cbn; apply lookup_insert_eq].
    erewrite run_bind; [|apply run_liveTile; cbn; exact Hkt].
    unfold mbind, M_bind, bind, gets, modify. cbn.
    eexists _, _. split; [reflexivity|]. split.
    + eexists. split; [apply lookup_insert_eq|reflexivity].
    + intros x Hx. now rewrite !lookup_insert_ne.
  - unfold mbind at 1, M_bind at 1, bind at 1, ret at 1.
    erewrite run_bind; [|apply run_updWindow; cbn; apply lookup_insert_eq].
    erewrite run_bind; [|apply run_liveTile; cbn; exact Hkt].
    unfold mbind, M_bind, bind, gets, modify. cbn.
    eexists _, _. split; [reflexivity|]. split.
    + eexists. split; [apply lookup_insert_eq|reflexivity].
    + intros x Hx. now rewrite !lookup_insert_ne.
Qed.

(** One turn of the walk for an occupied leaf. *)
Lemma buildLoop_leaf fuel w tile queue tl client kwinTile kt window kw extensions :
  Engine.tileStore (heap w) !! tile = Some tl →
  Engine.tiles tl = [] →
  Engine.client tl = Some client →
  BiMap.inverse_get (tiles w) tile = Some (Some kwinTile) →
  Kwin.tileStore (host w) !! kwinTile = Some kt →
  BiMap.inverse_get (clients w) client = Some window →
  windowExtensions w !! window = Some extensions →
  Kwin.windowStore (host w) !! window = Some kw →
  ∃ windows' center,
    buildLoop (S fuel) (tile :: queue) w
    = buildLoop fuel queue
        (upd_windowExtensions (<[window := with_lastTiledLocation center extensions]>)
           (upd_host
              (λ h, Kwin.with_windowStore (λ _, windows')
                      (Kwin.with_tileStore
                         (<[kwinTile := Kwin.with_layoutDirection (Engine.layoutDirection tl) kt]>) h))
              (upd_managedTiles (λ s, {[Some kwinTile]} ∪ s) w)))
    ∧ (∃ kw', windows' !! window = Some kw' ∧ Kwin.tile kw' = Some kwinTile)
    ∧ (∀ x, x ≠ window → windows' !! x = Kwin.windowStore (host w) !! x).
Proof.
  intros Htl Htiles Hclient Hk Hkt Hwindow Hext Hkw.
  cbn [buildLoop].
  unfold mbind at 1, M_bind at 1, bind at 1, gets at 1. rewrite Hk. cbn [mjoin option_join].
  unfold mbind at 1, M_bind at 1, bind at 1, modify at 1.
  erewrite run_bind; [|apply run_abstractTile; exact Htl].
  unfold mbind at 1, M_bind at 1, bind at 1, defined at 1, ret at 1.
  erewrite run_bind; [|apply run_updLiveTile; exact Hkt].
  erewrite run_bind; [|apply run_liveTile; cbn; apply lookup_insert_eq].
  rewrite Htiles. cbn [length]. destruct (decide (1 < 0)) as [Hlt|_]; [lia|].
  unfold mbind at 1, M_bind at 1, bind at 1, ret at 1.
  rewrite Hclient.
  edestruct (placeOccupant_spec
               (upd_host (Kwin.with_tileStore
                            (<[kwinTile := Kwin.with_layoutDirection (Engine.layoutDirection tl) kt]>))
                  (upd_managedTiles (λ s, {[Some kwinTile]} ∪ s) w))
               kwinTile (Kwin.with_layoutDirection (Engine.layoutDirection tl) kt)
               client window kw extensions)
    as (windows' & center & Hrun & Hw & Hother); [exact Hwindow|exact Hext|exact Hkw| |].
  { cbn. apply lookup_insert_eq. }
  erewrite run_bind; [|exact Hrun].
  exists windows', center. split; [reflexivity|]. split; [exact Hw|exact Hother].
Qed.

End Walk.

Section SplitFacts.
Implicit Types (h : Kwin.Host) (t : nat).


End SplitFacts.

Section TwoChildren.
Context {P : Type}.
Implicit Types (w : World P).

Lemma run_split w t d h' :
  Kwin.split t d (host w) = Some h' →
  (gets host ≫= λ h, defined (Kwin.split t d h) ≫= λ h', modify (upd_host (λ _, h'))) w
  = (Normal tt, upd_host (λ _, h') w).
Proof.
  intros H. unfold mbind, M_bind, bind, gets. now rewrite H.
Qed.




End TwoChildren.

Section ThreeEntries.
Context {K V : Type} `{EqDecision K} `{EqDecision V}.


End ThreeEntries.

Section TwoSiblings.
Context {P : Type}.
Implicit Types (w : World P).

Lemma buildLoop_done fuel w : buildLoop (S fuel) [] w = (Normal tt, w).
Proof. reflexivity. Qed.



End TwoSiblings.

(** ** The incremental walk *)

Section RegenerateFrame.
Context {P : Type}.
Implicit Types (w : World P).

Lemma preserves_host_destroyLoop h fuel arr i :
  preserves (P:=P) (λ w', host w' = h) (destroyLoop fuel arr i).
Proof.
  revert arr i. induction fuel as [|fuel IH]; intros arr i; cbn [destroyLoop];
    pres assumption; apply IH.
Qed.

Lemma preserves_host_regenerateLoop h fuel queue :
  preserves (P:=P) (λ w', host w' = h) (regenerateLoop fuel queue).
Proof.
  revert queue.
  induction fuel as [|fuel IH]; intros queue; cbn [regenerateLoop]; [pres assumption|].
  destruct queue as [|kwinTile queue]; pres assumption; try apply IH.
  unfold regenerateTile, createLoop. pres assumption.
  apply preserves_host_destroyLoop.
Qed.

(** The walk of [regenerateLayout] never touches the live side. *)
Lemma regenerateLoop_host fuel queue w :
  host (regenerateLoop fuel queue w).2 = host w.
Proof. now apply (preserves_host_regenerateLoop (host w)). Qed.





End RegenerateFrame.

Section CreateLoop.
Context {P : Type}.
Implicit Types (w : World P).



End CreateLoop.

Section RegenerateLayout.
Context {P : Type}.
Implicit Types (w : World P).


(** Without the flag the body of the walk only hands the size over. *)
Lemma regenerateTile_size w fuel kwinTile tile kt tl :
  tilesMutable w = false →
  Kwin.tileStore (host w) !! kwinTile = Some kt →
  Engine.tileStore (heap w) !! tile = Some tl →
  regenerateTile fuel kwinTile tile w
  = (Normal tt,
     upd_heap
       (λ h, Engine.mkHeap
               (<[tile := Engine.with_requestedSize
                            (Some (Geometry.fromRect (Kwin.absoluteGeometry (host w) kt))) tl]>
                  (Engine.tileStore h))
               (Engine.nextTile h)) w).
Proof.
  intros Hflag Hkt Htile. unfold regenerateTile.
  erewrite run_bind; [|apply run_liveTile; exact Hkt].
  unfold mbind at 1, M_bind at 1, bind at 1, gets at 1.
  erewrite run_bind.
  2:{ unfold heapOp, Engine.setRequestedSize, mbind, M_bind, bind, gets, defined, modify, ret.
      rewrite Htile. reflexivity. }
  unfold mbind at 1, M_bind at 1, bind at 1, engineData at 1, gets at 1.
  unfold tilesMutable in Hflag. cbn. rewrite Hflag. reflexivity.
Qed.

End RegenerateLayout.

(** ** The properties at work on the example worlds *)

Section ExampleFacts.
Import Examples.

Lemma example_clients_consistent methods :
  BiMap.consistent (clients (singleWindow methods)).
Proof. apply BiMap_set_consistent, BiMap_empty_consistent. Qed.


Lemma example_wrapped_leaf occupant :
  effectiveRoot
    (<[0 := abstractTile None [1] 1 None]>
       (<[1 := abstractTile (Some 0) [] 1 occupant]> ∅)) 0 1.
Proof.
  eapply effectiveRoot_descend; [reflexivity..|].
  eapply effectiveRoot_here; [reflexivity|].
  intros only [H _]. discriminate H.
Qed.





Lemma example_outOfSync_children c :
  c ∈ [1] → is_Some (Engine.tileStore (heap (outOfSync 3)) !! c).
Proof. intros Hc. apply list_elem_of_singleton in Hc as ->. now eexists. Qed.

End ExampleFacts.

Section ProbeExamples.
Import Shortcuts.
Local Open Scope Q_scope.



End ProbeExamples.

Lemma addWindow_placement_failure_escapes_witness :
  (addWindow 11 (Examples.singleWindow Examples.brokenPlacement)).1 = Throw (EngineError 1)
  ∧ log (addWindow 11 (Examples.singleWindow Examples.brokenPlacement)).2 = [].
Proof.
  destruct (addWindow_placement_failure_escapes
              (Examples.singleWindow Examples.brokenPlacement) 11 10
              (Examples.liveWindow (Some 1)) 1 1 (EngineError 1)
              eq_refl (example_clients_consistent _) eq_refl eq_refl eq_refl eq_refl
              eq_refl eq_refl)
    as (Hthrow & Hlog & _).
  split; [exact Hthrow|exact Hlog].
Defined.




Lemma buildLayout_maximizes_single_witness :
  ∃ N, ∀ fuel, N ≤ fuel →
    (buildLayout fuel 0 (Examples.singleWindow Examples.idleMethods)).1 = Normal tt
    ∧ tiles (buildLayout fuel 0 (Examples.singleWindow Examples.idleMethods)).2 = BiMap.empty.
Proof.
  destruct (buildLayout_maximizes_single (Examples.singleWindow Examples.idleMethods) 0
              (Examples.liveTile [1; 2]) 1 (Examples.abstractTile (Some 0) [] 1 (Some 0))
              0 10 (Examples.liveWindow (Some 1))
              eq_refl eq_refl eq_refl (example_wrapped_leaf (Some 0)) eq_refl eq_refl
              eq_refl eq_refl)
    as [N HN].
  exists N. intros fuel Hfuel. destruct (HN fuel Hfuel) as (Hnormal & _ & _ & Hempty).
  split; [exact Hnormal|exact Hempty].
Defined.


Lemma putWindowInTile_unregistered_witness :
  ∃ geometry,
    putWindowInTile 11 7 None (Examples.singleWindow Examples.idleMethods)
    = (Normal tt,
       upd_log (λ l, l ++ [ErrorTileNotRegistered geometry])
         (Examples.singleWindow Examples.idleMethods)).
Proof.
  destruct (putWindowInTile_unregistered (Examples.singleWindow Examples.idleMethods)
              11 7 None eq_refl) as (geometry & Hrun & _).
  now exists geometry.
Defined.

Lemma putWindowInTile_direction_witness :
  ∃ client rest,
    calls (putWindowInTile 11 1 (Some Geometry.Up)
             (Examples.singleWindow Examples.idleMethods)).2
    = CallPutClientInTile client 1 (Some Geometry.Right) :: rest.
Proof.
  destruct (putWindowInTile_direction (Examples.singleWindow Examples.idleMethods)
              11 1 1 Geometry.Up (example_clients_consistent _) eq_refl)
    as (client & passed & rest & Hcalls & Hiff & _).
  exists client, rest. rewrite Hcalls.
  rewrite (proj2 Hiff (conj eq_refl eq_refl)). reflexivity.
Defined.

Lemma addWindow_removeWindow_roundtrip_witness :
  let w := Examples.singleWindow Examples.idleMethods in
  let w2 := (removeWindow 11 (addWindow 11 w).2).2 in
  tiles w2 = tiles w ∧ clients w2 = clients w ∧ untiledWindows w2 = [11].
Proof.
  destruct (addWindow_removeWindow_roundtrip (Examples.singleWindow Examples.idleMethods)
              11 eq_refl eq_refl) as (Ht & Hc & Hu & _).
  split; [exact Ht|]. split; [exact Hc|exact Hu].
Defined.

Lemma identity_maps_one_to_one_witness :
  mapsOneToOne
    (buildLayout 10 0 (removeWindow 10 (addWindow 11 (addWindow 10 Examples.newDriver).2).2).2).2.
Proof.
  apply identity_maps_one_to_one.
  apply reach_buildLayout, reach_removeWindow, reach_addWindow, reach_addWindow.
  apply reach_new; reflexivity.
Defined.

(** The claim C10 as it was stated fails here: "maximize single window"
    is enabled, the occupant (client 5) of the effective root has no
    entry in the client-map, and [buildLayout] returns silently with an
    empty tile-map, but the untracked list is not empty: it holds window
    10, whose client the engine reports as unplaced. *)
Lemma buildLayout_unknown_occupant_untracked :
  let w := Examples.unknownOccupant in
  let w' := (buildLayout 10 0 w).2 in
  maximizeSingle w = true
  ∧ BiMap.inverse_get (clients w) 5 = None
  ∧ (buildLayout 10 0 w).1 = Normal tt
  ∧ log w' = []
  ∧ tiles w' = BiMap.empty
  ∧ untiledWindows w' = [10]
  ∧ untiledWindows w' ≠ [].
Proof. vm_compute. repeat split; try reflexivity. discriminate. Qed.

Lemma buildLayout_unknown_occupant_witness :
  ∃ N, ∀ fuel, N ≤ fuel →
    (buildLayout fuel 0 Examples.unknownOccupant).1 = Normal tt
    ∧ untiledWindows (buildLayout fuel 0 Examples.unknownOccupant).2 = [10].
Proof.
  destruct (buildLayout_unknown_occupant Examples.unknownOccupant 0
              (Examples.liveTile [1; 2]) 1 (Examples.abstractTile (Some 0) [] 1 (Some 5)) 5
              eq_refl eq_refl eq_refl (example_wrapped_leaf (Some 5)) eq_refl eq_refl eq_refl)
    as [N HN].
  exists N. intros fuel Hfuel.
  destruct (HN fuel Hfuel) as (Hnormal & _ & _ & _ & Huntiled & _).
  split; [exact Hnormal|exact Huntiled].
Defined.

(** ** Engine calls under a [try] *)

Section Guarded.
Context {P : Type}.
Implicit Types (w : World P).

Lemma world_eq (w w' : World P) :
  engine w = engine w' → engineType w = engineType w' → tiles w = tiles w' →
  clients w = clients w' → untiledWindows w = untiledWindows w' → heap w = heap w' →
  host w = host w' → managedTiles w = managedTiles w' →
  windowExtensions w = windowExtensions w' → maximizeSingle w = maximizeSingle w' →
  nextClient w = nextClient w' → log w = log w' → calls w = calls w' → w = w'.
Proof. destruct w, w'; cbn; intros; subst; reflexivity. Qed.

Lemma engine_eta (e : Engine.TilingEngine P) :
  Engine.mkEngine (Engine.data e) (Engine.methods e) = e.
Proof. now destruct e. Qed.

Lemma guarded_steps (steps : list (EngineStep (P:=P))) : ∀ w,
  tryCatch (forEach steps (λ s, callEngine s.1 s.2)) (λ e, logError (ErrorExn e)) w
  = (Normal tt, afterEngine w steps).
Proof.
  induction steps as [|[c m] steps IH]; intros w.
  - cbn. f_equal. unfold afterEngine; cbn.
    apply world_eq; cbn; rewrite ?app_nil_r, ?engine_eta; reflexivity.
  - specialize (IH (upd_calls (λ l, l ++ [c])
                      (upd_heap (λ _, (m (Engine.methods (engine w)) (Engine.data (engine w)) (heap w)).1.2)
                         (upd_engine (λ e, Engine.mkEngine (m (Engine.methods (engine w)) (Engine.data (engine w)) (heap w)).1.1 (Engine.methods e)) w)))).
    unfold tryCatch in *. cbn [forEach]. unfold mbind at 1, M_bind at 1, bind at 1.
    unfold callEngine at 1. cbn [fst snd].
    unfold afterEngine at 1. cbn [runEngine].
    destruct (m (Engine.methods (engine w)) (Engine.data (engine w)) (heap w)) as [[d h] [e|]];
      cbn [fst snd] in *.
    + cbn. f_equal.
    + destruct (forEach steps _ _) as [[[]| |e|] w1] eqn:Hrun; cbn in IH |- *.
      all: try discriminate.
      all: unfold afterEngine in IH; cbn in IH.
      all: destruct (runEngine _ steps d h) as [[made thrown] [d' h']].
      all: rewrite IH; f_equal; f_equal; now rewrite <- app_assoc.
Qed.

End Guarded.

Section GuardedForms.
Context {P : Type}.
Implicit Types (w : World P).

Lemma bind_ret_tt (m : M P unit) w : (m;; ret tt) w = m w.
Proof.
  unfold mbind, M_bind, bind. destruct (m w) as [[[]| |e|] w']; reflexivity.
Qed.

Lemma bind_ext {A B} (m : M P A) (f g : A → M P B) w :
  (∀ a w', f a w' = g a w') → (m ≫= f) w = (m ≫= g) w.
Proof.
  intros Hfg. unfold mbind, M_bind, bind. destruct (m w) as [[a| |e|] w']; auto.
Qed.

Lemma bind_assoc {A B C} (m : M P A) (f : A → M P B) (g : B → M P C) w :
  ((m ≫= f) ≫= g) w = (m ≫= λ a, f a ≫= g) w.
Proof.
  unfold mbind, M_bind, bind. destruct (m w) as [[a| |e|] w']; reflexivity.
Qed.

Lemma guarded_two c1 m1 c2 m2 w :
  tryCatch (callEngine c1 m1;; callEngine c2 m2) (λ e, logError (ErrorExn e)) w
  = (Normal tt, afterEngine w [(c1, m1); (c2, m2)]).
Proof.
  rewrite <- guarded_steps. unfold tryCatch. cbn [forEach fst snd].
  rewrite (bind_ext _ _ (λ _, callEngine c2 m2;; ret tt)); [reflexivity|].
  intros _ w'. now rewrite bind_ret_tt.
Qed.

(** The fields that a guarded block of engine calls leaves alone. *)
Lemma afterEngine_frame w steps :
  let w' := afterEngine w steps in
  tiles w' = tiles w ∧ clients w' = clients w ∧ untiledWindows w' = untiledWindows w
  ∧ host w' = host w ∧ managedTiles w' = managedTiles w
  ∧ windowExtensions w' = windowExtensions w ∧ engineType w' = engineType w
  ∧ nextClient w' = nextClient w
  ∧ Engine.methods (engine w') = Engine.methods (engine w).
Proof.
  unfold afterEngine. destruct (runEngine _ _ _ _) as [[made thrown] [d h]]. cbn.
  repeat split.
Qed.

End GuardedForms.

Section RemoveWindowMore.
Context {P : Type}.
Implicit Types (w : World P).

(** [removeWindow] on a window that is not tracked returns at once: no
    field of the driver changes, the engine is not called, nothing is
    logged. *)
Theorem removeWindow_untracked_noop w window :
  BiMap.get (clients w) window = None →
  removeWindow window w = (Normal tt, w).
Proof.
  intros Hnone. unfold removeWindow, method, mbind, M_bind, bind, gets.
  now rewrite Hnone.
Qed.

Lemma removeWindow_run w window client :
  BiMap.get (clients w) window = Some client →
  removeWindow window w
  = (Normal tt,
     afterEngine
       (upd_untiledWindows (λ l, l ++ [window])
          (upd_clients (λ m, BiMap.delete m window) w))
       [stepRemoveClient client; stepBuildLayout]).
Proof.
  intros Hsome. rewrite (removeWindow_tracked _ _ client) by assumption.
  unfold method.
  now rewrite guarded_two.
Qed.

Lemma BiMap_get_delete {K V} `{EqDecision K} `{EqDecision V} (m : BiMap.t K V) k k' :
  BiMap.get (BiMap.delete m k) k'
  = if decide (k = k') then None else BiMap.get m k'.
Proof.
  unfold BiMap.delete, BiMap.get.
  destruct (JsMap.get (BiMap.forward m) k) as [cv|] eqn:Hk; cbn.
  - apply JsMap_get_delete.
  - destruct (decide (k = k')) as [<-|]; [exact Hk|reflexivity].
Qed.

(** [removeWindow] on a tracked window returns normally whatever the
    engine does. The window leaves the client-map (the entries of other
    windows stay) and is appended to the untracked list; the tile-map and
    the live side are not touched. The engine is asked to remove the
    window's client and then, unless that call threw, to rebuild its
    layout; the exception of the call that threw is logged. *)
Theorem removeWindow_tracked_effect w window client :
  BiMap.get (clients w) window = Some client →
  let w' := (removeWindow window w).2 in
  let '(made, thrown, (d, h)) :=
    runEngine (Engine.methods (engine w)) [stepRemoveClient client; stepBuildLayout]
      (Engine.data (engine w)) (heap w) in
  (removeWindow window w).1 = Normal tt
  ∧ clients w' = BiMap.delete (clients w) window
  ∧ BiMap.get (clients w') window = None
  ∧ (∀ other, other ≠ window → BiMap.get (clients w') other = BiMap.get (clients w) other)
  ∧ untiledWindows w' = untiledWindows w ++ [window]
  ∧ tiles w' = tiles w
  ∧ host w' = host w
  ∧ calls w' = calls w ++ made
  ∧ (∃ rest, made = CallRemoveClient client :: rest)
  ∧ log w' = log w ++ logged thrown
  ∧ Engine.data (engine w') = d
  ∧ heap w' = h.
Proof.
  intros Hsome w'. subst w'. rewrite (removeWindow_run _ _ client) by assumption.
  unfold afterEngine. cbn [fst snd upd_untiledWindows upd_clients engine heap clients].
  destruct (runEngine _ _ _ _) as [[made thrown] [d h]] eqn:Hrun. cbn.
  repeat split.
  - rewrite BiMap_get_delete. now destruct (decide (window = window)).
  - intros other Hne. rewrite BiMap_get_delete.
    destruct (decide (window = other)); congruence.
  - cbn in Hrun. destruct (Engine.removeClient _ _ _ _) as [[d1 h1] [e|]].
    + injection Hrun as <- _ _ _. now eexists.
    + destruct (Engine.buildLayout _ _ _) as [[d2 h2] [e|]];
        injection Hrun as <- _ _ _; now eexists.
Qed.

Lemma removeWindow_forgets w window :
  BiMap.get (clients (removeWindow window w).2) window = None.
Proof.
  destruct (BiMap.get (clients w) window) as [client|] eqn:Hget.
  - rewrite (removeWindow_run _ _ client) by assumption.
    cbn [snd]. destruct (afterEngine_frame
      (upd_untiledWindows (λ l, l ++ [window]) (upd_clients (λ m, BiMap.delete m window) w))
      [stepRemoveClient client; stepBuildLayout]) as (_ & -> & _).
    cbn. rewrite BiMap_get_delete. now destruct (decide (window = window)).
  - unfold removeWindow, method, mbind, M_bind, bind, gets. now rewrite Hget.
Qed.

(** Removing a window twice is removing it once: the second
    [removeWindow] finds the window untracked and changes nothing (the
    engine is not called again, the untracked list does not get the
    window a second time). *)
Theorem removeWindow_twice w window :
  removeWindow window (removeWindow window w).2
  = (Normal tt, (removeWindow window w).2).
Proof.
  unfold removeWindow at 1, method, mbind, M_bind, bind, gets.
  now rewrite removeWindow_forgets.
Qed.

End RemoveWindowMore.

Section RunEngineFacts.
Context {P : Type}.

(** The calls made are the calls of the block up to the one that threw;
    all of them when none threw. *)
Lemma runEngine_made (ms : Engine.Methods P) steps : ∀ d h,
  let '(made, thrown, _) := runEngine ms steps d h in
  made `prefix_of` map fst steps
  ∧ (thrown = None → made = map fst steps)
  ∧ (steps ≠ [] → made ≠ []).
Proof.
  induction steps as [|[c m] steps IH]; intros d h; cbn.
  - repeat split; done.
  - destruct (m ms d h) as [[d' h'] [e|]].
    + split; [|split; [discriminate|discriminate]].
      now apply prefix_cons, prefix_nil.
    + specialize (IH d' h'). destruct (runEngine ms steps d' h') as [[made thrown] final].
      destruct IH as (Hpre & Hall & _). split; [|split].
      * now apply prefix_cons.
      * intros Hnone. now rewrite Hall.
      * discriminate.
Qed.

End RunEngineFacts.

Section TryCatchSteps.
Context {P : Type}.
Implicit Types (w : World P).

Lemma tryCatch_bind {A} (m : M P A) (f : A → M P unit) handler w a w' :
  m w = (Normal a, w') → tryCatch (m ≫= f) handler w = tryCatch (f a) handler w'.
Proof. intros H. unfold tryCatch. now rewrite (run_bind _ _ _ _ _ H). Qed.

Lemma forEach_then_build (cs : list nat) : ∀ w,
  (forEach cs (λ client, callEngine (CallAddClient client)
                           (λ m, Engine.addClient m client));;
   callEngine CallBuildLayout Engine.buildLayout) w
  = forEach (map stepAddClient cs ++ [stepBuildLayout (P:=P)])
      (λ s, callEngine s.1 s.2) w.
Proof.
  induction cs as [|c cs IH]; intros w; cbn [forEach map app].
  - now rewrite bind_ret_tt.
  - rewrite bind_assoc. apply bind_ext. intros _ w'. apply IH.
Qed.

End TryCatchSteps.

Section SwitchEngine.
Context {P : Type}.
Implicit Types (w : World P).

(** [switchEngine] installs the new engine and its type and hands it,
    in the order of the client-map, every tracked client ([addClient]),
    then asks it for [buildLayout]; the first call that throws ends the
    sequence and its exception is logged. [switchEngine] returns normally
    in every case. The client-map, the tile-map (which still holds the
    tiles of the old engine), the untracked list and the live side are
    left as they are. *)
Theorem switchEngine_readds_clients w newEngine newEngineType :
  let w' := (switchEngine newEngine newEngineType w).2 in
  let steps := map stepAddClient (BiMap.values (clients w)) ++ [stepBuildLayout] in
  let '(made, thrown, (d, h)) :=
    runEngine (Engine.methods newEngine) steps (Engine.data newEngine) (heap w) in
  (switchEngine newEngine newEngineType w).1 = Normal tt
  ∧ engine w' = Engine.mkEngine d (Engine.methods newEngine)
  ∧ engineType w' = newEngineType
  ∧ heap w' = h
  ∧ clients w' = clients w
  ∧ tiles w' = tiles w
  ∧ untiledWindows w' = untiledWindows w
  ∧ host w' = host w
  ∧ calls w' = calls w ++ made
  ∧ made `prefix_of` map CallAddClient (BiMap.values (clients w)) ++ [CallBuildLayout]
  ∧ (thrown = None →
     made = map CallAddClient (BiMap.values (clients w)) ++ [CallBuildLayout])
  ∧ log w' = log w ++ logged thrown.
Proof.
  intros w' steps. subst w'.
  assert (Hfst : map fst steps
                 = map CallAddClient (BiMap.values (clients w)) ++ [CallBuildLayout]).
  { subst steps. rewrite map_app, map_map. reflexivity. }
  pose proof (runEngine_made (Engine.methods newEngine) steps (Engine.data newEngine) (heap w))
    as Hmade.
  assert (Hrun : switchEngine newEngine newEngineType w
                 = (Normal tt,
                    afterEngine (upd_engineType (λ _, newEngineType)
                                   (upd_engine (λ _, newEngine) w)) steps)).
  { unfold switchEngine. unfold mbind at 1 2, M_bind at 1 2, bind at 1 2, modify at 1 2.
    set (w1 := upd_engineType _ _).
    rewrite <- guarded_steps. unfold tryCatch.
    unfold mbind at 1, M_bind at 1, bind at 1, gets at 1.
    now rewrite forEach_then_build. }
  rewrite Hrun. unfold afterEngine. cbn [fst snd upd_engineType upd_engine engine heap].
  destruct (runEngine _ _ _ _) as [[made thrown] [d h]]. cbn.
  destruct Hmade as (Hpre & Hall & _). rewrite Hfst in Hpre, Hall.
  repeat split; assumption.
Qed.

End SwitchEngine.

Section PutWindowInTileMore.
Context {P : Type}.
Implicit Types (w : World P).

Lemma run_rotatedDirection w (e : Engine.Data P) direction :
  ∃ passed debug,
    rotatedDirection e direction w = (Normal passed, upd_log (λ l, l ++ debug) w)
    ∧ (direction = None → passed = None ∧ debug = []).
Proof.
  unfold rotatedDirection. destruct direction as [d|].
  - destruct (_ && _).
    + exists (Some (Geometry.rotateCw d)), [DebugRotated (Geometry.rotateCw d)].
      split; [reflexivity|discriminate].
    + exists (Some d), []. split; [|discriminate].
      unfold ret. f_equal. apply world_eq; cbn; now rewrite ?app_nil_r.
  - exists None, []. split; [|done].
    unfold ret. f_equal. apply world_eq; cbn; now rewrite ?app_nil_r.
Qed.

(** [putWindowInTile] on a registered live tile returns normally
    whatever the engine does: the placement call and the layout call are
    both inside the [try], and the exception of the one that threw is
    logged. The client handed to the engine is the one the window
    already has (then the client-map is left as it is and no client is
    made), or a new one that is registered for the window. The engine is
    asked to put it in the counterpart of the live tile, then (unless
    that threw) for [buildLayout]. Without a direction none is passed
    on and nothing but an exception is logged. *)
Theorem putWindowInTile_registered w window kwinTile tile direction :
  BiMap.consistent (clients w) →
  BiMap.get (tiles w) (Some kwinTile) = Some tile →
  let w' := (putWindowInTile window kwinTile direction w).2 in
  let client := default (nextClient w) (BiMap.get (clients w) window) in
  ∃ passed debug,
    let '(made, thrown, (d, h)) :=
      runEngine (Engine.methods (engine w))
        [stepPutClientInTile client tile passed; stepBuildLayout]
        (Engine.data (engine w)) (heap w) in
    (putWindowInTile window kwinTile direction w).1 = Normal tt
    ∧ BiMap.get (clients w') window = Some client
    ∧ (is_Some (BiMap.get (clients w) window) →
       clients w' = clients w ∧ nextClient w' = nextClient w)
    ∧ (BiMap.get (clients w) window = None →
       clients w' = BiMap.set (clients w) window (nextClient w)
       ∧ nextClient w' = S (nextClient w))
    ∧ tiles w' = tiles w
    ∧ untiledWindows w' = untiledWindows w
    ∧ host w' = host w
    ∧ calls w' = calls w ++ made
    ∧ (∃ rest, made = CallPutClientInTile client tile passed :: rest)
    ∧ log w' = log w ++ debug ++ logged thrown
    ∧ (direction = None → passed = None ∧ debug = [])
    ∧ Engine.data (engine w') = d
    ∧ heap w' = h.
Proof.
  intros Hc Htile w' client. subst w'.
  set (w1 := if BiMap.has (clients w) window then w
             else upd_clients (λ m, BiMap.set m window (nextClient w)) (upd_nextClient S w)).
  assert (Hreg : (if BiMap.has (clients w) window then ret tt
                  else newClient window ≫= λ client,
                         modify (upd_clients (λ m, BiMap.set m window client))) w
                 = (Normal tt, w1)).
  { subst w1. now destruct (BiMap.has (clients w) window). }
  assert (Hget : BiMap.get (clients w1) window = Some client).
  { subst w1 client. destruct (BiMap.has (clients w) window) eqn:Hhas.
    - apply BiMap_has_get in Hhas as [c Hc']. now rewrite Hc'.
    - apply BiMap_has_false in Hhas. rewrite Hhas. cbn. now apply BiMap_get_set_same. }
  destruct (run_rotatedDirection w1 (Engine.data (engine w1)) direction)
    as (passed & debug & Hrot & Hnone).
  exists passed, debug.
  assert (Hrun : putWindowInTile window kwinTile direction w
                 = (Normal tt,
                    afterEngine (upd_log (λ l, l ++ debug) w1)
                      [stepPutClientInTile client tile passed; stepBuildLayout])).
  { unfold putWindowInTile, method. unfold mbind at 1, M_bind at 1, bind at 1, gets at 1.
    rewrite Htile. unfold mbind at 1, M_bind at 1, bind at 1, gets at 1.
    unfold mbind at 1, M_bind at 1, bind at 1. rewrite Hreg.
    unfold mbind at 1, M_bind at 1, bind at 1, gets at 1. rewrite Hget.
    unfold mbind at 1, M_bind at 1, bind at 1, defined, ret at 1.
    erewrite tryCatch_bind by reflexivity.
    erewrite tryCatch_bind by exact Hrot.
    now rewrite guarded_two. }
  rewrite Hrun. unfold afterEngine. cbn [fst snd upd_log engine heap].
  assert (Heng : engine w1 = engine w ∧ heap w1 = heap w ∧ tiles w1 = tiles w
                 ∧ untiledWindows w1 = untiledWindows w ∧ host w1 = host w
                 ∧ calls w1 = calls w ∧ log w1 = log w).
  { subst w1. destruct (BiMap.has (clients w) window); repeat split. }
  destruct Heng as (He & Hh & Ht & Hu & Hho & Hca & Hlo). rewrite He, Hh.
  destruct (runEngine _ _ _ _) as [[made thrown] [d h]] eqn:Hmade. cbn.
  split; [reflexivity|]. split; [exact Hget|].
  split; [|split].
  { intros [c Hsome]. subst w1.
    assert (Hhas : BiMap.has (clients w) window = true)
      by (apply BiMap_has_get; eexists; eassumption).
    rewrite Hhas. split; reflexivity. }
  { intros Habsent. subst w1. apply BiMap_has_false in Habsent. rewrite Habsent.
    split; reflexivity. }
  split; [exact Ht|]. split; [exact Hu|]. split; [exact Hho|].
  split; [now rewrite Hca|]. split.
  { cbn in Hmade. destruct (Engine.putClientInTile _ _ _ _ _ _) as [[d1 h1] [e|]].
    - injection Hmade as <- _ _ _. now eexists.
    - destruct (Engine.buildLayout _ _ _) as [[d2 h2] [e|]];
        injection Hmade as <- _ _ _; now eexists. }
  split; [now rewrite Hlo, app_assoc|]. split; [exact Hnone|]. split; reflexivity.
Qed.

End PutWindowInTileMore.

Section AddWindowMore.
Context {P : Type}.
Implicit Types (w : World P).

(** [addWindow] on a window that is already tracked returns at once: no
    client is made, the engine is not called, no field changes. *)
Theorem addWindow_tracked_noop w window client :
  BiMap.get (clients w) window = Some client →
  addWindow window w = (Normal tt, w).
Proof.
  intros Hsome. unfold addWindow, method, mbind, M_bind, bind, gets.
  assert (Hhas : BiMap.has (clients w) window = true)
    by (apply BiMap_has_get; eexists; eassumption).
  now rewrite Hhas.
Qed.

Lemma activeChecks_fallsBack w client :
  fallsBack w → activeChecks client w = (Normal true, w).
Proof.
  unfold activeChecks, engineData, liveWindow, mbind, M_bind, bind, gets. cbn.
  intros [Hpolicy|[Hnone|(activeWindow & aw & Hactive & Haw & Htile)]].
  - destruct (Engine.insertionPoint _); [reflexivity|done].
  - destruct (Engine.insertionPoint _); [reflexivity|]. now rewrite Hnone.
  - destruct (Engine.insertionPoint _); [reflexivity|].
    rewrite Hactive. cbn. rewrite Haw. cbn.
    destruct Htile as [->|(activeTile & -> & Hreg)]; [reflexivity|].
    now rewrite Hreg.
Qed.

Lemma fallsBack_frame w w' :
  engine w' = engine w → host w' = host w → tiles w' = tiles w →
  fallsBack w → fallsBack w'.
Proof. unfold fallsBack. intros -> -> ->. done. Qed.

(** When active insertion is not to be used ([fallsBack]), [addWindow] on
    an untracked window registers a new client for it and hands the
    client to the engine's default placement: the engine's [addClient] is
    called and then, unless it threw, [buildLayout]; [putClientInTile]
    is not called. Both calls are inside the [try]: an exception is
    logged and [addWindow] returns normally. *)
Theorem addWindow_falls_back w window :
  BiMap.get (clients w) window = None →
  BiMap.consistent (clients w) →
  fallsBack w →
  let w' := (addWindow window w).2 in
  let client := nextClient w in
  let '(made, thrown, (d, h)) :=
    runEngine (Engine.methods (engine w)) [stepAddClient client; stepBuildLayout]
      (Engine.data (engine w)) (heap w) in
  (addWindow window w).1 = Normal tt
  ∧ clients w' = BiMap.set (clients w) window client
  ∧ BiMap.get (clients w') window = Some client
  ∧ nextClient w' = S client
  ∧ tiles w' = tiles w
  ∧ untiledWindows w' = untiledWindows w
  ∧ calls w' = calls w ++ made
  ∧ (∃ rest, made = CallAddClient client :: rest)
  ∧ log w' = log w ++ logged thrown
  ∧ Engine.data (engine w') = d
  ∧ heap w' = h.
Proof.
  intros Hnone Hc Hfb w' client. subst w'.
  rewrite addWindow_untracked by assumption. fold client.
  set (w1 := upd_clients _ _).
  assert (Hfb1 : fallsBack w1) by (now apply (fallsBack_frame w)).
  unfold method.
  rewrite (run_bind _ _ _ _ _ (activeChecks_fallsBack w1 client Hfb1)).
  rewrite guarded_two.
  change [(CallAddClient client, _); _] with [stepAddClient (P:=P) client; stepBuildLayout].
  unfold afterEngine. cbn [fst snd]. subst w1. cbn [upd_clients upd_nextClient engine heap].
  destruct (runEngine _ _ _ _) as [[made thrown] [d h]] eqn:Hrun. cbn.
  repeat split.
  - now apply BiMap_get_set_same.
  - cbn in Hrun. destruct (Engine.addClient _ _ _ _) as [[d1 h1] [e|]].
    + injection Hrun as <- _ _ _. now eexists.
    + destruct (Engine.buildLayout _ _ _) as [[d2 h2] [e|]];
        injection Hrun as <- _ _ _; now eexists.
Qed.

(** Under the "insert at active position" policy, with an active window
    whose live tile is registered, [addWindow] on an untracked window
    asks the engine to put the new client in the counterpart of that tile
    (without a direction). When that call returns, [addClient] is not
    called: the engine is asked for [buildLayout] only, inside the [try]
    (its exception is logged), and [addWindow] returns normally. *)
Theorem addWindow_active_placement w window activeWindow aw activeTile tile d1 h1 :
  BiMap.get (clients w) window = None →
  BiMap.consistent (clients w) →
  Engine.insertionPoint (Engine.config (Engine.data (engine w))) = Engine.Active →
  Kwin.activeWindow (host w) = Some activeWindow →
  Kwin.windowStore (host w) !! activeWindow = Some aw →
  Kwin.tile aw = Some activeTile →
  BiMap.get (tiles w) (Some activeTile) = Some tile →
  Engine.putClientInTile (Engine.methods (engine w)) (nextClient w) tile None
    (Engine.data (engine w)) (heap w) = (d1, h1, None) →
  let w' := (addWindow window w).2 in
  let client := nextClient w in
  let '(d2, h2, thrown) := Engine.buildLayout (Engine.methods (engine w)) d1 h1 in
  (addWindow window w).1 = Normal tt
  ∧ BiMap.get (clients w') window = Some client
  ∧ calls w' = calls w ++ [CallPutClientInTile client tile None; CallBuildLayout]
  ∧ log w' = log w ++ logged thrown
  ∧ tiles w' = tiles w
  ∧ Engine.data (engine w') = d2
  ∧ heap w' = h2.
Proof.
  intros Hnone Hc Hpolicy Hactive Haw Htile Hreg Hput w' client. subst w' client.
  rewrite addWindow_untracked by assumption.
  assert (Hget : BiMap.get (BiMap.set (clients w) window (nextClient w)) window
                 = Some (nextClient w))
    by now apply BiMap_get_set_same.
  unfold activeChecks, engineData, liveWindow, method, tryCatch, mbind, M_bind, bind, gets.
  cbn. rewrite Hpolicy. cbn. rewrite Hactive. cbn. rewrite Haw. cbn. rewrite Htile. cbn.
  rewrite Hreg. cbn. unfold callEngine; cbn. rewrite Hput. cbn.
  destruct (Engine.buildLayout _ d1 h1) as [[d2 h2] [e|]]; cbn;
    rewrite <- ?app_assoc, ?app_nil_r; repeat split; exact Hget.
Qed.

Lemma addWindow_keeps_tracked w window :
  BiMap.consistent (clients w) →
  is_Some (BiMap.get (clients (addWindow window w).2) window).
Proof.
  intros Hc. destruct (BiMap.get (clients w) window) as [client|] eqn:Hget.
  - assert (Hhas : BiMap.has (clients w) window = true)
      by (apply BiMap_has_get; eexists; eassumption).
    unfold addWindow, method, mbind, M_bind, bind, gets. rewrite Hhas. cbn.
    rewrite Hget. now eexists.
  - pose proof (addWindow_driverFields w window Hget) as H.
    unfold driverFields in H. cbn in H.
    assert (Hcl : clients (addWindow window w).2
                  = BiMap.set (clients w) window (nextClient w)) by congruence.
    rewrite Hcl, BiMap_get_set_same by assumption. now eexists.
Qed.

(** Adding a window twice is adding it once: however the first
    [addWindow] ended (even by an exception of the engine), the window is
    tracked afterwards, and a second [addWindow] changes nothing. *)
Theorem addWindow_twice w window :
  BiMap.consistent (clients w) →
  addWindow window (addWindow window w).2 = (Normal tt, (addWindow window w).2).
Proof.
  intros Hc. destruct (addWindow_keeps_tracked w window Hc) as [client Hget].
  assert (Hhas : BiMap.has (clients (addWindow window w).2) window = true)
    by (apply BiMap_has_get; eexists; eassumption).
  unfold addWindow at 1, method, mbind, M_bind, bind, gets. now rewrite Hhas.
Qed.

End AddWindowMore.

(** ** What the full rebuild leaves alone *)

Section BuildLayoutFrame.
Context {P : Type}.
Variable I : World P → Prop.
Hypothesis I_host : ∀ f w, I w → I (upd_host f w).
Hypothesis I_tiles : ∀ f w, I w → I (upd_tiles f w).
Hypothesis I_managedTiles : ∀ k w, I w → I (upd_managedTiles (λ s, {[k]} ∪ s) w).
Hypothesis I_windowExtensions : ∀ f w, I w → I (upd_windowExtensions f w).
Hypothesis I_log : ∀ f w, I w → I (upd_log f w).

Ltac frame_update :=
  first [ assumption | apply I_host | apply I_tiles | apply I_managedTiles
        | apply I_windowExtensions | apply I_log ]; try assumption.

Lemma frame_clearRoot fuel rootTile : preserves I (clearRoot fuel rootTile).
Proof using I_host. induction fuel as [|fuel IH]; cbn; pres frame_update. exact IH. Qed.

Lemma frame_findRealRoot fuel t : preserves I (findRealRoot fuel t).
Proof using Type.
  revert t. induction fuel as [|fuel IH]; intros t; cbn; pres frame_update; apply IH.
Qed.

Lemma frame_splitLoop kwinTile direction horizontal tilesLen i children queue :
  preserves I (splitLoop kwinTile direction horizontal tilesLen i children queue).
Proof using I_host I_tiles.
  revert i queue. induction children as [|child children IH]; intros i queue; cbn;
    pres frame_update; apply IH.
Qed.

Lemma frame_placeOccupant kwinTile occupant :
  preserves I (placeOccupant kwinTile occupant).
Proof using I_host I_windowExtensions I_log. unfold placeOccupant. pres frame_update. Qed.

Lemma frame_buildLoop fuel queue : preserves I (buildLoop fuel queue).
Proof using I_host I_tiles I_managedTiles I_windowExtensions I_log.
  revert queue. induction fuel as [|fuel IH]; intros queue; cbn; [pres frame_update|].
  destruct queue as [|tile queue]; pres frame_update;
    first [apply frame_splitLoop | apply frame_placeOccupant | apply IH].
Qed.

(** The part of [buildLayout] that follows the recomputation of the
    untracked list. *)
Lemma frame_layout fuel rootTile :
  preserves I
    ((e ← engineData; findRealRoot fuel (Engine.rootTile e)) ≫= λ realRootTile,
       rr ← abstractTile realRootTile;
       maximize ← gets maximizeSingle;
       if bool_decide (is_Some (Engine.client rr)) && (maximize : bool) then
         window ← gets (λ w, Engine.client rr ≫= BiMap.inverse_get (clients w));
         match window with
         | None => earlyReturn
         | Some window =>
             updWindow window (Kwin.setTile None);;
             updWindow window (Kwin.setMaximize true true);;
             earlyReturn
         end
       else
         modify (upd_tiles (λ m, BiMap.set m (Some rootTile) realRootTile));;
         buildLoop fuel [realRootTile];;
         fixSizing realRootTile rootTile).
Proof using I_host I_tiles I_managedTiles I_windowExtensions I_log.
  pres frame_update; first [apply frame_findRealRoot | apply frame_buildLoop].
Qed.

End BuildLayoutFrame.

Section BuildLayoutMore.
Context {P : Type}.
Implicit Types (w : World P).

Lemma frame_buildLayout (I : World P → Prop) fuel rootTile :
  (∀ f w, I w → I (upd_host f w)) →
  (∀ f w, I w → I (upd_tiles f w)) →
  (∀ f w, I w → I (upd_untiledWindows f w)) →
  (∀ k w, I w → I (upd_managedTiles (λ s, {[k]} ∪ s) w)) →
  (∀ f w, I w → I (upd_windowExtensions f w)) →
  (∀ f w, I w → I (upd_log f w)) →
  preserves I (buildLayout fuel rootTile).
Proof.
  intros Hh Ht Hu Hm He Hl. unfold buildLayout, prepareLayout.
  pres ltac:(first [assumption | apply Hh | apply Ht | apply Hu | apply Hm
                   | apply He | apply Hl]; try assumption);
    first [ apply frame_clearRoot | apply frame_findRealRoot | apply frame_buildLoop ];
    assumption.
Qed.

(** [buildLayout] works on the live side only: however it ends, and with
    any fuel, it has not called the engine, and the engine, the abstract
    tiles, the client-map and the engine type are as before; tiles are
    added to the set of managed tiles, none is taken out. *)
Theorem buildLayout_abstract_side w fuel rootTile :
  let w' := (buildLayout fuel rootTile w).2 in
  calls w' = calls w
  ∧ engine w' = engine w
  ∧ heap w' = heap w
  ∧ clients w' = clients w
  ∧ engineType w' = engineType w
  ∧ nextClient w' = nextClient w
  ∧ managedTiles w ⊆ managedTiles w'.
Proof.
  apply (frame_buildLayout
           (λ w', calls w' = calls w ∧ engine w' = engine w ∧ heap w' = heap w
                  ∧ clients w' = clients w ∧ engineType w' = engineType w
                  ∧ nextClient w' = nextClient w
                  ∧ managedTiles w ⊆ managedTiles w')); try (intros; assumption).
  - intros k w0 (? & ? & ? & ? & ? & ? & Hsub). repeat split; try assumption.
    cbn. set_solver.
  - repeat split; done.
Qed.

End BuildLayoutMore.

Section Untracked.
Context {P : Type}.
Implicit Types (w : World P).

(** [buildLayout] up to the recomputation of the untracked list. *)
Lemma buildLayout_recomputed w rootTile rt fuel :
  Kwin.tileStore (host w) !! rootTile = Some rt →
  rootTile ∉ Kwin.tiles rt →
  length (Kwin.tiles rt) < fuel →
  untiledWindows (buildLayout fuel rootTile w).2
  = omap (BiMap.inverse_get (clients w)) (Engine.untiledClients (Engine.data (engine w))).
Proof.
  intros Hroot Hnotin Hfuel.
  destruct (clearRoot_spec fuel rootTile w rt Hroot Hnotin Hfuel) as (store' & Hrun & _).
  unfold buildLayout, prepareLayout, method.
  rewrite !bind_assoc. rewrite (run_bind _ _ _ _ _ Hrun).
  rewrite !bind_assoc. unfold mbind at 1, M_bind at 1, bind at 1, modify at 1.
  rewrite !bind_assoc. unfold mbind at 1, M_bind at 1, bind at 1, modify at 1.
  rewrite !bind_assoc. unfold mbind at 1, M_bind at 1, bind at 1, engineData at 1, gets at 1.
  rewrite !bind_assoc. rewrite (run_bind _ _ _ _ _ (recomputeUntiled_spec _ _)).
  match goal with
  | |- untiledWindows (match ?m ?w0 with _ => _ end).2 = _ =>
      assert (Hp : preserves (λ w', untiledWindows w' = untiledWindows w0) m);
      [|specialize (Hp w0 eq_refl); destruct (m w0) as [[[]| |e|] w']; cbn in Hp |- *;
        rewrite Hp; reflexivity]
  end.
  pres assumption;
    first [ apply (frame_findRealRoot (λ w', untiledWindows w' = _))
          | apply (frame_buildLoop (λ w', untiledWindows w' = _)) ];
    intros; assumption.
Qed.

End Untracked.

Section UntrackedTheorems.
Context {P : Type}.
Implicit Types (w : World P).

(** Once the clearing loop of [buildLayout] is through (the live root
    exists and there is fuel for its children), the untracked list is the
    one recomputed from the engine, however the rest of [buildLayout]
    ends: it holds, in the engine's order, the windows of the engine's
    unplaced clients; with a consistent client-map, a window is in the
    list exactly if it is tracked and its client is one of those. What
    the list held before is dropped. *)
Theorem buildLayout_untracked_list w rootTile rt fuel :
  Kwin.tileStore (host w) !! rootTile = Some rt →
  rootTile ∉ Kwin.tiles rt →
  length (Kwin.tiles rt) < fuel →
  BiMap.consistent (clients w) →
  let w' := (buildLayout fuel rootTile w).2 in
  untiledWindows w'
  = omap (BiMap.inverse_get (clients w)) (Engine.untiledClients (Engine.data (engine w)))
  ∧ ∀ window,
      window ∈ untiledWindows w'
      ↔ ∃ client, client ∈ Engine.untiledClients (Engine.data (engine w))
                  ∧ BiMap.get (clients w) window = Some client.
Proof.
  intros Hroot Hnotin Hfuel Hc w'. subst w'.
  rewrite (buildLayout_recomputed w rootTile rt fuel) by assumption.
  split; [reflexivity|]. intros window. rewrite list_elem_of_omap.
  split; intros (client & Hin & Hget); exists client; (split; [exact Hin|]);
    now apply Hc.
Qed.

(** [removeWindow] appends the window to the untracked list, and the
    next [buildLayout] takes it out again: the list is recomputed from
    the client-map, which no longer knows the window. *)
Theorem removeWindow_then_buildLayout w window client rootTile rt fuel :
  BiMap.consistent (clients w) →
  BiMap.get (clients w) window = Some client →
  Kwin.tileStore (host w) !! rootTile = Some rt →
  rootTile ∉ Kwin.tiles rt →
  length (Kwin.tiles rt) < fuel →
  let w1 := (removeWindow window w).2 in
  window ∈ untiledWindows w1
  ∧ window ∉ untiledWindows (buildLayout fuel rootTile w1).2.
Proof.
  intros Hc Hget Hroot Hnotin Hfuel w1.
  pose proof (removeWindow_driverFields w window client Hget) as Hfields.
  fold w1 in Hfields. unfold driverFields in Hfields. cbn in Hfields.
  assert (Hclients : clients w1 = BiMap.delete (clients w) window) by congruence.
  assert (Huntiled : untiledWindows w1 = untiledWindows w ++ [window]) by congruence.
  assert (Hhost : host w1 = host w).
  { subst w1. rewrite (removeWindow_tracked _ _ client) by assumption.
    apply (preserves_method (λ w', host w' = host w)); [|reflexivity].
    pres assumption. }
  split.
  - rewrite Huntiled. set_solver.
  - rewrite (buildLayout_recomputed w1 rootTile rt fuel) by (rewrite ?Hhost; assumption).
    rewrite list_elem_of_omap. intros (c & _ & Hinv).
    assert (Hc1 : BiMap.consistent (clients w1)).
    { rewrite Hclients. now apply BiMap_delete_consistent. }
    apply Hc1 in Hinv. rewrite Hclients, BiMap_get_delete in Hinv.
    now destruct (decide (window = window)).
Qed.

End UntrackedTheorems.

Section LeafRoot.
Context {P : Type}.
Implicit Types (w : World P).

(** Placing the occupant of a tile whose window is known: what the
    window and its record have become. *)
Lemma placeOccupant_run w kwinTile kt client window kw extensions :
  BiMap.inverse_get (clients w) client = Some window →
  windowExtensions w !! window = Some extensions →
  Kwin.windowStore (host w) !! window = Some kw →
  Kwin.tileStore (host w) !! kwinTile = Some kt →
  ∃ kw',
    placeOccupant kwinTile (Some client) w
    = (Normal tt,
       upd_windowExtensions
         (<[window := with_lastTiledLocation
                        (Geometry.centerOfRect (Kwin.absoluteGeometry (host w) kt))
                        extensions]>)
         (upd_host (Kwin.with_windowStore (<[window := kw']>)) w))
    ∧ Kwin.tile kw' = Some kwinTile
    ∧ Kwin.minimized kw' = false
    ∧ Kwin.fullScreen kw' = false
    ∧ Kwin.frameGeometry kw' = Kwin.frameGeometry kw
    ∧ (maximized extensions = true →
       Kwin.maximizedVertically kw' = false ∧ Kwin.maximizedHorizontally kw' = false)
    ∧ (maximized extensions = false →
       Kwin.maximizedVertically kw' = Kwin.maximizedVertically kw
       ∧ Kwin.maximizedHorizontally kw' = Kwin.maximizedHorizontally kw).
Proof.
  intros Hwindow Hext Hkw Hkt.
  unfold placeOccupant.
  unfold mbind at 1, M_bind at 1, bind at 1, gets at 1. rewrite Hwindow.
  unfold mbind at 1, M_bind at 1, bind at 1, gets at 1. rewrite Hext.
  rewrite (run_bind _ _ _ _ _ (run_updWindow _ _ _ _ Hkw)).
  erewrite run_bind; [|apply run_updWindow; cbn; apply lookup_insert_eq].
  unfold mbind at 1, M_bind at 1, bind at 1, defined at 1, ret at 1.
  destruct (maximized extensions).
  - erewrite run_bind; [|apply run_updWindow; cbn; apply lookup_insert_eq].
    erewrite run_bind; [|apply run_updWindow; cbn; apply lookup_insert_eq].
    erewrite run_bind; [|apply run_liveTile; cbn; exact Hkt].
    unfold mbind, M_bind, bind, gets, modify. cbn.
    rewrite !insert_insert_eq.
    eexists. split; [reflexivity|]. cbn. repeat split; discriminate.
  - unfold mbind at 1, M_bind at 1, bind at 1, ret at 1.
    erewrite run_bind; [|apply run_updWindow; cbn; apply lookup_insert_eq].
    erewrite run_bind; [|apply run_liveTile; cbn; exact Hkt].
    unfold mbind, M_bind, bind, gets, modify. cbn.
    rewrite !insert_insert_eq.
    eexists. split; [reflexivity|]. cbn. repeat split; discriminate.
Qed.

Lemma BiMap_singleton {K V} `{EqDecision K} `{EqDecision V} (k : K) (v : V) :
  BiMap.set BiMap.empty k v = BiMap.mk [(k, v)] [(v, k)].
Proof. reflexivity. Qed.

Lemma BiMap_singleton_inverse {K V} `{EqDecision K} `{EqDecision V} (k : K) (v : V) :
  BiMap.inverse_get (BiMap.set BiMap.empty k v) v = Some k.
Proof.
  rewrite BiMap_singleton. unfold BiMap.inverse_get. cbn. now rewrite decide_True.
Qed.

(** With "maximize single window" off, a tree that comes down to one
    occupied leaf is laid out in the live root itself: [buildLayout]
    (given enough fuel) maps the live root, cleared of its children, to
    the leaf, gives it the leaf's layout direction, and assigns it to
    the occupant's window, which is taken out of the minimized and the
    full-screen state (and out of the maximized state if its record says
    it is maximized); the record of the window gets the centre of the
    root's absolute geometry as last tiled location. Nothing is
    logged. *)
Theorem buildLayout_single_tiled w rootTile rt r rr client window kw extensions :
  maximizeSingle w = false →
  Kwin.tileStore (host w) !! rootTile = Some rt →
  rootTile ∉ Kwin.tiles rt →
  effectiveRoot (Engine.tileStore (heap w)) (Engine.rootTile (Engine.data (engine w))) r →
  Engine.tileStore (heap w) !! r = Some rr →
  Engine.tiles rr = [] →
  Engine.client rr = Some client →
  BiMap.inverse_get (clients w) client = Some window →
  Kwin.windowStore (host w) !! window = Some kw →
  windowExtensions w !! window = Some extensions →
  ∃ N, ∀ fuel, N ≤ fuel →
    let w' := (buildLayout fuel rootTile w).2 in
    (buildLayout fuel rootTile w).1 = Normal tt
    ∧ tiles w' = BiMap.set BiMap.empty (Some rootTile) r
    ∧ Kwin.tileStore (host w') !! rootTile
      = Some (Kwin.with_layoutDirection (Engine.layoutDirection rr) (Kwin.with_tiles [] rt))
    ∧ (∃ kw', Kwin.windowStore (host w') !! window = Some kw'
              ∧ Kwin.tile kw' = Some rootTile
              ∧ Kwin.minimized kw' = false
              ∧ Kwin.fullScreen kw' = false
              ∧ (maximized extensions = true →
                 Kwin.maximizedVertically kw' = false
                 ∧ Kwin.maximizedHorizontally kw' = false))
    ∧ windowExtensions w' !! window
      = Some (with_lastTiledLocation
                (Geometry.centerOfRect (Kwin.absoluteGeometry (host w) rt)) extensions)
    ∧ Some rootTile ∈ managedTiles w'
    ∧ log w' = log w.
Proof.
  intros Hmax Hroot Hnotin Heff Hr Htiles Hclient Hwindow Hkw Hext.
  destruct (prepareLayout_spec w rootTile rt r Hroot Hnotin Heff) as [N HN].
  exists (N + 2). intros fuel Hfuel.
  destruct (HN fuel ltac:(lia)) as (store' & Hrun & Hroot' & _).
  destruct fuel as [|[|fuel]]; [lia..|].
  destruct (buildLayout (S (S fuel)) rootTile w) as [c w'] eqn:Hres.
  unfold buildLayout, method in Hres.
  unfold mbind at 1, M_bind at 1, bind at 1 in Hres. rewrite Hrun in Hres.
  erewrite run_bind in Hres; [|apply run_abstractTile; exact Hr].
  unfold mbind at 1, M_bind at 1, bind at 1, gets at 1 in Hres.
  cbn [maximizeSingle upd_untiledWindows upd_tiles upd_host] in Hres.
  rewrite Hmax, andb_false_r in Hres.
  unfold mbind at 1, M_bind at 1, bind at 1, modify at 1 in Hres.
  set (w1 := upd_tiles _ _) in Hres.
  assert (Hloop : ∃ kw',
    buildLoop (S (S fuel)) [r] w1
    = (Normal tt,
       upd_windowExtensions
         (<[window := with_lastTiledLocation
                        (Geometry.centerOfRect (Kwin.absoluteGeometry (host w) rt))
                        extensions]>)
         (upd_host
            (λ h, Kwin.with_windowStore (<[window := kw']>)
                    (Kwin.with_tileStore
                       (<[rootTile := Kwin.with_layoutDirection (Engine.layoutDirection rr)
                                        (Kwin.with_tiles [] rt)]>) h))
            (upd_managedTiles (λ s, {[Some rootTile]} ∪ s) w1)))
    ∧ Kwin.tile kw' = Some rootTile
    ∧ Kwin.minimized kw' = false
    ∧ Kwin.fullScreen kw' = false
    ∧ (maximized extensions = true →
       Kwin.maximizedVertically kw' = false ∧ Kwin.maximizedHorizontally kw' = false)).
  { cbn [buildLoop].
    unfold mbind at 1, M_bind at 1, bind at 1, gets at 1.
    assert (Hinv : BiMap.inverse_get (tiles w1) r = Some (Some rootTile))
      by (subst w1; cbn; apply BiMap_singleton_inverse).
    rewrite Hinv. cbn [mjoin option_join].
    unfold mbind at 1, M_bind at 1, bind at 1, modify at 1.
    erewrite run_bind; [|apply run_abstractTile; exact Hr].
    unfold mbind at 1, M_bind at 1, bind at 1, defined at 1, ret at 1.
    erewrite run_bind; [|apply run_updLiveTile; subst w1; cbn; exact Hroot'].
    erewrite run_bind; [|apply run_liveTile; cbn; apply lookup_insert_eq].
    rewrite Htiles. cbn [length]. destruct (decide (1 < 0)) as [Hlt|_]; [lia|].
    unfold mbind at 1, M_bind at 1, bind at 1, ret at 1.
    rewrite Hclient.
    edestruct (placeOccupant_run
                 (upd_host (Kwin.with_tileStore
                              (<[rootTile := Kwin.with_layoutDirection (Engine.layoutDirection rr)
                                               (Kwin.with_tiles [] rt)]>))
                    (upd_managedTiles (λ s, {[Some rootTile]} ∪ s) w1))
                 rootTile (Kwin.with_layoutDirection (Engine.layoutDirection rr)
                             (Kwin.with_tiles [] rt))
                 client window kw extensions)
      as (kw' & Hplace & Ht & Hm & Hf & _ & Hx & _);
      [exact Hwindow|exact Hext|exact Hkw|cbn; apply lookup_insert_eq|].
    erewrite run_bind; [|exact Hplace].
    exists kw'. split; [|done]. reflexivity. }
  destruct Hloop as (kw' & Hloop & Ht & Hm & Hf & Hx).
  rewrite (run_bind _ _ _ _ _ Hloop) in Hres.
  unfold fixSizing, ret in Hres. injection Hres as <- <-.
  cbn. split; [reflexivity|]. split; [reflexivity|].
  split; [apply lookup_insert_eq|]. split.
  { exists kw'. exact (conj (lookup_insert_eq _ _ _) (conj Ht (conj Hm (conj Hf Hx)))). }
  split; [apply lookup_insert_eq|]. split; [|reflexivity].
  apply elem_of_union. left. now apply elem_of_singleton.
Qed.

Lemma placeOccupant_missing w kwinTile client :
  BiMap.inverse_get (clients w) client = None →
  placeOccupant kwinTile (Some client) w
  = (Return, upd_log (λ l, l ++ [ErrorClientMissing client]) w).
Proof.
  intros Hwindow. unfold placeOccupant.
  unfold mbind at 1, M_bind at 1, bind at 1, gets at 1. now rewrite Hwindow.
Qed.

Lemma run_bind_return {A B} (m : M P A) (f : A → M P B) w w' :
  m w = (Return, w') → (m ≫= f) w = (Return, w').
Proof. intros H. unfold mbind, M_bind, bind. now rewrite H. Qed.

(** With "maximize single window" off, when the occupant of the leaf
    the tree comes down to has no entry in the client-map, [buildLayout]
    (given enough fuel) logs that the client does not exist and returns:
    the live root has been cleared, mapped to the leaf and given its
    layout direction, and no window has been touched. *)
Theorem buildLayout_occupant_missing w rootTile rt r rr client :
  maximizeSingle w = false →
  Kwin.tileStore (host w) !! rootTile = Some rt →
  rootTile ∉ Kwin.tiles rt →
  effectiveRoot (Engine.tileStore (heap w)) (Engine.rootTile (Engine.data (engine w))) r →
  Engine.tileStore (heap w) !! r = Some rr →
  Engine.tiles rr = [] →
  Engine.client rr = Some client →
  BiMap.inverse_get (clients w) client = None →
  ∃ N, ∀ fuel, N ≤ fuel →
    let w' := (buildLayout fuel rootTile w).2 in
    (buildLayout fuel rootTile w).1 = Normal tt
    ∧ log w' = log w ++ [ErrorClientMissing client]
    ∧ tiles w' = BiMap.set BiMap.empty (Some rootTile) r
    ∧ Kwin.tileStore (host w') !! rootTile
      = Some (Kwin.with_layoutDirection (Engine.layoutDirection rr) (Kwin.with_tiles [] rt))
    ∧ Kwin.windowStore (host w') = Kwin.windowStore (host w)
    ∧ windowExtensions w' = windowExtensions w.
Proof.
  intros Hmax Hroot Hnotin Heff Hr Htiles Hclient Hwindow.
  destruct (prepareLayout_spec w rootTile rt r Hroot Hnotin Heff) as [N HN].
  exists (N + 1). intros fuel Hfuel.
  destruct (HN fuel ltac:(lia)) as (store' & Hrun & Hroot' & _).
  destruct fuel as [|fuel]; [lia|].
  destruct (buildLayout (S fuel) rootTile w) as [c w'] eqn:Hres.
  unfold buildLayout, method in Hres.
  unfold mbind at 1, M_bind at 1, bind at 1 in Hres. rewrite Hrun in Hres.
  erewrite run_bind in Hres; [|apply run_abstractTile; exact Hr].
  unfold mbind at 1, M_bind at 1, bind at 1, gets at 1 in Hres.
  cbn [maximizeSingle upd_untiledWindows upd_tiles upd_host] in Hres.
  rewrite Hmax, andb_false_r in Hres.
  unfold mbind at 1, M_bind at 1, bind at 1, modify at 1 in Hres.
  set (w1 := upd_tiles _ _) in Hres.
  assert (Hinv : BiMap.inverse_get (tiles w1) r = Some (Some rootTile))
    by (subst w1; cbn; apply BiMap_singleton_inverse).
  set (w2 := upd_host (Kwin.with_tileStore
                         (<[rootTile := Kwin.with_layoutDirection (Engine.layoutDirection rr)
                                          (Kwin.with_tiles [] rt)]>))
               (upd_managedTiles (λ s, {[Some rootTile]} ∪ s) w1)).
  assert (Hloop : buildLoop (S fuel) [r] w1
                  = (Return, upd_log (λ l, l ++ [ErrorClientMissing client]) w2)).
  { cbn [buildLoop].
    unfold mbind at 1, M_bind at 1, bind at 1, gets at 1.
    rewrite Hinv. cbn [mjoin option_join].
    unfold mbind at 1, M_bind at 1, bind at 1, modify at 1.
    erewrite run_bind; [|apply run_abstractTile; exact Hr].
    unfold mbind at 1, M_bind at 1, bind at 1, defined at 1, ret at 1.
    erewrite run_bind; [|apply run_updLiveTile; subst w1; cbn; exact Hroot'].
    erewrite run_bind; [|apply run_liveTile; cbn; apply lookup_insert_eq].
    rewrite Htiles. cbn [length]. destruct (decide (1 < 0)) as [Hlt|_]; [lia|].
    unfold mbind at 1, M_bind at 1, bind at 1, ret at 1.
    rewrite Hclient.
    apply run_bind_return. apply placeOccupant_missing. exact Hwindow. }
  rewrite (run_bind_return _ _ _ _ Hloop) in Hres.
  injection Hres as <- <-. subst w2 w1. cbn.
  repeat split. apply lookup_insert_eq.
Qed.

End LeafRoot.

Section MaximizeTwice.
Context {P : Type}.
Implicit Types (w : World P).

Lemma clearRoot_childless fuel w rootTile rt :
  Kwin.tileStore (host w) !! rootTile = Some rt →
  Kwin.tiles rt = [] →
  clearRoot (S fuel) rootTile w = (Normal tt, w).
Proof.
  intros Hroot Htiles. cbn [clearRoot].
  rewrite (run_bind _ _ _ _ _ (run_liveTile _ _ _ Hroot)). now rewrite Htiles.
Qed.

(** The maximizing branch of [buildLayout], from the world that the
    first part leaves. *)
Lemma buildLayout_maximize_run w rootTile rt r rr client window kw fuel N :
  maximizeSingle w = true →
  Kwin.tileStore (host w) !! rootTile = Some rt →
  rootTile ∉ Kwin.tiles rt →
  (∀ fuel (w0 : World P), N ≤ fuel →
     Engine.tileStore (heap w0) = Engine.tileStore (heap w) →
     findRealRoot fuel (Engine.rootTile (Engine.data (engine w))) w0 = (Normal r, w0)) →
  Engine.tileStore (heap w) !! r = Some rr →
  Engine.client rr = Some client →
  BiMap.inverse_get (clients w) client = Some window →
  Kwin.windowStore (host w) !! window = Some kw →
  length (Kwin.tiles rt) < fuel →
  N ≤ fuel →
  ∃ store',
    buildLayout fuel rootTile w
    = (Normal tt,
       upd_host
         (Kwin.with_windowStore
            (<[window := Kwin.setMaximize true true (Kwin.setTile None kw)]>))
         (upd_untiledWindows
            (λ _, omap (BiMap.inverse_get (clients w))
                    (Engine.untiledClients (Engine.data (engine w))))
            (upd_tiles (λ _, BiMap.empty)
               (upd_host (Kwin.with_tileStore (λ _, store')) w))))
    ∧ store' !! rootTile = Some (Kwin.with_tiles [] rt).
Proof.
  intros Hmax Hroot Hnotin Hfind Hr Hclient Hwindow Hkw Hfuel HN.
  destruct (clearRoot_spec fuel rootTile w rt Hroot Hnotin Hfuel)
    as (store' & Hrun & Hroot' & _).
  exists store'. split; [|exact Hroot'].
  unfold buildLayout, prepareLayout, method.
  rewrite !bind_assoc. rewrite (run_bind _ _ _ _ _ Hrun).
  rewrite !bind_assoc. unfold mbind at 1, M_bind at 1, bind at 1, modify at 1.
  rewrite !bind_assoc. unfold mbind at 1, M_bind at 1, bind at 1, modify at 1.
  rewrite !bind_assoc. unfold mbind at 1, M_bind at 1, bind at 1, engineData at 1, gets at 1.
  rewrite !bind_assoc. rewrite (run_bind _ _ _ _ _ (recomputeUntiled_spec _ _)).
  rewrite !bind_assoc. unfold mbind at 1, M_bind at 1, bind at 1, engineData at 1, gets at 1.
  cbn [engine upd_untiledWindows upd_tiles upd_host].
  erewrite run_bind; [|apply Hfind; [exact HN|reflexivity]].
  erewrite run_bind; [|apply run_abstractTile; exact Hr].
  unfold mbind at 1, M_bind at 1, bind at 1, gets at 1.
  cbn [maximizeSingle]. rewrite Hmax, Hclient.
  rewrite bool_decide_eq_true_2 by (now eexists). cbn [andb].
  unfold mbind at 1, M_bind at 1, bind at 1, gets at 1. cbn [clients mbind option_bind].
  rewrite Hwindow.
  erewrite run_bind; [|apply run_updWindow; cbn; exact Hkw].
  erewrite run_bind; [|apply run_updWindow; cbn; apply lookup_insert_eq].
  unfold earlyReturn. cbn. now rewrite insert_insert_eq.
Qed.

(** [buildLayout] on a world that is already laid out for a single
    maximized window. *)
Lemma buildLayout_maximized_again w rootTile rt r rr client window kw fuel N :
  maximizeSingle w = true →
  Kwin.tileStore (host w) !! rootTile = Some rt →
  Kwin.tiles rt = [] →
  (∀ fuel (w0 : World P), N ≤ fuel →
     Engine.tileStore (heap w0) = Engine.tileStore (heap w) →
     findRealRoot fuel (Engine.rootTile (Engine.data (engine w))) w0 = (Normal r, w0)) →
  Engine.tileStore (heap w) !! r = Some rr →
  Engine.client rr = Some client →
  BiMap.inverse_get (clients w) client = Some window →
  Kwin.windowStore (host w) !! window = Some kw →
  Kwin.tile kw = None →
  Kwin.maximizedVertically kw = true →
  Kwin.maximizedHorizontally kw = true →
  tiles w = BiMap.empty →
  untiledWindows w
  = omap (BiMap.inverse_get (clients w)) (Engine.untiledClients (Engine.data (engine w))) →
  0 < fuel →
  N ≤ fuel →
  buildLayout fuel rootTile w = (Normal tt, w).
Proof.
  intros Hmax Hroot Hchildless Hfind Hr Hclient Hwindow Hkw Htile Hv Hh Htiles Huntiled
    Hfuel HN.
  destruct fuel as [|fuel]; [lia|].
  unfold buildLayout, prepareLayout, method.
  rewrite !bind_assoc.
  rewrite (run_bind _ _ _ _ _ (clearRoot_childless _ _ _ _ Hroot Hchildless)).
  rewrite !bind_assoc. unfold mbind at 1, M_bind at 1, bind at 1, modify at 1.
  rewrite !bind_assoc. unfold mbind at 1, M_bind at 1, bind at 1, modify at 1.
  rewrite !bind_assoc. unfold mbind at 1, M_bind at 1, bind at 1, engineData at 1, gets at 1.
  rewrite !bind_assoc. rewrite (run_bind _ _ _ _ _ (recomputeUntiled_spec _ _)).
  rewrite !bind_assoc. unfold mbind at 1, M_bind at 1, bind at 1, engineData at 1, gets at 1.
  cbn [engine upd_untiledWindows upd_tiles upd_host].
  erewrite run_bind; [|apply Hfind; [exact HN|reflexivity]].
  erewrite run_bind; [|apply run_abstractTile; exact Hr].
  unfold mbind at 1, M_bind at 1, bind at 1, gets at 1.
  cbn [maximizeSingle]. rewrite Hmax, Hclient.
  rewrite bool_decide_eq_true_2 by (now eexists). cbn [andb].
  unfold mbind at 1, M_bind at 1, bind at 1, gets at 1. cbn [clients mbind option_bind].
  rewrite Hwindow.
  erewrite run_bind; [|apply run_updWindow; cbn; exact Hkw].
  erewrite run_bind; [|apply run_updWindow; cbn; apply lookup_insert_eq].
  unfold earlyReturn. f_equal.
  apply world_eq; cbn; try reflexivity.
  all: try (now rewrite Htiles).
  all: try (now rewrite Huntiled).
  all: try (now rewrite Hmax).
  rewrite insert_insert_eq.
  assert (Hsame : Kwin.mkWindow None (Kwin.frameGeometry kw) (Kwin.minimized kw)
                    (Kwin.fullScreen kw) true true = kw).
  { destruct kw; cbn in *; subst; reflexivity. }
  rewrite Hsame, insert_id by assumption. now destruct (host w).
Qed.

(** In the single-window case of C3 a second [buildLayout] changes
    nothing: run on the world that the first one left (each with enough
    fuel), [buildLayout] returns normally and leaves that world exactly
    as it is. *)
Theorem buildLayout_maximize_idempotent w rootTile rt r rr client window kw :
  maximizeSingle w = true →
  Kwin.tileStore (host w) !! rootTile = Some rt →
  rootTile ∉ Kwin.tiles rt →
  effectiveRoot (Engine.tileStore (heap w)) (Engine.rootTile (Engine.data (engine w))) r →
  Engine.tileStore (heap w) !! r = Some rr →
  Engine.client rr = Some client →
  BiMap.inverse_get (clients w) client = Some window →
  Kwin.windowStore (host w) !! window = Some kw →
  ∃ N, ∀ fuel fuel', N ≤ fuel → N ≤ fuel' →
    let w' := (buildLayout fuel rootTile w).2 in
    (buildLayout fuel rootTile w).1 = Normal tt
    ∧ buildLayout fuel' rootTile w' = (Normal tt, w').
Proof.
  intros Hmax Hroot Hnotin Heff Hr Hclient Hwindow Hkw.
  destruct (findRealRoot_spec (P:=P) _ _ _ Heff) as [N HN].
  exists (S (length (Kwin.tiles rt)) + N). intros fuel fuel' Hfuel Hfuel'.
  assert (Hfind : ∀ fuel (w0 : World P), N ≤ fuel →
            Engine.tileStore (heap w0) = Engine.tileStore (heap w) →
            findRealRoot fuel (Engine.rootTile (Engine.data (engine w))) w0
            = (Normal r, w0)) by (intros; now apply HN).
  destruct (buildLayout_maximize_run w rootTile rt r rr client window kw fuel N)
    as (store' & Hrun & Hroot'); try assumption; try lia.
  rewrite Hrun. cbn [fst snd]. split; [reflexivity|].
  apply (buildLayout_maximized_again _ rootTile (Kwin.with_tiles [] rt) r rr client window
           (Kwin.setMaximize true true (Kwin.setTile None kw)) fuel' N);
    try reflexivity; try assumption; try lia.
  cbn. apply lookup_insert_eq.
Qed.

End MaximizeTwice.

(** ** More on the incremental walk *)

Section RegenerateMore.
Context {P : Type}.
Implicit Types (w : World P).

(** The geometry that the logger is given for a live tile. *)
Lemma run_loggedGeometry w kwinTile :
  loggedGeometry kwinTile w
  = (Normal (Kwin.absoluteGeometry (host w) <$> Kwin.tileStore (host w) !! kwinTile), w).
Proof. reflexivity. Qed.

Lemma regenerateLoop_unregistered fuel w kwinTile queue :
  BiMap.get (tiles w) (Some kwinTile) = None →
  regenerateLoop (S fuel) (kwinTile :: queue) w
  = regenerateLoop fuel queue
      (upd_log (λ l, l ++ [ErrorTileNotRegistered
                             (Kwin.absoluteGeometry (host w)
                                <$> Kwin.tileStore (host w) !! kwinTile)]) w).
Proof.
  intros Hnone. cbn [regenerateLoop].
  unfold mbind at 1, M_bind at 1, bind at 1, gets at 1. rewrite Hnone.
  rewrite (run_bind _ _ _ _ _ (run_loggedGeometry _ _)).
  unfold logError, modify, mbind, M_bind, bind. reflexivity.
Qed.

Lemma regenerateLoop_done fuel w : regenerateLoop (S fuel) [] w = (Normal tt, w).
Proof. reflexivity. Qed.

Lemma regenerateLayout_after_walk fuel rootTile w w1 :
  regenerateLoop fuel [rootTile] w = (Normal tt, w1) →
  regenerateLayout fuel rootTile w
  = (Normal tt, afterEngine w1 [stepRegenerateLayout; stepBuildLayout]).
Proof.
  intros Hwalk. unfold regenerateLayout.
  rewrite (run_bind _ _ _ _ _ Hwalk). now rewrite guarded_two.
Qed.

(** [regenerateLayout] on a live root that is not in the tile-map logs
    that the tile is not registered and goes no further down: the tiles
    below the root are not looked at, the tile-map, the abstract tiles
    and the live side stay as they are. The engine is still asked for
    [regenerateLayout] and then (unless that threw) for [buildLayout];
    an exception is logged, and [regenerateLayout] returns normally. *)
Theorem regenerateLayout_unregistered_root w rootTile fuel :
  BiMap.get (tiles w) (Some rootTile) = None →
  2 ≤ fuel →
  let w' := (regenerateLayout fuel rootTile w).2 in
  let '(made, thrown, (d, h)) :=
    runEngine (Engine.methods (engine w)) [stepRegenerateLayout; stepBuildLayout]
      (Engine.data (engine w)) (heap w) in
  (regenerateLayout fuel rootTile w).1 = Normal tt
  ∧ log w'
    = log w
      ++ [ErrorTileNotRegistered
            (Kwin.absoluteGeometry (host w) <$> Kwin.tileStore (host w) !! rootTile)]
      ++ logged thrown
  ∧ calls w' = calls w ++ made
  ∧ (∃ rest, made = CallRegenerateLayout :: rest)
  ∧ tiles w' = tiles w
  ∧ host w' = host w
  ∧ Engine.data (engine w') = d
  ∧ heap w' = h.
Proof.
  intros Hnone Hfuel w'. subst w'.
  destruct fuel as [|[|fuel]]; [lia..|].
  erewrite regenerateLayout_after_walk;
    [|rewrite regenerateLoop_unregistered by assumption; apply regenerateLoop_done].
  unfold afterEngine. cbn [fst snd upd_log engine heap].
  destruct (runEngine _ _ _ _) as [[made thrown] [d h]] eqn:Hrun. cbn.
  repeat split.
  - now rewrite <- app_assoc.
  - cbn in Hrun. destruct (Engine.regenerateLayout _ _ _) as [[d1 h1] [e|]].
    + injection Hrun as <- _ _ _. now eexists.
    + destruct (Engine.buildLayout _ _ _) as [[d2 h2] [e|]];
        injection Hrun as <- _ _ _; now eexists.
Qed.

End RegenerateMore.

Section WalkSizes.
Context {P : Type}.
Implicit Types (w : World P).

Lemma walk_visited_registered store m queue visited skipped k t :
  walk store m queue visited skipped → (k, t) ∈ visited →
  BiMap.get m (Some k) = Some t.
Proof.
  intros Hwalk Hin.
  induction Hwalk as [|? ? ? ? ? _ IHw|? ? ? ? ? ? Hr ? _ IHw].
  - now apply elem_of_nil in Hin.
  - now apply IHw.
  - apply elem_of_cons in Hin as [Heq|Hin]; [congruence|now apply IHw].
Qed.

(** The walk of an engine whose tiles are not mutable. *)
Lemma regenerateLoop_walk store m queue visited skipped :
  walk store m queue visited skipped →
  BiMap.consistent m →
  ∀ w fuel,
    Kwin.tileStore (host w) = store →
    tiles w = m →
    tilesMutable w = false →
    (∀ kwinTile tile, (kwinTile, tile) ∈ visited →
       is_Some (Engine.tileStore (heap w) !! tile)) →
    length visited + length skipped < fuel →
    ∃ w1,
      regenerateLoop fuel queue w = (Normal tt, w1)
      ∧ tiles w1 = tiles w
      ∧ host w1 = host w
      ∧ engine w1 = engine w
      ∧ calls w1 = calls w
      ∧ log w1
        = log w ++ map (λ k, ErrorTileNotRegistered
                               (Kwin.absoluteGeometry (host w) <$> store !! k)) skipped
      ∧ (∀ kwinTile tile kt tl,
           (kwinTile, tile) ∈ visited →
           store !! kwinTile = Some kt →
           Engine.tileStore (heap w) !! tile = Some tl →
           Engine.tileStore (heap w1) !! tile
           = Some (Engine.with_requestedSize
                     (Some (Geometry.fromRect (Kwin.absoluteGeometry (host w) kt))) tl))
      ∧ (∀ t, (∀ kwinTile, (kwinTile, t) ∉ visited) →
           Engine.tileStore (heap w1) !! t = Engine.tileStore (heap w) !! t).
Proof.
  intros Hwalk Hc.
  induction Hwalk as [|kwinTile queue visited skipped Hnone _ IH
                      |kwinTile tile kt queue visited skipped Hreg Hkt Hsub IH];
    intros w fuel Hstore Htiles Hmut Hheap Hfuel.
  - destruct fuel as [|fuel]; [cbn in Hfuel; lia|].
    exists w. rewrite regenerateLoop_done. cbn. rewrite app_nil_r.
    repeat split. intros ? ? ? ? Hin. now apply elem_of_nil in Hin.
  - destruct fuel as [|fuel]; [lia|].
    rewrite regenerateLoop_unregistered by (rewrite Htiles; exact Hnone).
    set (w0 := upd_log _ w).
    destruct (IH w0 fuel) as (w1 & Hrun & Ht & Hh & He & Hca & Hlog & Hsize & Hframe);
      try assumption; [cbn in *; lia|].
    exists w1. split; [exact Hrun|]. rewrite Ht, Hh, He, Hca.
    repeat split; try assumption.
    rewrite Hlog. subst w0. cbn. rewrite <- app_assoc, Hstore. reflexivity.
  - destruct fuel as [|fuel]; [lia|].
    destruct (Hheap kwinTile tile) as [tl Htl]; [left|].
    assert (Hkt' : Kwin.tileStore (host w) !! kwinTile = Some kt) by now rewrite Hstore.
    assert (Hreg' : BiMap.get (tiles w) (Some kwinTile) = Some tile) by now rewrite Htiles.
    cbn [regenerateLoop].
    unfold mbind at 1, M_bind at 1, bind at 1, gets at 1. rewrite Hreg'.
    rewrite (run_bind _ _ _ _ _ (regenerateTile_size w (S fuel) kwinTile tile kt tl Hmut Hkt' Htl)).
    set (w0 := upd_heap _ w).
    erewrite run_bind; [|apply run_liveTile; subst w0; cbn; exact Hkt'].
    destruct (IH w0 fuel) as (w1 & Hrun & Ht & Hh & He & Hca & Hlog & Hsize & Hframe);
      try assumption; [|cbn in *; lia|].
    { intros k t Hin. subst w0. cbn.
      destruct (decide (tile = t)) as [->|Hne].
      - rewrite lookup_insert_eq. now eexists.
      - rewrite lookup_insert_ne by assumption. apply (Hheap k t). now right. }
    exists w1. split; [exact Hrun|]. rewrite Ht, Hh, He, Hca, Hlog.
    split; [reflexivity|]. split; [reflexivity|]. split; [reflexivity|].
    split; [reflexivity|]. split; [reflexivity|]. split.
    + intros k t kt0 tl0 Hin Hk Ht0.
      assert (Hcase : (∃ k', (k', t) ∈ visited) ∨ (∀ k', (k', t) ∉ visited)).
      { destruct (decide (t ∈ visited.*2)) as [Hin'|Hnotin].
        - left. apply list_elem_of_fmap in Hin' as ([k' t'] & -> & Hin'). now exists k'.
        - right. intros k' Hin'. apply Hnotin. apply list_elem_of_fmap.
          now exists (k', t). }
      apply elem_of_cons in Hin as [Heq|Hin].
      * injection Heq as -> ->.
        assert (kt0 = kt) as -> by congruence. assert (tl0 = tl) as -> by congruence.
        destruct Hcase as [[k' Hin']|Hnot].
        -- (* a later visit of the same abstract tile is a visit of the same live tile *)
           assert (Hk' : BiMap.get m (Some k') = Some tile)
             by exact (walk_visited_registered _ _ _ _ _ _ _ Hsub Hin').
           assert (k' = kwinTile) as ->.
           { destruct (BiMap_consistent_one_to_one _ Hc) as [Hinj _].
             pose proof (Hinj _ _ _ Hk' Hreg). congruence. }
           erewrite (Hsize kwinTile tile kt); [|exact Hin'|exact Hk|subst w0; cbn; apply lookup_insert_eq].
           reflexivity.
        -- rewrite (Hframe tile Hnot). subst w0. cbn. apply lookup_insert_eq.
      * destruct (decide (tile = t)) as [->|Hne].
        -- assert (tl0 = tl) as -> by congruence.
           erewrite (Hsize k t kt0); [|exact Hin|exact Hk|subst w0; cbn; apply lookup_insert_eq].
           reflexivity.
        -- apply (Hsize k t kt0 tl0 Hin Hk). subst w0. cbn.
           now rewrite lookup_insert_ne.
    + intros t Hnot.
      rewrite Hframe by (intros k Hin; apply (Hnot k); now right).
      subst w0. cbn. apply lookup_insert_ne. intros ->. apply (Hnot kwinTile). left.
Qed.

End WalkSizes.

Section WalkTheorem.
Context {P : Type}.
Implicit Types (w : World P).

(** For an engine whose tiles are not mutable, [regenerateLayout] on a
    live tree whose walk comes to an end ([walk]) returns normally with
    any fuel beyond the number of live tiles it meets. Before the engine
    is called (world [w1]), the requested size of the abstract
    counterpart of every visited live tile is the size of that live
    tile's absolute geometry, and no other abstract tile has changed;
    for every live tile that is not registered one error is logged, in
    the order of the walk. Then the engine is asked for
    [regenerateLayout] and [buildLayout] under a [try]. Neither the
    tile-map nor the live side changes. *)
Theorem regenerateLayout_sizes w rootTile visited skipped fuel :
  tilesMutable w = false →
  BiMap.consistent (tiles w) →
  walk (Kwin.tileStore (host w)) (tiles w) [rootTile] visited skipped →
  (∀ kwinTile tile, (kwinTile, tile) ∈ visited →
     is_Some (Engine.tileStore (heap w) !! tile)) →
  length visited + length skipped < fuel →
  ∃ w1,
    regenerateLayout fuel rootTile w
    = (Normal tt, afterEngine w1 [stepRegenerateLayout; stepBuildLayout])
    ∧ tiles w1 = tiles w
    ∧ host w1 = host w
    ∧ engine w1 = engine w
    ∧ calls w1 = calls w
    ∧ log w1
      = log w ++ map (λ k, ErrorTileNotRegistered
                             (Kwin.absoluteGeometry (host w)
                                <$> Kwin.tileStore (host w) !! k)) skipped
    ∧ (∀ kwinTile tile kt tl,
         (kwinTile, tile) ∈ visited →
         Kwin.tileStore (host w) !! kwinTile = Some kt →
         Engine.tileStore (heap w) !! tile = Some tl →
         Engine.tileStore (heap w1) !! tile
         = Some (Engine.with_requestedSize
                   (Some (Geometry.fromRect (Kwin.absoluteGeometry (host w) kt))) tl))
    ∧ (∀ t, (∀ kwinTile, (kwinTile, t) ∉ visited) →
         Engine.tileStore (heap w1) !! t = Engine.tileStore (heap w) !! t).
Proof.
  intros Hmut Hc Hwalk Hheap Hfuel.
  destruct (regenerateLoop_walk _ _ _ _ _ Hwalk Hc w fuel eq_refl eq_refl Hmut Hheap Hfuel)
    as (w1 & Hrun & Hrest).
  exists w1. split; [now apply regenerateLayout_after_walk|exact Hrest].
Qed.

End WalkTheorem.

(** ** The walk of an engine whose tiles are mutable *)

Section DestroyLoop.
Context {P : Type}.
Implicit Types (w : World P).

(** One call of [remove()] on an engine for which it settles. *)
Lemma callRemove_run w child arr :
  removeSettles (Engine.remove (Engine.methods (engine w))) →
  ∃ h' arr',
    callRemove child arr w
    = (Normal arr', upd_calls (λ l, l ++ [CallTileRemove child]) (upd_heap (λ _, h') w))
    ∧ Engine.nextTile h' = Engine.nextTile (heap w)
    ∧ (∀ t, is_Some (Engine.tileStore h' !! t) ↔ is_Some (Engine.tileStore (heap w) !! t))
    ∧ (∀ t tl tl', Engine.tileStore (heap w) !! t = Some tl →
         Engine.tileStore h' !! t = Some tl' →
         length (Engine.tiles tl') ≤ length (Engine.tiles tl))
    ∧ length arr' ≤ length arr.
Proof.
  intros Hs. destruct (Hs child (heap w) arr) as (h' & arr' & Hrun & Hrest).
  exists h', arr'. split; [|exact Hrest].
  unfold callRemove. now rewrite Hrun.
Qed.

(** An abstract tile that the test of the first loop finds without live
    counterpart is the value of no live tile in the tile-map. *)
Lemma isNull_unmapped (m : BiMap.t (option nat) nat) c k :
  BiMap.consistent m → isNull (BiMap.inverse_get m c) = true →
  BiMap.get m (Some k) ≠ Some c.
Proof.
  intros Hc Hnull Hget. apply Hc in Hget. rewrite Hget in Hnull. discriminate.
Qed.

(** Dropping the entry of such a tile leaves the entries of the live
    tiles as they are. *)
Lemma inverse_delete_unmapped (m : BiMap.t (option nat) nat) c :
  BiMap.consistent m → isNull (BiMap.inverse_get m c) = true →
  (∀ k, BiMap.get (BiMap.inverse_delete m c) (Some k) = BiMap.get m (Some k))
  ∧ (∀ v, BiMap.inverse_get m v = None →
          BiMap.inverse_get (BiMap.inverse_delete m c) v = None).
Proof.
  intros Hc Hnull. split.
  - intros k. rewrite BiMap_get_inverse_delete.
    destruct (BiMap.inverse_get m c) as [[k'|]|]; [discriminate| |reflexivity].
    now rewrite decide_False.
  - intros v Hv. rewrite BiMap_inverse_get_inverse_delete.
    destruct (BiMap.inverse_get m c) as [ck|]; [|exact Hv].
    destruct (decide (c = v)); [reflexivity|exact Hv].
Qed.

(** The first loop on an engine for which [remove()] settles: it comes to
    an end, calls nothing but [remove()], and only on tiles that are the
    value of no live tile in the tile-map; the entries of the live tiles
    stay as they are; no abstract tile appears or vanishes, and no child
    list gets longer. The first tile of the array without live
    counterpart is the first that [remove()] is called on. *)
Lemma destroyLoop_settles fuel : ∀ arr i w,
  removeSettles (Engine.remove (Engine.methods (engine w))) →
  BiMap.consistent (tiles w) →
  length arr - i < fuel →
  ∃ w' removed,
    destroyLoop fuel arr i w = (Normal tt, w')
    ∧ host w' = host w
    ∧ engine w' = engine w
    ∧ log w' = log w
    ∧ calls w' = calls w ++ map CallTileRemove removed
    ∧ (∀ c k, c ∈ removed → BiMap.get (tiles w) (Some k) ≠ Some c)
    ∧ BiMap.consistent (tiles w')
    ∧ (∀ k, BiMap.get (tiles w') (Some k) = BiMap.get (tiles w) (Some k))
    ∧ (∀ v, BiMap.inverse_get (tiles w) v = None → BiMap.inverse_get (tiles w') v = None)
    ∧ Engine.nextTile (heap w') = Engine.nextTile (heap w)
    ∧ (∀ t, is_Some (Engine.tileStore (heap w') !! t)
            ↔ is_Some (Engine.tileStore (heap w) !! t))
    ∧ (∀ t tl tl', Engine.tileStore (heap w) !! t = Some tl →
         Engine.tileStore (heap w') !! t = Some tl' →
         length (Engine.tiles tl') ≤ length (Engine.tiles tl))
    ∧ (∀ pre child post,
         drop i arr = pre ++ child :: post →
         (∀ c, c ∈ pre → ∃ k, BiMap.inverse_get (tiles w) c = Some (Some k)) →
         isNull (BiMap.inverse_get (tiles w) child) = true →
         ∃ rest, removed = child :: rest).
Proof.
  induction fuel as [|fuel IH]; intros arr i w Hs Hc Hfuel; [lia|].
  cbn [destroyLoop].
  destruct (arr !! i) as [child|] eqn:Hchild.
  2:{ exists w, []. cbn. rewrite app_nil_r. split; [reflexivity|].
      do 4 (split; [reflexivity|]).
      split; [intros c k Hin; now apply elem_of_nil in Hin|].
      split; [exact Hc|]. do 2 (split; [done|]). split; [reflexivity|].
      split; [done|]. split; [intros t tl tl' Ht Ht'; now simplify_eq|].
      intros pre child post Hdrop. apply lookup_ge_None in Hchild.
      rewrite drop_ge in Hdrop by lia. now destruct pre. }
  pose proof (lookup_lt_Some _ _ _ Hchild) as Hlt.
  unfold mbind at 1, M_bind at 1, bind at 1, gets at 1.
  destruct (isNull (BiMap.inverse_get (tiles w) child)) eqn:Hnull.
  - destruct (inverse_delete_unmapped (tiles w) child Hc Hnull) as [Hget Hinv].
    set (w0 := upd_tiles (λ m, BiMap.inverse_delete m child) w).
    destruct (callRemove_run w0 child arr Hs) as (h' & arr' & Hrun & Hn & Hdom & Hlen & Harr).
    erewrite run_bind.
    2:{ unfold mbind at 1, M_bind at 1, bind at 1, modify at 1. exact Hrun. }
    set (w1 := upd_calls _ _).
    destruct (IH arr' (S i) w1) as (w' & removed & Hloop & H1 & H2 & H3 & H4 & H5 & H6 & H7
                                     & H8 & H9 & H10 & H11 & _).
    { exact Hs. }
    { subst w1 w0. cbn. now apply BiMap_inverse_delete_consistent. }
    { lia. }
    exists w', (child :: removed). split; [exact Hloop|].
    subst w1 w0. cbn in *.
    split; [exact H1|]. split; [exact H2|]. split; [exact H3|].
    split; [rewrite H4, <- app_assoc; reflexivity|].
    split.
    { intros c k Hin. apply elem_of_cons in Hin as [->|Hin].
      - now apply isNull_unmapped.
      - rewrite <- Hget. now apply H5. }
    split; [exact H6|]. split; [intros k; now rewrite H7|].
    split; [intros v Hv; now apply H8, Hinv|].
    split; [congruence|]. split; [intros t; now rewrite H10|].
    split.
    { intros t tl tl' Ht Ht'.
      destruct (proj2 (Hdom t) (mk_is_Some _ _ Ht)) as [tl1 Ht1].
      transitivity (length (Engine.tiles tl1)); [now apply (H11 t)|now apply (Hlen t)]. }
    intros pre child' post Hdrop Hpre Hnull'.
    rewrite (drop_S _ _ _ Hchild) in Hdrop.
    destruct pre as [|c pre]; cbn in Hdrop; injection Hdrop as Hhead _; subst child.
    + now eexists.
    + destruct (Hpre c) as [k Hk]; [left|]. rewrite Hk in Hnull. discriminate.
  - unfold mbind at 1, M_bind at 1, bind at 1, ret at 1.
    destruct (IH arr (S i) w) as (w' & removed & Hloop & Hrest); [exact Hs|exact Hc|lia|].
    exists w', removed. split; [exact Hloop|].
    destruct Hrest as (H1 & H2 & H3 & H4 & H5 & H6 & H7 & H8 & H9 & H10 & H11 & H12).
    do 11 (split; [assumption|]).
    intros pre child' post Hdrop Hpre Hnull'.
    rewrite (drop_S _ _ _ Hchild) in Hdrop.
    destruct pre as [|c pre]; cbn in Hdrop; injection Hdrop as Hhead Hdrop; subst child.
    + rewrite Hnull' in Hnull. discriminate.
    + apply (H12 pre child' post Hdrop); [|exact Hnull'].
      intros c' Hin. apply Hpre. now right.
Qed.

End DestroyLoop.

Section MutableTile.
Context {P : Type}.
Implicit Types (w : World P).


End MutableTile.

Section MutableWalk.
Context {P : Type}.
Implicit Types (w : World P).



End MutableWalk.

Section Structure.
Context {P : Type}.
Implicit Types (w : World P).



End Structure.

(** ** The first loop on an engine whose [remove()] splices in place *)

Section RemoveFirstFacts.

Lemma remove_first_middle t (pre post : list nat) :
  t ∉ pre → remove_first t (pre ++ t :: post) = pre ++ post.
Proof.
  induction pre as [|c pre IH]; intros Hnotin; cbn.
  - now rewrite decide_True.
  - apply not_elem_of_cons in Hnotin as [Hne Hnotin].
    rewrite decide_False by congruence. now rewrite IH.
Qed.

(** What lies behind position [i] once the tile at position [i] has
    left the array lay behind position [i] before. *)
Lemma remove_first_drop (l : list nat) : ∀ i c,
  l !! i = Some c → drop (S i) (remove_first c l) ⊆ drop (S i) l.
Proof.
  induction l as [|x l IH]; intros i c Hi; [done|]. cbn.
  case_decide as Hx.
  - change (drop (S i) (x :: l)) with (drop i l).
    replace (S i) with (i + 1) by lia. rewrite <- drop_drop. apply subseteq_drop.
  - destruct i as [|i]; cbn in Hi; [congruence|]. cbn. now apply IH.
Qed.

End RemoveFirstFacts.

Section SkipsNext.
Context {P : Type}.
Implicit Types (w : World P).

(** A child with a live counterpart is passed by. *)
Lemma destroyLoop_mapped fuel arr i w c k :
  arr !! i = Some c → BiMap.inverse_get (tiles w) c = Some (Some k) →
  destroyLoop (S fuel) arr i w = destroyLoop fuel arr (S i) w.
Proof.
  intros Hi Hk. cbn [destroyLoop]. rewrite Hi.
  unfold mbind at 1, M_bind at 1, bind at 1, gets at 1. rewrite Hk. reflexivity.
Qed.

(** One turn of the loop at a child without live counterpart, the call
    of [remove()] returning. *)
Lemma destroyLoop_unmapped fuel arr i w c h' arr' :
  arr !! i = Some c → isNull (BiMap.inverse_get (tiles w) c) = true →
  Engine.remove (Engine.methods (engine w)) c (heap w) arr = (h', arr', None) →
  destroyLoop (S fuel) arr i w
  = destroyLoop fuel arr' (S i)
      (upd_calls (λ l, l ++ [CallTileRemove c])
         (upd_heap (λ _, h') (upd_tiles (λ m, BiMap.inverse_delete m c) w))).
Proof.
  intros Hi Hnull Hremove. cbn [destroyLoop]. rewrite Hi.
  unfold mbind at 1, M_bind at 1, bind at 1, gets at 1. rewrite Hnull.
  erewrite run_bind; [reflexivity|].
  unfold mbind, M_bind, bind, modify, callRemove. cbn. now rewrite Hremove.
Qed.

(** From position [i] on, [remove()] is called on tiles that lay at
    position [i] or behind it only. *)
Lemma destroyLoop_removed_behind fuel : ∀ arr i w w',
  removeSplices (Engine.remove (Engine.methods (engine w))) →
  destroyLoop fuel arr i w = (Normal tt, w') →
  ∃ removed, calls w' = calls w ++ map CallTileRemove removed
             ∧ removed ⊆ drop i arr.
Proof.
  induction fuel as [|fuel IH]; intros arr i w w' Hsplice Hrun; [discriminate|].
  destruct (arr !! i) as [c|] eqn:Hi.
  2:{ cbn [destroyLoop] in Hrun. rewrite Hi in Hrun. injection Hrun as <-.
      exists []. cbn. rewrite app_nil_r. split; [reflexivity|apply list_subseteq_nil]. }
  destruct (isNull (BiMap.inverse_get (tiles w) c)) eqn:Hnull.
  - pose proof (Hsplice c (heap w) arr) as Harr.
    destruct (Engine.remove (Engine.methods (engine w)) c (heap w) arr)
      as [[h' arr'] [ex|]] eqn:Hremove.
    { exfalso. revert Hrun. cbn [destroyLoop]. rewrite Hi.
      unfold mbind at 1, M_bind at 1, bind at 1, gets at 1. rewrite Hnull.
      unfold mbind, M_bind, bind, modify, callRemove. cbn. rewrite Hremove. discriminate. }
    cbn in Harr. subst arr'.
    rewrite (destroyLoop_unmapped _ _ _ _ _ _ _ Hi Hnull Hremove) in Hrun.
    apply IH in Hrun as (removed & Hcalls & Hsub); [|exact Hsplice].
    exists (c :: removed). cbn in Hcalls. rewrite Hcalls, <- app_assoc.
    split; [reflexivity|]. rewrite (drop_S _ _ _ Hi). apply list_subseteq_skip.
    etransitivity; [exact Hsub|]. now apply remove_first_drop.
  - destruct (BiMap.inverse_get (tiles w) c) as [[k|]|] eqn:Hk; try discriminate.
    rewrite (destroyLoop_mapped _ _ _ _ _ _ Hi Hk) in Hrun.
    apply IH in Hrun as (removed & Hcalls & Hsub); [|exact Hsplice].
    exists removed. split; [exact Hcalls|].
    rewrite (drop_S _ _ _ Hi). now apply list_subseteq_cons.
Qed.

(** On an engine whose [remove()] returns and takes the tile out of
    the array that the first loop of [regenerateLayout] iterates, the
    loop goes through the array by position while the array gets
    shorter: after the first child that it removes, the child that
    followed it has moved into the position just visited and is passed
    over. [remove()] is not called on it, whether or not it has a live
    counterpart; it is called on the first child without live counterpart
    and then on children that lay behind the one passed over. *)
Theorem destroyLoop_skips_next w pre removed next post :
  removeSettles (Engine.remove (Engine.methods (engine w))) →
  removeSplices (Engine.remove (Engine.methods (engine w))) →
  BiMap.consistent (tiles w) →
  NoDup (pre ++ removed :: next :: post) →
  (∀ c, c ∈ pre → ∃ k, BiMap.inverse_get (tiles w) c = Some (Some k)) →
  isNull (BiMap.inverse_get (tiles w) removed) = true →
  ∃ N, ∀ fuel, N ≤ fuel →
    ∃ w' rest,
      destroyLoop fuel (pre ++ removed :: next :: post) 0 w = (Normal tt, w')
      ∧ calls w' = calls w ++ CallTileRemove removed :: map CallTileRemove rest
      ∧ (rest ⊆ post)
      ∧ (next ∉ rest).
Proof.
  intros Hsettles Hsplice Hcons Hnodup Hpre Hnull.
  set (arr := pre ++ removed :: next :: post).
  assert (Hnotin : (removed ∉ pre) ∧ (next ∉ post)).
  { apply NoDup_app in Hnodup as (_ & Hdisj & Hnd).
    apply NoDup_cons in Hnd as [_ Hnd]. apply NoDup_cons in Hnd as [Hnext _].
    split; [|exact Hnext]. intros Hin. apply (Hdisj removed Hin). left. }
  destruct Hnotin as [Hnpre Hnpost].
  exists (S (S (length arr))). intros fuel Hfuel.
  assert (Hskip : ∀ j, j ≤ length pre →
            destroyLoop fuel arr 0 w = destroyLoop (fuel - j) arr j w).
  { induction j as [|j IHj]; intros Hj.
    - now rewrite Nat.sub_0_r.
    - rewrite IHj by lia.
      assert (Hlook : arr !! j = pre !! j) by (apply lookup_app_l; lia).
      destruct (pre !! j) as [c|] eqn:Hc; [|apply lookup_ge_None in Hc; lia].
      destruct (Hpre c) as [k Hk]; [eapply list_elem_of_lookup_2; exact Hc|].
      assert (Harrlen : length arr = length pre + S (S (length post))).
      { subst arr. rewrite length_app. reflexivity. }
      replace (fuel - j) with (S (fuel - S j)) by lia.
      now apply (destroyLoop_mapped _ _ _ _ c k). }
  assert (Harrlen : length arr = length pre + S (S (length post))).
  { subst arr. rewrite length_app. reflexivity. }
  assert (Hi : arr !! length pre = Some removed).
  { subst arr. rewrite lookup_app_r by lia. now rewrite Nat.sub_diag. }
  destruct (Hsettles removed (heap w) arr) as (h' & arr' & Hremove & _).
  pose proof (Hsplice removed (heap w) arr) as Harr. rewrite Hremove in Harr.
  cbn in Harr. subst arr'.
  assert (Harr' : remove_first removed arr = pre ++ next :: post).
  { subst arr. now apply remove_first_middle. }
  rewrite Harr' in Hremove.
  set (w1 := upd_calls (λ l, l ++ [CallTileRemove removed])
               (upd_heap (λ _, h') (upd_tiles (λ m, BiMap.inverse_delete m removed) w))).
  assert (Hgo : destroyLoop fuel arr 0 w
                = destroyLoop (fuel - S (length pre)) (pre ++ next :: post)
                    (S (length pre)) w1).
  { rewrite (Hskip (length pre)) by lia.
    replace (fuel - length pre) with (S (fuel - S (length pre))) by lia.
    now apply destroyLoop_unmapped. }
  destruct (destroyLoop_settles (fuel - S (length pre)) (pre ++ next :: post)
              (S (length pre)) w1)
    as (w' & removed' & Hrun & _).
  { exact Hsettles. }
  { subst w1. cbn. now apply BiMap_inverse_delete_consistent. }
  { rewrite length_app. cbn. lia. }
  destruct (destroyLoop_removed_behind _ _ _ w1 w' Hsplice Hrun) as (rest & Hcalls & Hsub).
  exists w', rest. split; [rewrite Hgo; exact Hrun|].
  assert (Hdrop : drop (S (length pre)) (pre ++ next :: post) = post).
  { rewrite drop_app_ge by lia.
    replace (S (length pre) - length pre) with 1 by lia. reflexivity. }
  rewrite Hdrop in Hsub.
  split; [subst w1; cbn in Hcalls; rewrite Hcalls, <- app_assoc; reflexivity|].
  split; [exact Hsub|]. intros Hin. apply Hnpost. now apply Hsub.
Qed.

End SkipsNext.

(** ** The directional commands *)

Section Commands.
Import ShortcutManager.
Context {D : Type}.
Implicit Types (w : World D).

Lemma sm_run_bind {A B} (m : M D A) (f : A → M D B) w a w' :
  m w = (Normal a, w') → (m ≫= f) w = f a w'.
Proof. intros H. unfold mbind, M_bind, bind. now rewrite H. Qed.

Lemma sm_run_liveWindow w x kw :
  Kwin.windowStore (host (env w)) !! x = Some kw → liveWindow x w = (Normal kw, w).
Proof. intros H. unfold liveWindow, mbind, M_bind, bind, gets. now rewrite H. Qed.

Lemma sm_run_liveTile w t kt :
  Kwin.tileStore (host (env w)) !! t = Some kt → liveTile t w = (Normal kt, w).
Proof. intros H. unfold liveTile, mbind, M_bind, bind, gets. now rewrite H. Qed.

(** The probe point of a window without tile. *)
Lemma sm_point_floating w window kw direction :
  Kwin.windowStore (host (env w)) !! window = Some kw →
  Kwin.tile kw = None →
  pointInDirection window direction w = (Normal None, w).
Proof.
  intros Hkw Htile. unfold pointInDirection.
  rewrite (sm_run_bind _ _ _ _ _ (sm_run_liveWindow _ _ _ Hkw)). rewrite Htile.
  unfold mbind, M_bind, bind, ret. now rewrite pointInDirection_untiled.
Qed.

(** The probe point of a window with a tile. *)
Lemma sm_point_tiled w window kw t kt direction :
  Kwin.windowStore (host (env w)) !! window = Some kw →
  Kwin.tile kw = Some t →
  Kwin.tileStore (host (env w)) !! t = Some kt →
  pointInDirection window direction w
  = (Normal (Shortcuts.pointInDirection
               (Shortcuts.mkWindow (Some (Shortcuts.mkTile (Kwin.padding kt)))
                  (Kwin.frameGeometry kw)) direction), w).
Proof.
  intros Hkw Htile Hkt. unfold pointInDirection.
  rewrite (sm_run_bind _ _ _ _ _ (sm_run_liveWindow _ _ _ Hkw)). rewrite Htile.
  erewrite sm_run_bind; [reflexivity|].
  now rewrite (sm_run_bind _ _ _ _ _ (sm_run_liveTile _ _ _ Hkt)).
Qed.


Lemma sm_probe_exists (window : Shortcuts.Window) t direction :
  Shortcuts.tile window = Some t →
  ∃ p, Shortcuts.pointInDirection window direction = Some p.
Proof.
  intros Ht. destruct direction; cbn;
    unfold Shortcuts.pointAbove, Shortcuts.pointBelow, Shortcuts.pointLeft,
      Shortcuts.pointRight; rewrite Ht; eexists; reflexivity.
Qed.

(** Without an active window no command does anything; when the active
    window has no tile, [focus], [insert] and [resize] do nothing: no
    collaborator is called (the window is not taken out of the layout by
    [insert]), nothing is logged, the active window stays. *)
Theorem commands_without_tile w direction fuel :
  (Kwin.activeWindow (host (env w)) = None →
   retileWindow w = (Normal tt, w)
   ∧ focus direction w = (Normal tt, w)
   ∧ insert fuel direction w = (Normal tt, w)
   ∧ resize direction w = (Normal tt, w))
  ∧ (∀ window kw,
       Kwin.activeWindow (host (env w)) = Some window →
       Kwin.windowStore (host (env w)) !! window = Some kw →
       Kwin.tile kw = None →
       focus direction w = (Normal tt, w)
       ∧ insert fuel direction w = (Normal tt, w)
       ∧ resize direction w = (Normal tt, w)).
Proof.
  split.
  - intros Hnone.
    unfold retileWindow, focus, insert, resize, method, activeWindow.
    unfold mbind, M_bind, bind, gets. rewrite Hnone. repeat split.
  - intros window kw Hactive Hkw Htile.
    assert (Hstart : ∀ (k : option nat → M D unit),
              method (window ← activeWindow; k window) w = method (k (Some window)) w).
    { intros k. unfold method, activeWindow, mbind, M_bind, bind, gets.
      now rewrite Hactive. }
    unfold focus, insert, resize. rewrite !Hstart. unfold method.
    rewrite !(sm_run_bind _ _ _ _ _ (sm_point_floating _ _ _ _ Hkw Htile)).
    rewrite (sm_run_bind _ _ _ _ _ (sm_run_liveWindow _ _ _ Hkw)).
    rewrite Htile. repeat split.
Qed.

(** [focus] with an active window that has a tile: the host is asked for
    the tile at the probe point of the window (on the window's screen);
    if there is one and it holds windows, its first window becomes the
    active window and this is logged; otherwise nothing happens. No
    collaborator is called, and nothing but the active window and the
    log changes. *)
Theorem focus_activates_first_window w direction window kw t kt :
  Kwin.activeWindow (host (env w)) = Some window →
  Kwin.windowStore (host (env w)) !! window = Some kw →
  Kwin.tile kw = Some t →
  Kwin.tileStore (host (env w)) !! t = Some kt →
  let h := host (env w) in
  let w' := (focus direction w).2 in
  ∃ p,
    Shortcuts.pointInDirection
      (Shortcuts.mkWindow (Some (Shortcuts.mkTile (Kwin.padding kt))) (Kwin.frameGeometry kw))
      direction = Some p
    ∧ (focus direction w).1 = Normal tt
    ∧ calls w' = calls w
    ∧ Kwin.tileStore (host (env w')) = Kwin.tileStore h
    ∧ Kwin.windowStore (host (env w')) = Kwin.windowStore h
    ∧ windowExtensions (env w') = windowExtensions (env w)
    ∧ manager (env w') = manager (env w)
    ∧ match bestTileForPosition (ctrl w) h (output (ctrl w) h window)
              (QPointF.x p) (QPointF.y p)
            ≫= λ target, head (windows (ctrl w) h target) with
      | Some newWindow =>
          Kwin.activeWindow (host (env w')) = Some newWindow
          ∧ log w' = log w ++ [DebugFocusing newWindow]
      | None => w' = w
      end.
Proof.
  intros Hactive Hkw Htile Hkt h w'. subst w' h.
  destruct (sm_probe_exists
              (Shortcuts.mkWindow (Some (Shortcuts.mkTile (Kwin.padding kt)))
                 (Kwin.frameGeometry kw)) _ direction eq_refl) as [p Hp].
  exists p. split; [exact Hp|].
  assert (Hrun : focus direction w
    = match bestTileForPosition (ctrl w) (host (env w)) (output (ctrl w) (host (env w)) window)
              (QPointF.x p) (QPointF.y p)
            ≫= λ target, head (windows (ctrl w) (host (env w)) target) with
      | Some newWindow =>
          (logDebug (DebugFocusing newWindow);; setActiveWindow newWindow) w
      | None => (Normal tt, w)
      end).
  { unfold focus, method, activeWindow.
    unfold mbind at 1, M_bind at 1, bind at 1, gets at 1. rewrite Hactive.
    rewrite (sm_run_bind _ _ _ _ _ (sm_point_tiled _ _ _ _ _ _ Hkw Htile Hkt)).
    rewrite Hp. unfold tileInDirection, outputOf.
    unfold mbind, M_bind, bind, gets, earlyReturn.
    destruct (bestTileForPosition (ctrl w) (host (env w)) (output (ctrl w) (host (env w)) window)
                (QPointF.x p) (QPointF.y p)) as [target|]; cbn; [|reflexivity].
    destruct (windows (ctrl w) (host (env w)) target) as [|newWindow rest]; reflexivity. }
  rewrite Hrun.
  destruct (bestTileForPosition (ctrl w) (host (env w)) (output (ctrl w) (host (env w)) window)
              (QPointF.x p) (QPointF.y p) ≫= λ target, head (windows (ctrl w) (host (env w)) target))
    as [newWindow|]; cbn; repeat split.
Qed.

(** The descent of [insert] from the root. *)
Lemma descend_run store t r :
  singleChain store t r →
  ∃ N, ∀ fuel w, N ≤ fuel → Kwin.tileStore (host (env w)) = store →
    descend fuel t w = (Normal r, w).
Proof.
  induction 1 as [t kt Ht Hfork|t kt only r Ht Htiles _ [N IH]].
  - exists 1. intros fuel w Hfuel Hstore. destruct fuel as [|fuel]; [lia|].
    cbn [descend]. erewrite sm_run_bind; [|apply sm_run_liveTile; rewrite Hstore; exact Ht].
    destruct (Kwin.tiles kt) as [|c [|c' l]] eqn:E; try reflexivity.
    now destruct (Hfork c).
  - exists (S N). intros fuel w Hfuel Hstore. destruct fuel as [|fuel]; [lia|].
    cbn [descend]. erewrite sm_run_bind; [|apply sm_run_liveTile; rewrite Hstore; exact Ht].
    rewrite Htiles. apply IH; [lia|exact Hstore].
Qed.

Lemma singleChain_end store t r :
  singleChain store t r →
  ∃ kr, store !! r = Some kr ∧ ∀ only, Kwin.tiles kr ≠ [only].
Proof. induction 1 as [t kt Ht Hfork|]; [now exists kt|assumption]. Qed.

(** The descent that [insert] falls back on, from a live tile from
    which the chain of only children is finite: with enough fuel it
    returns, without changing anything, the first tile of the chain that
    does not have exactly one child. That tile may have several
    children: it need not be a leaf. *)
Theorem descend_stops_at_fork w t r :
  singleChain (Kwin.tileStore (host (env w))) t r →
  ∃ N, ∀ fuel, N ≤ fuel →
    descend fuel t w = (Normal r, w)
    ∧ ∃ kr, Kwin.tileStore (host (env w)) !! r = Some kr
            ∧ ∀ only, Kwin.tiles kr ≠ [only].
Proof.
  intros Hchain. destruct (descend_run _ _ _ Hchain) as [N HN].
  exists N. intros fuel Hfuel. split; [now apply HN|].
  now apply singleChain_end with t.
Qed.

Lemma sm_run_call w c (f : Collaborators D → Effect D) e :
  f (ctrl w) (env w) = (e, None) →
  call c f w = (Normal tt, mkWorld e (ctrl w) (resizeAmount w) (log w) (calls w ++ [c])).
Proof. intros H. unfold call. now rewrite H. Qed.

(** [insert] with an active window that has a tile, as long as the
    driver manager does not throw: the window is removed from the
    layout and the layout of its screen is rebuilt; then the host is
    asked for the tile at the probe point, the point computed from the
    geometry that the window had before it was removed; when the host
    finds none, the target is the tile that the descent from the root
    tile of the screen ends at. The window is put in the target tile with
    the direction that [directionFromPoint] gives for the target's
    absolute geometry and the probe point, and the layout is rebuilt
    again. These are the only calls, in this order; an exception of the
    last call leaves [insert] uncaught. *)
Theorem insert_moves_window w direction window kw t kt p env1 env2 target ktarget env3 :
  Kwin.activeWindow (host (env w)) = Some window →
  Kwin.windowStore (host (env w)) !! window = Some kw →
  Kwin.tile kw = Some t →
  Kwin.tileStore (host (env w)) !! t = Some kt →
  Shortcuts.pointInDirection
    (Shortcuts.mkWindow (Some (Shortcuts.mkTile (Kwin.padding kt))) (Kwin.frameGeometry kw))
    direction = Some p →
  removeWindow (ctrl w) window (env w) = (env1, None) →
  let out1 := output (ctrl w) (host env1) window in
  rebuildLayout (ctrl w) (Some out1) env1 = (env2, None) →
  let out2 := output (ctrl w) (host env2) window in
  let found := bestTileForPosition (ctrl w) (host env2) out2 (QPointF.x p) (QPointF.y p) in
  (found = Some target
   ∨ (found = None
      ∧ singleChain (Kwin.tileStore (host env2)) (rootTile (ctrl w) (host env2) out2) target)) →
  Kwin.tileStore (host env2) !! target = Some ktarget →
  let d := directionFromPoint (ctrl w) (Kwin.absoluteGeometry (host env2) ktarget) p in
  putWindowInTile (ctrl w) window target d env2 = (env3, None) →
  let out3 := output (ctrl w) (host env3) window in
  ∃ N, ∀ fuel, N ≤ fuel →
    insert fuel direction w
    = (match (rebuildLayout (ctrl w) (Some out3) env3).2 with
       | None => Normal tt
       | Some e => Throw e
       end,
       mkWorld (rebuildLayout (ctrl w) (Some out3) env3).1 (ctrl w) (resizeAmount w)
         (log w ++ [DebugMoving window])
         (calls w ++ [CallRemoveWindow window; CallRebuildLayout (Some out1);
                      CallPutWindowInTile window target d;
                      CallRebuildLayout (Some out3)])).
Proof.
  intros Hactive Hkw Htile Hkt Hp Hremove out1 Hrebuild out2 found Hfound Htarget d Hput out3.
  assert (Hdescend : ∃ N, ∀ fuel (w0 : World D), N ≤ fuel → env w0 = env2 → ctrl w0 = ctrl w →
            (match found with
             | Some tile => ret tile
             | None =>
                 out ← outputOf window;
                 root ← gets (λ w, rootTile (ctrl w) (host (env w)) out);
                 descend fuel root
             end) w0 = (Normal target, w0)).
  { destruct Hfound as [->|[-> Hchain]].
    - exists 0. reflexivity.
    - destruct (descend_run _ _ _ Hchain) as [N HN]. exists N.
      intros fuel w0 Hfuel Henv Hctrl. unfold outputOf, mbind, M_bind, bind, gets.
      rewrite Henv, Hctrl. apply HN; [exact Hfuel|now rewrite Henv]. }
  destruct Hdescend as [N HN]. exists N. intros fuel Hfuel.
  unfold insert, method, activeWindow.
  unfold mbind at 1, M_bind at 1, bind at 1, gets at 1. rewrite Hactive.
  rewrite (sm_run_bind _ _ _ _ _ (sm_point_tiled _ _ _ _ _ _ Hkw Htile Hkt)). rewrite Hp.
  unfold mbind at 1, M_bind at 1, bind at 1, logDebug at 1, modify at 1.
  erewrite sm_run_bind; [|apply sm_run_call; exact Hremove].
  unfold mbind at 1, M_bind at 1, bind at 1, outputOf at 1, gets at 1.
  cbn [env ctrl host]. fold out1.
  erewrite sm_run_bind; [|apply sm_run_call; exact Hrebuild].
  unfold tileInDirection.
  erewrite sm_run_bind; [|unfold outputOf, mbind, M_bind, bind, gets; cbn; reflexivity].
  fold out2. fold found.
  erewrite sm_run_bind; [|apply HN; [exact Hfuel|reflexivity..]].
  erewrite sm_run_bind; [|apply sm_run_liveTile; exact Htarget].
  unfold mbind at 1, M_bind at 1, bind at 1, gets at 1. cbn [env ctrl host]. fold d.
  erewrite sm_run_bind; [|apply sm_run_call; exact Hput].
  unfold mbind at 1, M_bind at 1, bind at 1, outputOf at 1, gets at 1.
  cbn [env ctrl host]. fold out3. unfold call. cbn [env ctrl log calls resizeAmount].
  destruct (rebuildLayout (ctrl w) (Some out3) env3) as [env4 [e|]]; cbn;
    rewrite <- !app_assoc; reflexivity.
Qed.

(** [retileWindow] on an active window that the controller has a record
    of asks the driver manager to remove the window if its record says
    it is tiled, and to add it otherwise, and then to rebuild the layout.
    Nothing is caught: an exception of the first call ends the command
    before the rebuild, and an exception of either call leaves
    [retileWindow]. *)
Theorem retileWindow_toggles w window extensions :
  Kwin.activeWindow (host (env w)) = Some window →
  windowExtensions (env w) !! window = Some extensions →
  let first := if isTiled extensions then CallRemoveWindow window
               else CallAddWindow window in
  let toggled := (if isTiled extensions then removeWindow (ctrl w) window
                  else addWindow (ctrl w) window) (env w) in
  let rebuilt := rebuildLayout (ctrl w) None toggled.1 in
  retileWindow w
  = match toggled.2 with
    | Some e =>
        (Throw e,
         mkWorld toggled.1 (ctrl w) (resizeAmount w) (log w) (calls w ++ [first]))
    | None =>
        (match rebuilt.2 with None => Normal tt | Some e => Throw e end,
         mkWorld rebuilt.1 (ctrl w) (resizeAmount w) (log w)
           (calls w ++ [first; CallRebuildLayout None]))
    end.
Proof.
  intros Hactive Hext first toggled rebuilt. subst first toggled rebuilt.
  unfold retileWindow, method, activeWindow.
  unfold mbind at 1, M_bind at 1, bind at 1, gets at 1. rewrite Hactive.
  unfold mbind at 1, M_bind at 1, bind at 1, gets at 1. rewrite Hext.
  unfold mbind, M_bind, bind, call.
  destruct (isTiled extensions).
  - destruct (removeWindow (ctrl w) window (env w)) as [env1 [e|]]; cbn; [reflexivity|].
    destruct (rebuildLayout (ctrl w) None env1) as [env2 [e|]]; cbn;
      rewrite <- !app_assoc; reflexivity.
  - destruct (addWindow (ctrl w) window (env w)) as [env1 [e|]]; cbn; [reflexivity|].
    destruct (rebuildLayout (ctrl w) None env1) as [env2 [e|]]; cbn;
      rewrite <- !app_assoc; reflexivity.
Qed.

(** [resize] with an active window that has a tile logs the absolute
    geometry of the tile and calls the resize primitive of that tile
    once, with the configured amount and the edge that faces the
    direction (top for above, bottom for below, left, right); the driver
    manager is not called. *)
Lemma resize_tiled w direction window kw t kt :
  Kwin.activeWindow (host (env w)) = Some window →
  Kwin.windowStore (host (env w)) !! window = Some kw →
  Kwin.tile kw = Some t →
  Kwin.tileStore (host (env w)) !! t = Some kt →
  let edge := match direction with
              | Shortcuts.Above => TopEdge
              | Shortcuts.Below => BottomEdge
              | Shortcuts.Left => LeftEdge
              | Shortcuts.Right => RightEdge
              end in
  let resized := resizeByPixels (ctrl w) t (resizeAmount w) edge (env w) in
  resize direction w
  = (match resized.2 with None => Normal tt | Some e => Throw e end,
     mkWorld resized.1 (ctrl w) (resizeAmount w)
       (log w ++ [DebugChangingSize (Kwin.absoluteGeometry (host (env w)) kt)])
       (calls w ++ [CallResizeByPixels t (resizeAmount w) edge])).
Proof.
  intros Hactive Hkw Htile Hkt edge resized. subst edge resized.
  unfold resize, method, activeWindow.
  unfold mbind at 1, M_bind at 1, bind at 1, gets at 1. rewrite Hactive.
  rewrite (sm_run_bind _ _ _ _ _ (sm_run_liveWindow _ _ _ Hkw)). rewrite Htile.
  unfold mbind at 1, M_bind at 1, bind at 1, gets at 1.
  rewrite (sm_run_bind _ _ _ _ _ (sm_run_liveTile _ _ _ Hkt)).
  unfold mbind, M_bind, bind, gets, logDebug, modify, call. cbn.
  destruct direction;
    destruct (resizeByPixels _ _ _ _ _) as [env1 [e|]]; reflexivity.
Qed.

End Commands.

(** ** Splitting and collapsing in the rebuild *)

(** ** Splitting a live tile for any number of children *)

Section HostSplitFacts.
Implicit Types (h : Kwin.Host) (t : nat).

Lemma Kwin_parent_unique h t p kp :
  Kwin.tileStore h !! p = Some kp →
  t ∈ Kwin.tiles kp →
  (∀ p' kp', Kwin.tileStore h !! p' = Some kp' → t ∈ Kwin.tiles kp' → p' = p) →
  Kwin.parent h t = Some p.
Proof.
  intros Hp Hin Huniq. unfold Kwin.parent.
  destruct (List.find _ _) as [[p' kp']|] eqn:Hfind.
  - apply find_some in Hfind as [Hin' Hdec]. cbn in Hdec.
    apply bool_decide_eq_true_1 in Hdec.
    apply list_elem_of_In, elem_of_map_to_list in Hin'.
    cbn. f_equal. now apply (Huniq p' kp').
  - assert (Hf : bool_decide (t ∈ Kwin.tiles (p, kp).2) = false).
    { apply (find_none _ _ Hfind (p, kp)).
      apply list_elem_of_In, elem_of_map_to_list, Hp. }
    cbn in Hf. now apply bool_decide_eq_false_1 in Hf.
Qed.

Lemma insert_after_last t n (l : list nat) :
  t ∉ l → Kwin.insert_after t n (l ++ [t]) = l ++ [t; n].
Proof.
  induction l as [|c l IH]; cbn; intros Hnotin.
  - now rewrite decide_True.
  - rewrite decide_False by (intros ->; apply Hnotin; left).
    rewrite IH; [done|]. intros Hin. apply Hnotin. now right.
Qed.

Lemma insert_after_seq n0 cnt :
  0 < cnt →
  Kwin.insert_after (n0 + cnt - 1) (n0 + cnt) (seq n0 cnt) = seq n0 (S cnt).
Proof.
  intros Hcnt. destruct cnt as [|cnt]; [lia|].
  rewrite (seq_S (S cnt)), (seq_S cnt).
  replace (n0 + S cnt - 1) with (n0 + cnt) by lia.
  rewrite insert_after_last.
  - now rewrite <- app_assoc.
  - rewrite list_elem_of_In, in_seq. lia.
Qed.

Lemma grown_update h kwinTile d n0 cnt j leaf' :
  grown h kwinTile d n0 cnt → j < cnt → Kwin.tiles leaf' = [] →
  grown (Kwin.with_tileStore (<[n0 + j := leaf']>) h) kwinTile d n0 cnt.
Proof.
  intros ((kt & Hkt & Htiles & Hdir) & Hlt & Hnext & Hleaves & Hfresh & Hothers) Hj Hleaf.
  split; [|split; [|split; [|split; [|split]]]]; cbn.
  - exists kt. rewrite lookup_insert_ne by lia. done.
  - exact Hlt.
  - exact Hnext.
  - intros j' Hj'. destruct (decide (j' = j)) as [->|Hne].
    + exists leaf'. rewrite lookup_insert_eq. done.
    + rewrite lookup_insert_ne by lia. now apply Hleaves.
  - intros t Ht. rewrite lookup_insert_ne by lia. now apply Hfresh.
  - intros p kp c Hp Hne Hc. destruct (decide (p = n0 + j)) as [->|Hp'].
    + rewrite lookup_insert_eq in Hp. injection Hp as <-. rewrite Hleaf in Hc.
      now apply elem_of_nil in Hc.
    + rewrite lookup_insert_ne in Hp by done. now apply (Hothers p kp).
Qed.

(** Splitting the last child of a tile that is laid out in the
    direction of the split gives the tile one more child. *)
Lemma split_sibling h kwinTile d n0 cnt :
  grown h kwinTile d n0 cnt → 0 < cnt →
  ∃ h', Kwin.split (n0 + cnt - 1) d h = Some h'
        ∧ grown h' kwinTile d n0 (S cnt)
        ∧ Kwin.windowStore h' = Kwin.windowStore h
        ∧ Kwin.activeWindow h' = Kwin.activeWindow h
        ∧ Kwin.output h' = Kwin.output h.
Proof.
  intros ((kt & Hkt & Htiles & Hdir) & Hlt & Hnext & Hleaves & Hfresh & Hothers) Hcnt.
  destruct (Hleaves (cnt - 1)) as (leaf & Hleaf & Hleaf0); [lia|].
  replace (n0 + (cnt - 1)) with (n0 + cnt - 1) in Hleaf by lia.
  assert (Hparent : Kwin.parent h (n0 + cnt - 1) = Some kwinTile).
  { apply (Kwin_parent_unique _ _ _ kt Hkt).
    - rewrite Htiles, list_elem_of_In, in_seq. lia.
    - intros p' kp' Hp' Hin. destruct (decide (p' = kwinTile)) as [->|Hne]; [done|].
      pose proof (Hothers p' kp' _ Hp' Hne Hin). lia. }
  unfold Kwin.split. rewrite Hleaf, Hparent, Hkt, Hdir, Z.eqb_refl, Hnext.
  destruct (Kwin.share h d (Kwin.relativeGeometry leaf)) as [g1 g2].
  eexists. split; [reflexivity|]. split; [|done].
  split; [|split; [|split; [|split; [|split]]]]; cbn.
  - eexists. rewrite lookup_insert_ne by lia. rewrite lookup_insert_eq.
    split; [reflexivity|]. cbn. split; [|exact Hdir].
    rewrite Htiles. now apply insert_after_seq.
  - exact Hlt.
  - lia.
  - intros j Hj. destruct (decide (j = cnt)) as [->|Hne].
    + eexists. rewrite lookup_insert_eq. done.
    + rewrite lookup_insert_ne by lia. rewrite lookup_insert_ne by lia.
      destruct (decide (j = cnt - 1)) as [->|Hne'].
      * replace (n0 + (cnt - 1)) with (n0 + cnt - 1) by lia.
        eexists. rewrite lookup_insert_eq. done.
      * rewrite lookup_insert_ne by lia. apply Hleaves. lia.
  - intros t Ht. rewrite !lookup_insert_ne by lia. apply Hfresh. lia.
  - intros p kp c Hp Hne Hc.
    destruct (decide (p = n0 + cnt)) as [->|Hp1].
    { rewrite lookup_insert_eq in Hp. injection Hp as <-. now apply elem_of_nil in Hc. }
    rewrite lookup_insert_ne in Hp by done. rewrite lookup_insert_ne in Hp by done.
    destruct (decide (p = n0 + cnt - 1)) as [->|Hp2].
    { rewrite lookup_insert_eq in Hp. injection Hp as <-. cbn in Hc. rewrite Hleaf0 in Hc.
      now apply elem_of_nil in Hc. }
    rewrite lookup_insert_ne in Hp by done. now apply (Hothers p kp).
Qed.

(** Splitting a childless tile without parent gives it two children. *)
Lemma split_first h kwinTile kt d :
  Kwin.tileStore h !! kwinTile = Some kt →
  Kwin.tiles kt = [] →
  Kwin.parent h kwinTile = None →
  allocatorAhead h →
  childrenAllocated h →
  ∃ h', Kwin.split kwinTile d h = Some h'
        ∧ grown h' kwinTile d (Kwin.nextTile h) 2
        ∧ Kwin.windowStore h' = Kwin.windowStore h
        ∧ Kwin.activeWindow h' = Kwin.activeWindow h
        ∧ Kwin.output h' = Kwin.output h.
Proof.
  intros Hkt Hleaf Hparent Hahead Hclosed.
  assert (Hlt : kwinTile < Kwin.nextTile h).
  { destruct (decide (kwinTile < Kwin.nextTile h)) as [|Hge]; [done|].
    rewrite Hahead in Hkt by lia. discriminate. }
  unfold Kwin.split. rewrite Hkt, Hparent.
  destruct (Kwin.share h d (Kwin.relativeGeometry kt)) as [g1 g2].
  eexists. split; [reflexivity|]. split; [|done].
  split; [|split; [|split; [|split; [|split]]]]; cbn.
  - eexists. rewrite !lookup_insert_ne by lia. rewrite lookup_insert_eq.
    split; [reflexivity|]. cbn. now rewrite Hleaf.
  - exact Hlt.
  - lia.
  - intros j Hj. destruct j as [|[|j]]; [| |lia].
    + rewrite Nat.add_0_r, lookup_insert_ne by lia. rewrite lookup_insert_eq.
      now eexists.
    + rewrite Nat.add_1_r, lookup_insert_eq. now eexists.
  - intros t Ht. rewrite !lookup_insert_ne by lia. apply Hahead. lia.
  - intros p kp c Hp Hne Hc.
    destruct (decide (p = S (Kwin.nextTile h))) as [->|Hp1].
    { rewrite lookup_insert_eq in Hp. injection Hp as <-. now apply elem_of_nil in Hc. }
    rewrite lookup_insert_ne in Hp by done.
    destruct (decide (p = Kwin.nextTile h)) as [->|Hp2].
    { rewrite lookup_insert_eq in Hp. injection Hp as <-. now apply elem_of_nil in Hc. }
    rewrite lookup_insert_ne in Hp by done. rewrite lookup_insert_ne in Hp by done.
    now apply (Hclosed p kp).
Qed.

End HostSplitFacts.


Section Registered.

Lemma registered_other (children : list nat) : ∀ m n0 k v,
  BiMap.get m k = Some v →
  (∀ j, k ≠ Some (n0 + j)) →
  (∀ j, BiMap.get m (Some (n0 + j)) = None) →
  (∀ c, c ∈ children → BiMap.inverse_get m c = None) →
  NoDup children →
  BiMap.get (registered m n0 children) k = Some v.
Proof.
  induction children as [|child rest IH]; intros m n0 k v Hk Hkey Hkeys Hvals Hnd; [done|].
  apply NoDup_cons in Hnd as [Hchild Hnd]. cbn [registered].
  assert (Hfk : BiMap.get m (Some n0) = None)
    by (specialize (Hkeys 0); now rewrite Nat.add_0_r in Hkeys).
  assert (Hfv : BiMap.inverse_get m child = None) by (apply Hvals; left).
  apply IH; [| | | |exact Hnd].
  - rewrite BiMap_get_set_fresh by assumption.
    rewrite decide_False; [exact Hk|]. intros <-. apply (Hkey 0). now rewrite Nat.add_0_r.
  - intros j. replace (S n0 + j) with (n0 + S j) by lia. apply Hkey.
  - intros j. rewrite BiMap_get_set_fresh by assumption.
    rewrite decide_False by (intros [=]; lia).
    replace (S n0 + j) with (n0 + S j) by lia. apply Hkeys.
  - intros c Hc. rewrite BiMap_inverse_get_set_fresh by assumption.
    rewrite decide_False by (intros ->; contradiction). apply Hvals. now right.
Qed.

(** Registering new live tiles for abstract tiles that are not yet in
    the map gives each live tile the abstract tile of its position. *)
Lemma registered_lookup (children : list nat) : ∀ m n0,
  (∀ j, BiMap.get m (Some (n0 + j)) = None) →
  (∀ c, c ∈ children → BiMap.inverse_get m c = None) →
  NoDup children →
  ∀ j child, children !! j = Some child →
    BiMap.get (registered m n0 children) (Some (n0 + j)) = Some child.
Proof.
  induction children as [|c rest IH]; intros m n0 Hkeys Hvals Hnd j child Hj; [done|].
  apply NoDup_cons in Hnd as [Hc Hnd]. cbn [registered].
  assert (Hfk : BiMap.get m (Some n0) = None)
    by (specialize (Hkeys 0); now rewrite Nat.add_0_r in Hkeys).
  assert (Hfv : BiMap.inverse_get m c = None) by (apply Hvals; left).
  assert (Hkeys' : ∀ j, BiMap.get (BiMap.set m (Some n0) c) (Some (S n0 + j)) = None).
  { intros j'. rewrite BiMap_get_set_fresh by assumption.
    rewrite decide_False by (intros [=]; lia).
    replace (S n0 + j') with (n0 + S j') by lia. apply Hkeys. }
  assert (Hvals' : ∀ c', c' ∈ rest → BiMap.inverse_get (BiMap.set m (Some n0) c) c' = None).
  { intros c' Hc'. rewrite BiMap_inverse_get_set_fresh by assumption.
    rewrite decide_False by (intros ->; contradiction). apply Hvals. now right. }
  destruct j as [|j]; cbn in Hj.
  - injection Hj as ->. rewrite Nat.add_0_r.
    apply registered_other; try assumption.
    + rewrite BiMap_get_set_fresh by assumption. now rewrite decide_True.
    + intros j [=]. lia.
  - replace (n0 + S j) with (S n0 + j) by lia. now apply IH.
Qed.

End Registered.

Section SplitLoopSteps.
Context {P : Type}.
Implicit Types (w : World P).

(** The even distribution of sizes in the body of the loop, for a child
    that exists. *)
Lemma run_distribute w kwinTile kt prev leaf (horizontal : bool) tilesLen i :
  0 < i →
  Kwin.tileStore (host w) !! kwinTile = Some kt →
  Kwin.tiles kt !! (i - 1) = Some prev →
  Kwin.tileStore (host w) !! prev = Some leaf →
  ∃ leaf',
    (if horizontal && bool_decide (0 < i) then
       kt ← liveTile kwinTile;
       prev ← defined (Kwin.tiles kt !! (i - 1));
       let width := (QRect.width (Kwin.relativeGeometry kt)
                       / inject_Z (Z.of_nat tilesLen))%Q in
       updLiveTile prev (λ pt, Kwin.with_relativeGeometry
                                 (Kwin.with_width width (Kwin.relativeGeometry pt)) pt)
     else if decide (0 < i) then
       kt ← liveTile kwinTile;
       prev ← defined (Kwin.tiles kt !! (i - 1));
       let height := (QRect.height (Kwin.relativeGeometry kt)
                        / inject_Z (Z.of_nat tilesLen))%Q in
       updLiveTile prev (λ pt, Kwin.with_relativeGeometry
                                 (Kwin.with_height height (Kwin.relativeGeometry pt)) pt)
     else ret tt) w
    = (Normal tt, upd_host (Kwin.with_tileStore (<[prev := leaf']>)) w)
    ∧ Kwin.tiles leaf' = Kwin.tiles leaf.
Proof.
  intros Hi Hkt Hprev Hleaf.
  rewrite bool_decide_eq_true_2 by lia. rewrite decide_True by lia.
  destruct horizontal; cbn [andb].
  - erewrite run_bind; [|apply run_liveTile; exact Hkt].
    rewrite Hprev. unfold mbind at 1, M_bind at 1, bind at 1, defined at 1, ret at 1.
    eexists. split; [apply run_updLiveTile; exact Hleaf|reflexivity].
  - erewrite run_bind; [|apply run_liveTile; exact Hkt].
    rewrite Hprev. unfold mbind at 1, M_bind at 1, bind at 1, defined at 1, ret at 1.
    eexists. split; [apply run_updLiveTile; exact Hleaf|reflexivity].
Qed.

(** The body of the loop for a child after the first. *)
Lemma splitLoop_step w kwinTile d horizontal tilesLen n0 i child rest queue :
  1 ≤ i →
  grown (host w) kwinTile d n0 (max 2 i) →
  ∃ w1,
    splitLoop kwinTile d horizontal tilesLen i (child :: rest) queue w
    = splitLoop kwinTile d horizontal tilesLen (S i) rest (queue ++ [child]) w1
    ∧ grown (host w1) kwinTile d n0 (max 2 (S i))
    ∧ tiles w1 = BiMap.set (tiles w) (Some (n0 + i)) child
    ∧ Kwin.windowStore (host w1) = Kwin.windowStore (host w)
    ∧ w1 = upd_tiles (λ _, tiles w1) (upd_host (λ _, host w1) w).
Proof.
  intros Hi Hgrown. cbn [splitLoop]. destruct (decide (i = 0)) as [Hz|_]; [lia|].
  (* the split, for the children after the second *)
  assert (Hsplit : ∃ wa,
    (if decide (1 < i) then
       kt ← liveTile kwinTile;
       prev ← defined (Kwin.tiles kt !! (i - 1));
       h ← gets host;
       h' ← defined (Kwin.split prev d h);
       modify (upd_host (λ _, h'))
     else ret tt) w = (Normal tt, wa)
    ∧ grown (host wa) kwinTile d n0 (max 2 (S i))
    ∧ Kwin.windowStore (host wa) = Kwin.windowStore (host w)
    ∧ tiles wa = tiles w
    ∧ wa = upd_host (λ _, host wa) w).
  { destruct (decide (1 < i)) as [Hlt|Hge].
    - replace (max 2 i) with i in Hgrown by lia. replace (max 2 (S i)) with (S i) by lia.
      destruct (split_sibling _ _ _ _ _ Hgrown ltac:(lia)) as (h' & Hsp & Hg' & Hws & _).
      destruct Hgrown as ((kt & Hkt & Htiles & _) & _).
      erewrite run_bind; [|apply run_liveTile; exact Hkt].
      assert (Hprev : Kwin.tiles kt !! (i - 1) = Some (n0 + i - 1)).
      { rewrite Htiles. rewrite lookup_seq_lt by lia. f_equal. lia. }
      rewrite Hprev. unfold mbind at 1, M_bind at 1, bind at 1, defined at 1, ret at 1.
      rewrite (run_split _ _ _ _ Hsp).
      eexists. split; [reflexivity|]. cbn.
      split; [exact Hg'|]. split; [exact Hws|]. split; reflexivity.
    - assert (i = 1) as -> by lia. exists w.
      split; [reflexivity|]. split; [exact Hgrown|]. split; [reflexivity|].
      split; [reflexivity|]. now destruct w. }
  destruct Hsplit as (wa & Hruna & Hga & Hwsa & Htilesa & Hframea).
  rewrite (run_bind _ _ _ _ _ Hruna).
  (* the sizes *)
  pose proof Hga as ((kt & Hkt & Htiles & Hdir) & Hlt & Hnext & Hleaves & _).
  assert (Hprev : Kwin.tiles kt !! (i - 1) = Some (n0 + (i - 1))).
  { rewrite Htiles. now rewrite lookup_seq_lt by lia. }
  destruct (Hleaves (i - 1)) as (leaf & Hleaf & Hleaf0); [lia|].
  destruct (run_distribute wa kwinTile kt _ leaf horizontal tilesLen i ltac:(lia)
              Hkt Hprev Hleaf) as (leaf' & Hrunb & Hleaf').
  rewrite (run_bind _ _ _ _ _ Hrunb).
  assert (Hgb : grown (Kwin.with_tileStore (<[n0 + (i - 1) := leaf']>) (host wa))
                  kwinTile d n0 (max 2 (S i))).
  { apply grown_update; [exact Hga|lia|congruence]. }
  (* the registration *)
  erewrite run_bind; [|apply run_liveTile; cbn; rewrite lookup_insert_ne by lia; exact Hkt].
  unfold mbind at 1, M_bind at 1, bind at 1, modify at 1.
  assert (Hith : Kwin.tiles kt !! i = Some (n0 + i)).
  { rewrite Htiles. now rewrite lookup_seq_lt by lia. }
  rewrite Hith.
  eexists. split; [reflexivity|]. cbn. rewrite Htilesa.
  split; [exact Hgb|]. split; [reflexivity|]. split; [exact Hwsa|].
  apply world_eq; cbn; try reflexivity; rewrite Hframea; reflexivity.
Qed.

(** The loop from the second child on. *)
Lemma splitLoop_rest kwinTile d horizontal tilesLen n0 : ∀ rest i w queue,
  1 ≤ i →
  grown (host w) kwinTile d n0 (max 2 i) →
  ∃ w',
    splitLoop kwinTile d horizontal tilesLen i rest queue w = (Normal (queue ++ rest), w')
    ∧ grown (host w') kwinTile d n0 (max 2 (i + length rest))
    ∧ tiles w' = registered (tiles w) (n0 + i) rest
    ∧ Kwin.windowStore (host w') = Kwin.windowStore (host w)
    ∧ w' = upd_tiles (λ _, tiles w') (upd_host (λ _, host w') w).
Proof.
  induction rest as [|child rest IH]; intros i w queue Hi Hgrown.
  - exists w. cbn. rewrite app_nil_r, Nat.add_0_r.
    split; [reflexivity|]. split; [exact Hgrown|]. split; [reflexivity|].
    split; [reflexivity|]. now destruct w.
  - destruct (splitLoop_step w kwinTile d horizontal tilesLen n0 i child rest queue Hi Hgrown)
      as (w1 & Hstep & Hg1 & Ht1 & Hws1 & Hframe1).
    destruct (IH (S i) w1 (queue ++ [child]) ltac:(lia) Hg1)
      as (w' & Hrun & Hg' & Ht' & Hws' & Hframe').
    exists w'. split; [rewrite Hstep, Hrun; now rewrite <- app_assoc|].
    split; [cbn [length]; now replace (i + S (length rest)) with (S i + length rest) by lia|].
    split; [rewrite Ht', Ht1; cbn; now rewrite Nat.add_succ_r|].
    split; [congruence|].
    apply world_eq; cbn; try reflexivity; rewrite Hframe', Hframe1; reflexivity.
Qed.

(** The whole loop, for two or more children. *)
Lemma splitLoop_run w kwinTile kt d horizontal children queue :
  Kwin.tileStore (host w) !! kwinTile = Some kt →
  Kwin.tiles kt = [] →
  Kwin.parent (host w) kwinTile = None →
  allocatorAhead (host w) →
  childrenAllocated (host w) →
  2 ≤ length children →
  let n0 := Kwin.nextTile (host w) in
  ∃ w' kt',
    splitLoop kwinTile d horizontal (length children) 0 children queue w
    = (Normal (queue ++ children), w')
    ∧ Kwin.tileStore (host w') !! kwinTile = Some kt'
    ∧ Kwin.tiles kt' = seq n0 (length children)
    ∧ Kwin.layoutDirection kt' = d
    ∧ (∀ j, j < length children →
         ∃ leaf, Kwin.tileStore (host w') !! (n0 + j) = Some leaf ∧ Kwin.tiles leaf = [])
    ∧ Kwin.nextTile (host w') = n0 + length children
    ∧ tiles w' = registered (tiles w) n0 children
    ∧ (NoDup children →
       (∀ j, BiMap.get (tiles w) (Some (n0 + j)) = None) →
       (∀ c, c ∈ children → BiMap.inverse_get (tiles w) c = None) →
       ∀ j child, children !! j = Some child →
         BiMap.get (tiles w') (Some (n0 + j)) = Some child)
    ∧ Kwin.windowStore (host w') = Kwin.windowStore (host w)
    ∧ w' = upd_tiles (λ _, tiles w') (upd_host (λ _, host w') w).
Proof.
  intros Hkt Hleaf Hparent Hahead Hclosed Hlen n0.
  destruct children as [|child rest]; [cbn in Hlen; lia|]. cbn [length] in *.
  destruct (split_first _ _ _ d Hkt Hleaf Hparent Hahead Hclosed)
    as (h' & Hsp & Hg & Hws & _). fold n0 in Hg.
  cbn [splitLoop]. destruct (decide (0 = 0)) as [_|Hne]; [|done].
  rewrite (run_bind _ _ _ _ _ (run_split _ _ _ _ Hsp)).
  rewrite bool_decide_eq_false_2 by lia. rewrite andb_false_r.
  destruct (decide (0 < 0)) as [Hlt0|_]; [lia|].
  unfold mbind at 1, M_bind at 1, bind at 1, ret at 1.
  pose proof Hg as ((kt1 & Hkt1 & Htiles1 & _) & _).
  erewrite run_bind; [|apply run_liveTile; cbn; exact Hkt1].
  unfold mbind at 1, M_bind at 1, bind at 1, modify at 1.
  rewrite Htiles1. cbn [seq lookup list_lookup].
  set (w0 := upd_tiles _ _).
  destruct (splitLoop_rest kwinTile d horizontal (S (length rest)) n0 rest 1 w0
              ([] ++ queue ++ [child]) ltac:(lia))
    as (w' & Hrun & Hg' & Ht' & Hws' & Hframe').
  { subst w0. cbn. exact Hg. }
  replace (max 2 (1 + length rest)) with (S (length rest)) in Hg' by lia.
  destruct Hg' as ((kt' & Hkt' & Htiles' & Hdir') & _ & Hnext' & Hleaves' & _).
  exists w', kt'. split; [cbn [app] in Hrun; rewrite Hrun; now rewrite <- app_assoc|].
  split; [exact Hkt'|]. split; [exact Htiles'|]. split; [exact Hdir'|].
  split; [exact Hleaves'|]. split; [exact Hnext'|].
  assert (Hreg : tiles w' = registered (tiles w) n0 (child :: rest))
    by (rewrite Ht'; subst w0; cbn; now rewrite Nat.add_1_r).
  split; [exact Hreg|].
  split; [intros Hnd Hkeys Hvals; rewrite Hreg; now apply registered_lookup|].
  split; [rewrite Hws'; subst w0; cbn; exact Hws|].
  apply world_eq; cbn; try reflexivity; rewrite Hframe'; reflexivity.
Qed.

(** The split loop of [buildLayout] makes as many live children as the
    abstract node has. On a live tile that has no parent and no
    children, run for two or more distinct abstract children that the
    tile-map does not know yet, it returns normally with the children
    queued; the live tile is laid out in the direction of the node and
    has exactly one new, childless live child per abstract child, in the
    order of their making, and the tile-map maps each new live child to
    the abstract child of its position. No window has changed. *)
Theorem splitLoop_makes_children w kwinTile kt d horizontal children queue :
  Kwin.tileStore (host w) !! kwinTile = Some kt →
  Kwin.tiles kt = [] →
  Kwin.parent (host w) kwinTile = None →
  allocatorAhead (host w) →
  childrenAllocated (host w) →
  2 ≤ length children →
  NoDup children →
  let n0 := Kwin.nextTile (host w) in
  (∀ j, BiMap.get (tiles w) (Some (n0 + j)) = None) →
  (∀ c, c ∈ children → BiMap.inverse_get (tiles w) c = None) →
  ∃ w' kt',
    splitLoop kwinTile d horizontal (length children) 0 children queue w
    = (Normal (queue ++ children), w')
    ∧ Kwin.tileStore (host w') !! kwinTile = Some kt'
    ∧ Kwin.tiles kt' = seq n0 (length children)
    ∧ Kwin.layoutDirection kt' = d
    ∧ (∀ j, j < length children →
         ∃ leaf, Kwin.tileStore (host w') !! (n0 + j) = Some leaf ∧ Kwin.tiles leaf = [])
    ∧ Kwin.nextTile (host w') = n0 + length children
    ∧ (∀ j child, children !! j = Some child →
         BiMap.get (tiles w') (Some (n0 + j)) = Some child)
    ∧ Kwin.windowStore (host w') = Kwin.windowStore (host w).
Proof.
  intros Hkt Hleaf Hparent Hahead Hclosed Hlen Hnd n0 Hfresh Hnew.
  destruct (splitLoop_run w kwinTile kt d horizontal children queue
              Hkt Hleaf Hparent Hahead Hclosed Hlen)
    as (w' & kt' & Hrun & Hkt' & Htiles & Hd & Hleaves & Hnext & _ & Hreg & Hws & _).
  exists w', kt'. split; [exact Hrun|]. split; [exact Hkt'|]. split; [exact Htiles|].
  split; [exact Hd|]. split; [exact Hleaves|]. split; [exact Hnext|].
  split; [exact (Hreg Hnd Hfresh Hnew)|exact Hws].
Qed.

End SplitLoopSteps.

Section Leaves.
Context {P : Type}.
Implicit Types (w : World P).

Lemma registered_consistent (children : list nat) : ∀ m n0,
  BiMap.consistent m → BiMap.consistent (registered m n0 children).
Proof.
  induction children as [|c rest IH]; intros m n0 Hc; [exact Hc|].
  cbn [registered]. apply IH. now apply BiMap_set_consistent.
Qed.

(** The walk of [buildLayout] over a queue of occupied leaves whose
    live tiles are the tiles [n0], [n0 + 1], ... *)
Lemma buildLoop_leaves : ∀ (children windows : list nat) n0 w fuel,
  length children = length windows →
  NoDup windows →
  (∀ j child window, children !! j = Some child → windows !! j = Some window →
     ∃ tl client kt kw ext,
       Engine.tileStore (heap w) !! child = Some tl
       ∧ Engine.tiles tl = []
       ∧ Engine.client tl = Some client
       ∧ BiMap.inverse_get (tiles w) child = Some (Some (n0 + j))
       ∧ Kwin.tileStore (host w) !! (n0 + j) = Some kt
       ∧ BiMap.inverse_get (clients w) client = Some window
       ∧ windowExtensions w !! window = Some ext
       ∧ Kwin.windowStore (host w) !! window = Some kw) →
  length children < fuel →
  ∃ w',
    buildLoop fuel children w = (Normal tt, w')
    ∧ (∀ j window, windows !! j = Some window →
         ∃ kw', Kwin.windowStore (host w') !! window = Some kw'
                ∧ Kwin.tile kw' = Some (n0 + j))
    ∧ (∀ x, x ∉ windows → Kwin.windowStore (host w') !! x = Kwin.windowStore (host w) !! x)
    ∧ tiles w' = tiles w
    ∧ log w' = log w
    ∧ (∀ t, Kwin.tiles <$> Kwin.tileStore (host w') !! t
            = Kwin.tiles <$> Kwin.tileStore (host w) !! t)
    ∧ (∀ t, t < n0 ∨ n0 + length children ≤ t →
            Kwin.tileStore (host w') !! t = Kwin.tileStore (host w) !! t).
Proof.
  induction children as [|child rest IH]; intros windows n0 w fuel Hlen Hnd Hleaves Hfuel.
  - destruct windows; [|discriminate]. destruct fuel as [|fuel]; [cbn in Hfuel; lia|].
    exists w. rewrite buildLoop_done. repeat split; try done.
  - destruct windows as [|window wrest]; [discriminate|].
    destruct fuel as [|fuel]; [lia|].
    apply NoDup_cons in Hnd as [Hwindow Hnd].
    destruct (Hleaves 0 child window eq_refl eq_refl)
      as (tl & client & kt & kw & ext & Htl & Hleaf & Hclient & Hinv & Hkt & Hcw & Hext & Hkw).
    rewrite Nat.add_0_r in Hinv, Hkt.
    destruct (buildLoop_leaf fuel w child rest tl client n0 kt window kw ext
                Htl Hleaf Hclient Hinv Hkt Hcw Hext Hkw)
      as (windows' & center & Hstep & (kw1 & Hkw1 & Htile1) & Hother).
    match type of Hstep with
    | _ = buildLoop _ _ ?w0 => set (w1 := w0) in Hstep
    end.
    destruct (IH wrest (S n0) w1 fuel)
      as (w' & Hrun & Hplaced & Hrest & Htiles & Hlog & Hshape & Hout).
    { cbn in Hlen. lia. }
    { exact Hnd. }
    { intros j c x Hc Hx.
      destruct (Hleaves (S j) c x Hc Hx)
        as (tl' & client' & kt' & kw' & ext' & H1 & H2 & H3 & H4 & H5 & H6 & H7 & H8).
      assert (Hne : x ≠ window).
      { intros ->. apply Hwindow. eapply list_elem_of_lookup_2. exact Hx. }
      exists tl', client', kt', kw', ext'.
      replace (S n0 + j) with (n0 + S j) by lia.
      subst w1. cbn. rewrite lookup_insert_ne by lia. rewrite lookup_insert_ne by done.
      rewrite Hother by done. done. }
    { cbn in Hfuel. lia. }
    exists w'. split; [rewrite Hstep; exact Hrun|].
    split; [|split; [|split; [|split; [|split]]]].
    + intros j x Hx. destruct j as [|j]; cbn in Hx.
      * injection Hx as ->. exists kw1. rewrite Nat.add_0_r.
        rewrite Hrest by exact Hwindow. subst w1. cbn. done.
      * replace (n0 + S j) with (S n0 + j) by lia. now apply Hplaced.
    + intros x Hx. apply not_elem_of_cons in Hx as [Hx1 Hx2].
      rewrite Hrest by exact Hx2. subst w1. cbn. now apply Hother.
    + rewrite Htiles. reflexivity.
    + rewrite Hlog. reflexivity.
    + intros t. rewrite Hshape. subst w1. cbn.
      destruct (decide (t = n0)) as [->|Hne].
      * rewrite lookup_insert_eq, Hkt. reflexivity.
      * now rewrite lookup_insert_ne.
    + intros t Ht. cbn [length] in Ht. rewrite Hout by lia. subst w1. cbn.
      apply lookup_insert_ne. lia.
Qed.

End Leaves.

Section SideBySide.
Context {P : Type}.
Implicit Types (w : World P).

(** The first turn of the walk, for a node with two or more children on
    a live tile without parent and without children. *)
Lemma buildLoop_split fuel w r rr rootTile kt0 :
  Engine.tileStore (heap w) !! r = Some rr →
  2 ≤ length (Engine.tiles rr) →
  Engine.client rr = None →
  BiMap.inverse_get (tiles w) r = Some (Some rootTile) →
  Kwin.tileStore (host w) !! rootTile = Some kt0 →
  Kwin.tiles kt0 = [] →
  (∀ p kp, Kwin.tileStore (host w) !! p = Some kp → rootTile ∉ Kwin.tiles kp) →
  allocatorAhead (host w) →
  childrenAllocated (host w) →
  let n0 := Kwin.nextTile (host w) in
  let children := Engine.tiles rr in
  ∃ w1 kroot,
    buildLoop (S fuel) [r] w = buildLoop fuel children w1
    ∧ Kwin.tileStore (host w1) !! rootTile = Some kroot
    ∧ Kwin.tiles kroot = seq n0 (length children)
    ∧ Kwin.layoutDirection kroot = Engine.layoutDirection rr
    ∧ (∀ j, j < length children →
         ∃ leaf, Kwin.tileStore (host w1) !! (n0 + j) = Some leaf ∧ Kwin.tiles leaf = [])
    ∧ tiles w1 = registered (tiles w) n0 children
    ∧ Kwin.windowStore (host w1) = Kwin.windowStore (host w)
    ∧ heap w1 = heap w
    ∧ clients w1 = clients w
    ∧ windowExtensions w1 = windowExtensions w
    ∧ log w1 = log w.
Proof.
  intros Hrr Hlen Hclient Hk Hkt0 Hleaf Hnoparent Hahead Hclosed n0 children.
  assert (Hlt : rootTile < Kwin.nextTile (host w)).
  { destruct (decide (rootTile < Kwin.nextTile (host w))) as [|Hge]; [done|].
    rewrite Hahead in Hkt0 by lia. discriminate. }
  set (w0 := upd_host (Kwin.with_tileStore
                         (<[rootTile := Kwin.with_layoutDirection (Engine.layoutDirection rr) kt0]>))
               (upd_managedTiles (λ s, {[Some rootTile]} ∪ s) w)).
  destruct (splitLoop_run w0 rootTile
              (Kwin.with_layoutDirection (Engine.layoutDirection rr) kt0)
              (Engine.layoutDirection rr) (Engine.layoutDirection rr =? 1)%Z children [])
    as (w1 & kroot & Hrun & Hroot & Htiles & Hdir & Hleaves & _ & Hreg & _ & Hws & Hframe).
  { subst w0. cbn. apply lookup_insert_eq. }
  { exact Hleaf. }
  { apply Kwin_parent_None. subst w0. cbn. intros p kp Hp.
    rewrite lookup_insert in Hp. case_decide.
    - injection Hp as <-. cbn. rewrite Hleaf. apply not_elem_of_nil.
    - now apply (Hnoparent p). }
  { subst w0. intros t Ht. cbn in *. rewrite lookup_insert_ne by lia. now apply Hahead. }
  { subst w0. intros p kp c Hp Hc. cbn in *. rewrite lookup_insert in Hp. case_decide.
    - injection Hp as <-. cbn in Hc. rewrite Hleaf in Hc. now apply elem_of_nil in Hc.
    - now apply (Hclosed p kp). }
  { exact Hlen. }
  exists w1, kroot. split.
  { cbn [buildLoop].
    unfold mbind at 1, M_bind at 1, bind at 1, gets at 1. rewrite Hk. cbn [mjoin option_join].
    unfold mbind at 1, M_bind at 1, bind at 1, modify at 1.
    erewrite run_bind; [|apply run_abstractTile; exact Hrr].
    unfold mbind at 1, M_bind at 1, bind at 1, defined at 1, ret at 1.
    erewrite run_bind; [|apply run_updLiveTile; exact Hkt0].
    erewrite run_bind; [|apply run_liveTile; cbn; apply lookup_insert_eq].
    rewrite Hclient. cbn [Kwin.layoutDirection Kwin.with_layoutDirection].
    destruct (decide (1 < length (Engine.tiles rr))) as [_|Hge]; [|lia].
    fold w0. fold children. erewrite run_bind; [|exact Hrun].
    cbn [placeOccupant app]. unfold mbind at 1, M_bind at 1, bind at 1, ret at 1.
    reflexivity. }
  assert (Hn0 : Kwin.nextTile (host w0) = n0) by reflexivity.
  rewrite Hn0 in *.
  split; [exact Hroot|]. split; [exact Htiles|]. split; [exact Hdir|].
  split; [exact Hleaves|]. split; [exact Hreg|]. split; [exact Hws|].
  rewrite Hframe. repeat split.
Qed.

(** The rebuild for any number of windows side by side. When the
    effective root of the abstract tree has no occupant and two or more
    children, each of them a leaf occupied by the client of a known
    window (no two by the same window), [buildLayout] on a live root
    without parent (given enough fuel) returns normally; the live root
    has the layout direction of the abstract root and exactly one new
    live child per abstract child; the tile-map maps each new live
    child to the abstract child of its position, and the window of that
    child is assigned to it. Nothing is logged. *)
Theorem buildLayout_side_by_side w rootTile rt r rr children windows :
  Kwin.tileStore (host w) !! rootTile = Some rt →
  Kwin.parent (host w) rootTile = None →
  allocatorAhead (host w) →
  childrenAllocated (host w) →
  effectiveRoot (Engine.tileStore (heap w)) (Engine.rootTile (Engine.data (engine w))) r →
  Engine.tileStore (heap w) !! r = Some rr →
  Engine.client rr = None →
  Engine.tiles rr = children →
  2 ≤ length children →
  NoDup children →
  r ∉ children →
  length children = length windows →
  NoDup windows →
  (∀ j child window, children !! j = Some child → windows !! j = Some window →
     ∃ tl client,
       Engine.tileStore (heap w) !! child = Some tl
       ∧ Engine.tiles tl = []
       ∧ Engine.client tl = Some client
       ∧ BiMap.inverse_get (clients w) client = Some window
       ∧ is_Some (windowExtensions w !! window)
       ∧ is_Some (Kwin.windowStore (host w) !! window)) →
  let n0 := Kwin.nextTile (host w) in
  ∃ N, ∀ fuel, N ≤ fuel →
    let w' := (buildLayout fuel rootTile w).2 in
    (buildLayout fuel rootTile w).1 = Normal tt
    ∧ (∃ kroot, Kwin.tileStore (host w') !! rootTile = Some kroot
                ∧ Kwin.tiles kroot = seq n0 (length children)
                ∧ Kwin.layoutDirection kroot = Engine.layoutDirection rr)
    ∧ (∀ j child, children !! j = Some child →
         BiMap.get (tiles w') (Some (n0 + j)) = Some child)
    ∧ (∀ j window, windows !! j = Some window →
         ∃ kw', Kwin.windowStore (host w') !! window = Some kw'
                ∧ Kwin.tile kw' = Some (n0 + j))
    ∧ log w' = log w.
Proof.
  intros Hroot Hparent Hahead Hclosed Heff Hrr Hclient Htiles Hlen Hnd Hr Hlenw Hndw
    Hleaves n0.
  assert (Hnoparent : ∀ p kp, Kwin.tileStore (host w) !! p = Some kp →
                              rootTile ∉ Kwin.tiles kp) by (now apply Kwin_parent_None).
  assert (Hnotin : rootTile ∉ Kwin.tiles rt) by now apply (Hnoparent rootTile).
  assert (Hlt : rootTile < n0).
  { destruct (decide (rootTile < n0)) as [|Hge]; [done|].
    rewrite Hahead in Hroot by (subst n0; lia). discriminate. }
  destruct (prepareLayout_spec w rootTile rt r Hroot Hnotin Heff) as [N HN].
  exists (N + length children + 2). intros fuel Hfuel.
  destruct (HN fuel) as (store0 & Hprep & Hroot0 & Hfresh0 & Hsub0); [lia|].
  destruct fuel as [|fuel]; [lia|].
  destruct (buildLayout _ rootTile w) as [c w'] eqn:Hres.
  unfold buildLayout, method in Hres.
  erewrite run_bind in Hres; [|exact Hprep].
  erewrite run_bind in Hres; [|apply run_abstractTile; exact Hrr].
  unfold mbind at 1, M_bind at 1, bind at 1, gets at 1 in Hres.
  rewrite Hclient in Hres.
  rewrite bool_decide_eq_false_2 in Hres by (intros [? ?]; discriminate).
  cbn [andb] in Hres.
  erewrite run_bind in Hres; [|reflexivity].
  match type of Hres with
  | context [(buildLoop _ [r] ≫= _) ?w0] => set (w1 := w0) in Hres
  end.
  destruct (buildLoop_split fuel w1 r rr rootTile (Kwin.with_tiles [] rt))
    as (w2 & kroot & Hturn & Hkroot & Hktiles & Hkdir & Hlive & Hreg & Hws & Hheap & Hcl
        & Hexts & Hlog2).
  { exact Hrr. }
  { now rewrite Htiles. }
  { exact Hclient. }
  { subst w1. cbn. unfold BiMap.clear. apply BiMap_singleton_inverse. }
  { exact Hroot0. }
  { reflexivity. }
  { subst w1. cbn. intros p kp' Hp. destruct (Hsub0 p kp' Hp) as (kp & Hkp & Hsub).
    intros Hin. apply (Hnoparent p kp Hkp). now apply Hsub. }
  { subst w1. intros t Ht. cbn in *. now apply Hfresh0, Hahead. }
  { subst w1. intros p kp' x Hp Hx. cbn in *.
    destruct (Hsub0 p kp' Hp) as (kp & Hkp & Hsub). apply (Hclosed p kp x Hkp). now apply Hsub. }
  rewrite Htiles in *.
  assert (Hn0 : Kwin.nextTile (host w1) = n0) by reflexivity.
  rewrite Hn0 in *.
  assert (Hmap : ∀ j child, children !! j = Some child →
            BiMap.get (tiles w2) (Some (n0 + j)) = Some child).
  { intros j child Hj. rewrite Hreg. apply registered_lookup; try assumption.
    - intros j'. subst w1. cbn. unfold BiMap.clear. rewrite BiMap_singleton.
      unfold BiMap.get. cbn. rewrite decide_False by (intros [=]; lia). reflexivity.
    - intros x Hx. subst w1. cbn. unfold BiMap.clear. rewrite BiMap_singleton.
      unfold BiMap.inverse_get. cbn. rewrite decide_False by (intros ->; contradiction).
      reflexivity. }
  assert (Hcons : BiMap.consistent (tiles w2)).
  { rewrite Hreg. apply registered_consistent. subst w1. cbn.
    apply BiMap_set_consistent, BiMap_empty_consistent. }
  destruct (buildLoop_leaves children windows n0 w2 fuel Hlenw Hndw)
    as (w3 & Hwalk & Hplaced & _ & Htiles3 & Hlog3 & _ & Hout); [| lia |].
  { intros j child window Hj Hx.
    destruct (Hleaves j child window Hj Hx)
      as (tl & client & Htl & Hleaf & Hcl' & Hcw & [ext Hext] & [kw Hkw]).
    destruct (Hlive j) as (leaf & Hleafj & _); [eapply lookup_lt_Some; exact Hj|].
    exists tl, client, leaf, kw, ext.
    rewrite Hheap, Hcl, Hexts, Hws. subst w1. cbn.
    repeat split; try assumption. apply Hcons. now apply Hmap. }
  erewrite run_bind in Hres; [|rewrite Hturn; exact Hwalk].
  unfold fixSizing, ret in Hres. injection Hres as <- <-.
  cbn zeta. cbn [fst snd]. split; [reflexivity|]. split; [|split; [|split]].
  - exists kroot. rewrite Hout by (left; exact Hlt). done.
  - intros j child Hj. rewrite Htiles3. now apply Hmap.
  - exact Hplaced.
  - rewrite Hlog3, Hlog2. subst w1. reflexivity.
Qed.

End SideBySide.

Section BiMapSetOther.
Context {K V : Type} `{EqDecision K} `{EqDecision V}.
Implicit Types (m : BiMap.t K V) (k : K) (v : V).

(** [set] makes no entry at another key. *)
Lemma BiMap_get_set_other m k v k' x :
  k' ≠ k → BiMap.get (BiMap.set m k v) k' = Some x → BiMap.get m k' = Some x.
Proof.
  intros Hne. unfold BiMap.set, BiMap.get.
  destruct (JsMap.get (BiMap.forward m) k) as [cv|].
  - destruct (decide (cv = v)); [done|].
    destruct (JsMap.get (JsMap.delete (BiMap.inverse m) cv) v) as [ck|].
    + destruct (decide (ck = k)); [done|]. cbn.
      rewrite JsMap_get_set, JsMap_get_delete. rewrite decide_False by congruence.
      case_decide; [discriminate|done].
    + cbn. rewrite JsMap_get_set. now rewrite decide_False by congruence.
  - destruct (JsMap.get (BiMap.inverse m) v) as [ck|].
    + destruct (decide (ck = k)); [done|]. cbn.
      rewrite JsMap_get_set, JsMap_get_delete. rewrite decide_False by congruence.
      case_decide; [discriminate|done].
    + cbn. rewrite JsMap_get_set. now rewrite decide_False by congruence.
Qed.

(** Giving a key a new value takes the old value out of the map. *)
Lemma BiMap_set_replaces m k v v' :
  BiMap.consistent m → BiMap.get m k = Some v → v' ≠ v →
  BiMap.get (BiMap.set m k v') k = Some v'
  ∧ BiMap.inverse_get (BiMap.set m k v') v' = Some k
  ∧ BiMap.inverse_get (BiMap.set m k v') v = None.
Proof.
  intros Hc Hk Hne.
  pose proof (BiMap_set_consistent m k v' Hc) as Hc'.
  pose proof (BiMap_get_set_same m k v' Hc) as Hget.
  split; [exact Hget|]. split; [now apply Hc'|].
  destruct (BiMap.inverse_get (BiMap.set m k v') v) as [k0|] eqn:Hinv; [|done].
  apply Hc' in Hinv. destruct (decide (k0 = k)) as [->|Hk0]; [congruence|].
  apply BiMap_get_set_other in Hinv; [|exact Hk0].
  destruct (BiMap_consistent_one_to_one m Hc) as [Hinj _].
  now pose proof (Hinj _ _ _ Hinv Hk).
Qed.

End BiMapSetOther.

Section Collapse.
Context {P : Type}.
Implicit Types (w : World P).

(** The collapse of a node with exactly one child: in its turn of the
    walk of [buildLayout], no live tile is made; the live tile of the
    node takes the layout direction of the node and is mapped to the
    child, the node itself leaves the tile-map, and the child joins the
    queue. *)
Theorem buildLoop_collapse fuel w tile queue tl only kwinTile kt :
  BiMap.consistent (tiles w) →
  Engine.tileStore (heap w) !! tile = Some tl →
  Engine.tiles tl = [only] →
  Engine.client tl = None →
  BiMap.inverse_get (tiles w) tile = Some (Some kwinTile) →
  Kwin.tileStore (host w) !! kwinTile = Some kt →
  only ≠ tile →
  ∃ w1,
    buildLoop (S fuel) (tile :: queue) w = buildLoop fuel (queue ++ [only]) w1
    ∧ BiMap.get (tiles w1) (Some kwinTile) = Some only
    ∧ BiMap.inverse_get (tiles w1) only = Some (Some kwinTile)
    ∧ BiMap.inverse_get (tiles w1) tile = None
    ∧ Kwin.tileStore (host w1)
      = <[kwinTile := Kwin.with_layoutDirection (Engine.layoutDirection tl) kt]>
          (Kwin.tileStore (host w))
    ∧ Kwin.nextTile (host w1) = Kwin.nextTile (host w)
    ∧ Kwin.windowStore (host w1) = Kwin.windowStore (host w)
    ∧ managedTiles w1 = {[Some kwinTile]} ∪ managedTiles w
    ∧ log w1 = log w.
Proof.
  intros Hc Htl Htiles Hclient Hk Hkt Hne.
  assert (Hget : BiMap.get (tiles w) (Some kwinTile) = Some tile) by now apply Hc.
  destruct (BiMap_set_replaces (tiles w) (Some kwinTile) tile only Hc Hget Hne)
    as (H1 & H2 & H3).
  eexists. split.
  { cbn [buildLoop].
    unfold mbind at 1, M_bind at 1, bind at 1, gets at 1. rewrite Hk. cbn [mjoin option_join].
    unfold mbind at 1, M_bind at 1, bind at 1, modify at 1.
    erewrite run_bind; [|apply run_abstractTile; exact Htl].
    unfold mbind at 1, M_bind at 1, bind at 1, defined at 1, ret at 1.
    erewrite run_bind; [|apply run_updLiveTile; exact Hkt].
    erewrite run_bind; [|apply run_liveTile; cbn; apply lookup_insert_eq].
    rewrite Htiles, Hclient. cbn [length].
    destruct (decide (1 < 1)) as [Hlt|_]; [lia|].
    erewrite run_bind; [|reflexivity].
    cbn [placeOccupant]. unfold mbind at 1, M_bind at 1, bind at 1, ret at 1.
    reflexivity. }
  cbn. repeat split; assumption.
Qed.

End Collapse.

(** ** The further properties at work on the example worlds *)

Lemma removeWindow_untracked_noop_witness :
  let w := Examples.singleWindow Examples.idleMethods in
  removeWindow 11 w = (Normal tt, w).
Proof. intros w. apply removeWindow_untracked_noop. reflexivity. Defined.

Lemma removeWindow_tracked_effect_witness :
  let w := Examples.singleWindow Examples.idleMethods in
  (removeWindow 10 w).1 = Normal tt
  ∧ BiMap.get (clients (removeWindow 10 w).2) 10 = None
  ∧ untiledWindows (removeWindow 10 w).2 = [10]
  ∧ calls (removeWindow 10 w).2 = [CallRemoveClient 0; CallBuildLayout].
Proof.
  intros w.
  pose proof (removeWindow_tracked_effect w 10 0 eq_refl) as H.
  vm_compute in H. destruct H as (Hn & _ & Hg & _ & Hu & _ & _ & Hc & _).
  split; [exact Hn|]. split; [exact Hg|]. split; [exact Hu|exact Hc].
Defined.

Lemma addWindow_tracked_noop_witness :
  let w := Examples.singleWindow Examples.idleMethods in
  addWindow 10 w = (Normal tt, w).
Proof. intros w. apply (addWindow_tracked_noop w 10 0). reflexivity. Defined.

Lemma example_outOfSync_fallsBack : fallsBack (Examples.outOfSync 3).
Proof.
  right. right. exists 10, (Examples.liveWindow (Some 1)).
  split; [reflexivity|]. split; [reflexivity|]. right. exists 1. split; reflexivity.
Qed.

Lemma example_outOfSync_clients capability :
  BiMap.consistent (clients (Examples.outOfSync capability)).
Proof. apply BiMap_set_consistent, BiMap_empty_consistent. Qed.

Lemma addWindow_falls_back_witness :
  let w := Examples.outOfSync 3 in
  (addWindow 11 w).1 = Normal tt
  ∧ BiMap.get (clients (addWindow 11 w).2) 11 = Some 1
  ∧ calls (addWindow 11 w).2 = [CallAddClient 1; CallBuildLayout].
Proof.
  intros w.
  pose proof (addWindow_falls_back w 11 eq_refl (example_outOfSync_clients 3)
                example_outOfSync_fallsBack) as H.
  vm_compute in H. destruct H as (Hn & _ & Hg & _ & _ & _ & Hc & _).
  split; [exact Hn|]. split; [exact Hg|exact Hc].
Defined.

Lemma addWindow_active_placement_witness :
  let w := Examples.singleWindow Examples.idleMethods in
  (addWindow 11 w).1 = Normal tt
  ∧ calls (addWindow 11 w).2 = [CallPutClientInTile 1 1 None; CallBuildLayout].
Proof.
  intros w.
  pose proof (addWindow_active_placement w 11 10 (Examples.liveWindow (Some 1)) 1 1
                (Engine.data (engine w)) (heap w)
                eq_refl (example_clients_consistent _) eq_refl eq_refl eq_refl eq_refl
                eq_refl eq_refl) as H.
  vm_compute in H. destruct H as (Hn & _ & Hc & _).
  split; [exact Hn|exact Hc].
Defined.

Lemma addWindow_twice_witness :
  let w := Examples.singleWindow Examples.idleMethods in
  addWindow 11 (addWindow 11 w).2 = (Normal tt, (addWindow 11 w).2).
Proof. intros w. apply addWindow_twice. apply example_clients_consistent. Defined.

Lemma putWindowInTile_registered_witness :
  let w := Examples.singleWindow Examples.idleMethods in
  (putWindowInTile 11 1 None w).1 = Normal tt
  ∧ BiMap.get (clients (putWindowInTile 11 1 None w).2) 11 = Some 1
  ∧ calls (putWindowInTile 11 1 None w).2
    = [CallPutClientInTile 1 1 None; CallBuildLayout].
Proof.
  intros w.
  destruct (putWindowInTile_registered w 11 1 1 None (example_clients_consistent _) eq_refl)
    as (passed & debug & H).
  destruct (runEngine _ _ _ _) as [[made thrown] [d h]] eqn:Hrun.
  destruct H as (Hn & Hg & _ & _ & _ & _ & _ & Hc & _ & _ & Hnone & _).
  destruct (Hnone eq_refl) as [-> ->].
  vm_compute in Hrun. injection Hrun as <- _ _ _.
  split; [exact Hn|]. split; [exact Hg|exact Hc].
Defined.

Lemma example_root_not_child : 0 ∉ Kwin.tiles (Examples.liveTile [1; 2]).
Proof. compute_done. Qed.

Lemma buildLayout_untracked_list_witness :
  untiledWindows (buildLayout 10 0 Examples.unknownOccupant).2 = [10].
Proof.
  destruct (buildLayout_untracked_list Examples.unknownOccupant 0 (Examples.liveTile [1; 2]) 10
              eq_refl example_root_not_child ltac:(vm_compute; lia)
              (example_clients_consistent _)) as [H _].
  exact H.
Defined.

Lemma removeWindow_then_buildLayout_witness :
  let w := Examples.singleWindow Examples.idleMethods in
  10 ∈ untiledWindows (removeWindow 10 w).2
  ∧ 10 ∉ untiledWindows (buildLayout 10 0 (removeWindow 10 w).2).2.
Proof.
  intros w.
  apply (removeWindow_then_buildLayout w 10 0 0 (Examples.liveTile [1; 2]) 10
           (example_clients_consistent _) eq_refl eq_refl
           example_root_not_child ltac:(vm_compute; lia)).
Defined.

Lemma buildLayout_single_tiled_witness :
  let w := upd_maximizeSingle (λ _, false) (Examples.singleWindow Examples.idleMethods) in
  ∃ N, ∀ fuel, N ≤ fuel →
    (buildLayout fuel 0 w).1 = Normal tt
    ∧ ∃ kw', Kwin.windowStore (host (buildLayout fuel 0 w).2) !! 10 = Some kw'
             ∧ Kwin.tile kw' = Some 0.
Proof.
  intros w.
  destruct (buildLayout_single_tiled w 0 (Examples.liveTile [1; 2]) 1
              (Examples.abstractTile (Some 0) [] 1 (Some 0)) 0 10
              (Examples.liveWindow (Some 1)) Examples.extensions
              eq_refl eq_refl example_root_not_child (example_wrapped_leaf (Some 0))
              eq_refl eq_refl eq_refl eq_refl eq_refl eq_refl) as [N HN].
  exists N. intros fuel Hfuel.
  destruct (HN fuel Hfuel) as (Hn & _ & _ & (kw' & Hkw & Ht & _) & _).
  split; [exact Hn|]. exists kw'. split; [exact Hkw|exact Ht].
Defined.

Lemma buildLayout_occupant_missing_witness :
  let w := upd_maximizeSingle (λ _, false) Examples.unknownOccupant in
  ∃ N, ∀ fuel, N ≤ fuel →
    (buildLayout fuel 0 w).1 = Normal tt
    ∧ log (buildLayout fuel 0 w).2 = [ErrorClientMissing 5].
Proof.
  intros w.
  destruct (buildLayout_occupant_missing w 0 (Examples.liveTile [1; 2]) 1
              (Examples.abstractTile (Some 0) [] 1 (Some 5)) 5
              eq_refl eq_refl example_root_not_child (example_wrapped_leaf (Some 5))
              eq_refl eq_refl eq_refl eq_refl) as [N HN].
  exists N. intros fuel Hfuel.
  destruct (HN fuel Hfuel) as (Hn & Hl & _).
  split; [exact Hn|exact Hl].
Defined.

Lemma buildLayout_maximize_idempotent_witness :
  let w := Examples.singleWindow Examples.idleMethods in
  ∃ N, ∀ fuel, N ≤ fuel →
    buildLayout fuel 0 (buildLayout fuel 0 w).2 = (Normal tt, (buildLayout fuel 0 w).2).
Proof.
  intros w.
  destruct (buildLayout_maximize_idempotent w 0 (Examples.liveTile [1; 2]) 1
              (Examples.abstractTile (Some 0) [] 1 (Some 0)) 0 10
              (Examples.liveWindow (Some 1))
              eq_refl eq_refl example_root_not_child (example_wrapped_leaf (Some 0))
              eq_refl eq_refl eq_refl eq_refl) as [N HN].
  exists N. intros fuel Hfuel. exact (proj2 (HN fuel fuel Hfuel Hfuel)).
Defined.

Lemma regenerateLayout_unregistered_root_witness :
  let w := Examples.singleWindow Examples.idleMethods in
  (regenerateLayout 5 0 w).1 = Normal tt
  ∧ calls (regenerateLayout 5 0 w).2 = [CallRegenerateLayout; CallBuildLayout]
  ∧ tiles (regenerateLayout 5 0 w).2 = tiles w.
Proof.
  intros w.
  pose proof (regenerateLayout_unregistered_root w 0 5 eq_refl ltac:(lia)) as H.
  vm_compute in H. destruct H as (Hn & _ & Hc & _ & Ht & _).
  split; [exact Hn|]. split; [exact Hc|exact Ht].
Defined.

Lemma example_outOfSync_walk capability :
  walk (Kwin.tileStore (host (Examples.outOfSync capability)))
    (tiles (Examples.outOfSync capability)) [0] [(0, 0)] [1; 2].
Proof.
  eapply (walk_visit _ _ 0 0 (Examples.liveTile [1; 2])); [reflexivity..|].
  apply walk_skip; [reflexivity|]. apply walk_skip; [reflexivity|]. apply walk_done.
Qed.

Lemma regenerateLayout_sizes_witness :
  let w := Examples.outOfSync 1 in
  ∃ w1,
    regenerateLayout 5 0 w
    = (Normal tt, afterEngine w1 [stepRegenerateLayout; stepBuildLayout])
    ∧ Engine.requestedSize <$> Engine.tileStore (heap w1) !! 0
      = Some (Some (GSize.mk 1920 1080)).
Proof.
  intros w.
  destruct (regenerateLayout_sizes w 0 [(0, 0)] [1; 2] 5 eq_refl
              ((BiMap_set_consistent _ _ _ BiMap_empty_consistent)) (example_outOfSync_walk 1))
    as (w1 & Hrun & _ & _ & _ & _ & _ & Hsize & _).
  { intros k t Hin. apply list_elem_of_singleton in Hin. injection Hin as -> ->.
    now eexists. }
  { cbn. lia. }
  exists w1. split; [exact Hrun|].
  rewrite (Hsize 0 0 (Examples.liveTile [1; 2]) (Examples.abstractTile None [1] 1 None));
    [|left|reflexivity|reflexivity].
  vm_compute. reflexivity.
Defined.

Lemma scenario_host_allocatorAhead : allocatorAhead Scenarios.host.
Proof.
  intros t Ht. cbn in *. rewrite !lookup_insert_ne by lia. apply lookup_empty.
Qed.

Lemma scenario_host_childrenAllocated : childrenAllocated Scenarios.host.
Proof.
  intros p kp c Hp Hc. cbn in Hp.
  destruct (decide (p = 0)) as [->|Hne].
  - rewrite lookup_insert_eq in Hp. injection Hp as <-. cbn in Hc.
    now apply elem_of_nil in Hc.
  - rewrite lookup_insert_ne in Hp by done. now rewrite lookup_empty in Hp.
Qed.

Lemma scenario_root_alone : Kwin.parent Scenarios.host 0 = None.
Proof. vm_compute. reflexivity. Qed.

Lemma scenario_distinct_tiles : NoDup [1; 2; 3].
Proof. compute_done. Qed.

Lemma scenario_distinct_windows : NoDup [10; 11; 12].
Proof. compute_done. Qed.

Lemma splitLoop_makes_children_witness :
  let w := Scenarios.threeWindows in
  ∃ w' kt',
    splitLoop 0 2 false 3 0 [1; 2; 3] [] w = (Normal [1; 2; 3], w')
    ∧ Kwin.tileStore (host w') !! 0 = Some kt'
    ∧ Kwin.tiles kt' = [1; 2; 3]
    ∧ Kwin.nextTile (host w') = 4
    ∧ BiMap.get (tiles w') (Some 3) = Some 3.
Proof.
  intros w.
  destruct (splitLoop_makes_children w 0 (Examples.liveTile []) 2 false [1; 2; 3] []
              eq_refl eq_refl scenario_root_alone scenario_host_allocatorAhead
              scenario_host_childrenAllocated (le_S _ _ (le_n 2)) scenario_distinct_tiles
              (λ _, eq_refl) (λ _ _, eq_refl))
    as (w' & kt' & Hrun & Hkt' & Htiles & _ & _ & Hnext & Hmap & _).
  exists w', kt'. split; [exact Hrun|]. split; [exact Hkt'|]. split; [exact Htiles|].
  split; [exact Hnext|]. exact (Hmap 2 3 eq_refl).
Defined.

Lemma scenario_leaves j child window :
  [1; 2; 3] !! j = Some child → [10; 11; 12] !! j = Some window →
  ∃ tl client,
    Engine.tileStore (heap Scenarios.threeWindows) !! child = Some tl
    ∧ Engine.tiles tl = []
    ∧ Engine.client tl = Some client
    ∧ BiMap.inverse_get (clients Scenarios.threeWindows) client = Some window
    ∧ is_Some (windowExtensions Scenarios.threeWindows !! window)
    ∧ is_Some (Kwin.windowStore (host Scenarios.threeWindows) !! window).
Proof.
  destruct j as [|[|[|j]]]; cbn; intros Hc Hw; try discriminate;
    injection Hc as <-; injection Hw as <-;
    eexists _, _; (split; [reflexivity|]); (split; [reflexivity|]);
    (split; [reflexivity|]); (split; [reflexivity|]); split; eexists; reflexivity.
Qed.

Lemma scenario_root_effective :
  effectiveRoot (Engine.tileStore (heap Scenarios.threeWindows)) 0 0.
Proof.
  eapply effectiveRoot_here; [reflexivity|].
  intros only [H _]. discriminate H.
Qed.

Lemma scenario_root_not_child : 0 ∉ [1; 2; 3].
Proof. compute_done. Qed.

Lemma buildLayout_side_by_side_witness :
  let w := Scenarios.threeWindows in
  ∃ N, ∀ fuel, N ≤ fuel →
    (buildLayout fuel 0 w).1 = Normal tt
    ∧ (∃ kroot, Kwin.tileStore (host (buildLayout fuel 0 w).2) !! 0 = Some kroot
                ∧ Kwin.tiles kroot = [1; 2; 3]
                ∧ Kwin.layoutDirection kroot = 2%Z)
    ∧ BiMap.get (tiles (buildLayout fuel 0 w).2) (Some 2) = Some 2
    ∧ (∃ kw', Kwin.windowStore (host (buildLayout fuel 0 w).2) !! 12 = Some kw'
              ∧ Kwin.tile kw' = Some 3).
Proof.
  intros w.
  destruct (buildLayout_side_by_side w 0 (Examples.liveTile []) 0
              (Examples.abstractTile None [1; 2; 3] 2 None) [1; 2; 3] [10; 11; 12]
              eq_refl scenario_root_alone scenario_host_allocatorAhead
              scenario_host_childrenAllocated scenario_root_effective
              eq_refl eq_refl eq_refl (le_S _ _ (le_n 2)) scenario_distinct_tiles
              scenario_root_not_child eq_refl scenario_distinct_windows scenario_leaves)
    as [N HN].
  exists N. intros fuel Hfuel.
  destruct (HN fuel Hfuel) as (Hn & Hroot & Hmap & Hwin & _).
  split; [exact Hn|]. split; [exact Hroot|].
  split; [exact (Hmap 1 2 eq_refl)|exact (Hwin 2 12 eq_refl)].
Defined.

Lemma buildLoop_collapse_witness :
  let w := upd_tiles (λ _, BiMap.set BiMap.empty (Some 0) 0)
             (Examples.singleWindow Examples.idleMethods) in
  ∃ w1,
    buildLoop 1 [0] w = buildLoop 0 [1] w1
    ∧ BiMap.get (tiles w1) (Some 0) = Some 1
    ∧ BiMap.inverse_get (tiles w1) 0 = None
    ∧ Kwin.nextTile (host w1) = 3.
Proof.
  intros w.
  destruct (buildLoop_collapse 0 w 0 [] (Examples.abstractTile None [1] 1 None) 1 0
              (Examples.liveTile [1; 2])
              (BiMap_set_consistent _ _ _ BiMap_empty_consistent)
              eq_refl eq_refl eq_refl eq_refl eq_refl (λ H, O_S 0 (eq_sym H)))
    as (w1 & Hrun & Hget & _ & Hgone & _ & Hnext & _).
  exists w1. split; [exact Hrun|]. split; [exact Hget|]. split; [exact Hgone|exact Hnext].
Defined.

Section CommandWitnesses.
Import ShortcutManager ShortcutExamples.

Lemma commands_without_tile_witness :
  focus Shortcuts.Right floating = (Normal tt, floating)
  ∧ insert 5 Shortcuts.Right floating = (Normal tt, floating)
  ∧ resize Shortcuts.Right floating = (Normal tt, floating).
Proof.
  apply (proj2 (commands_without_tile floating Shortcuts.Right 5)
           11 (Examples.liveWindow None)); reflexivity.
Defined.

Lemma focus_activates_first_window_witness :
  (focus Shortcuts.Right world).1 = Normal tt
  ∧ Kwin.activeWindow (host (env (focus Shortcuts.Right world).2)) = Some 11
  ∧ log (focus Shortcuts.Right world).2 = [DebugFocusing 11].
Proof.
  destruct (focus_activates_first_window world Shortcuts.Right 10
              (Examples.liveWindow (Some 1)) 1 (Examples.liveTile [])
              eq_refl eq_refl eq_refl eq_refl)
    as (p & _ & Hn & _ & _ & _ & _ & _ & Hactive & Hlog).
  split; [exact Hn|]. split; [exact Hactive|exact Hlog].
Defined.

Lemma example_nested_chain : singleChain (Kwin.tileStore nested) 0 1.
Proof.
  eapply singleChain_down; [reflexivity..|].
  eapply singleChain_here; [reflexivity|]. intros only H. discriminate H.
Qed.

Lemma descend_stops_at_fork_witness :
  ∃ N, ∀ fuel, N ≤ fuel → descend fuel 0 chain = (Normal 1, chain).
Proof.
  destruct (descend_stops_at_fork chain 0 1 example_nested_chain) as [N HN].
  exists N. intros fuel Hfuel. exact (proj1 (HN fuel Hfuel)).
Defined.

Lemma insert_moves_window_witness :
  ∃ N, ∀ fuel, N ≤ fuel →
    (insert fuel Shortcuts.Right chain).1 = Normal tt
    ∧ calls (insert fuel Shortcuts.Right chain).2
      = [CallRemoveWindow 10; CallRebuildLayout (Some 0);
         CallPutWindowInTile 10 1 Geometry.Right; CallRebuildLayout (Some 0)]
    ∧ log (insert fuel Shortcuts.Right chain).2 = [DebugMoving 10].
Proof.
  edestruct (insert_moves_window chain Shortcuts.Right 10 (Examples.liveWindow (Some 2)) 2
               (Examples.liveTile []) _ (env chain) (env chain) 1
               (Examples.liveTile [2; 3]) (env chain)
               eq_refl eq_refl eq_refl eq_refl eq_refl eq_refl eq_refl
               (or_intror (conj eq_refl example_nested_chain)) eq_refl eq_refl)
    as [N HN].
  exists N. intros fuel Hfuel. rewrite (HN fuel Hfuel).
  split; [reflexivity|]. split; reflexivity.
Defined.

Lemma retileWindow_toggles_witness :
  retileWindow world
  = (Normal tt,
     mkWorld (env world) (ctrl world) (resizeAmount world) []
       [CallRemoveWindow 10; CallRebuildLayout None]).
Proof.
  exact (retileWindow_toggles world 10 Examples.extensions eq_refl eq_refl).
Defined.

End CommandWitnesses.

(** ** The mutable walk at work *)

Section StructureWitness.
Import Examples.

Lemma remove_first_length t (l : list nat) : length (remove_first t l) ≤ length l.
Proof.
  induction l as [|c l IH]; cbn; [done|].
  destruct (decide (c = t)); cbn; lia.
Qed.

(** The [remove()] that splices the tile out of its parent's array
    settles. *)
Lemma example_spliceOut_settles : removeSettles spliceOut.
Proof.
  intros child h arr. unfold spliceOut.
  eexists _, _. split; [reflexivity|].
  destruct (Engine.parent <$> Engine.tileStore h !! child) as [[p|]|] eqn:Hp; cbn.
  - split; [reflexivity|]. split.
    + intros t. rewrite lookup_alter. case_decide; [subst|done].
      now rewrite fmap_is_Some.
    + split; [|apply remove_first_length].
      intros t tl tl' Ht Ht'. rewrite lookup_alter in Ht'. case_decide.
      * subst. rewrite Ht in Ht'. cbn in Ht'. injection Ht' as <-. cbn.
        apply remove_first_length.
      * now simplify_eq.
  - split; [reflexivity|]. split; [done|]. split; [|apply remove_first_length].
    intros t tl tl' Ht Ht'. now simplify_eq.
  - split; [reflexivity|]. split; [done|]. split; [|apply remove_first_length].
    intros t tl tl' Ht Ht'. now simplify_eq.
Qed.

Lemma example_spliceOut_splices : removeSplices spliceOut.
Proof. intros child h arr. reflexivity. Qed.

Lemma destroyLoop_skips_next_witness :
  let w := upd_tiles (λ _, BiMap.empty) twoWindows in
  ∃ N, ∀ fuel, N ≤ fuel →
    ∃ w', destroyLoop fuel [1; 2] 0 w = (Normal tt, w')
          ∧ calls w' = [CallTileRemove 1].
Proof.
  intros w.
  destruct (destroyLoop_skips_next w [] 1 2 []) as [N HN].
  - apply example_spliceOut_settles.
  - apply example_spliceOut_splices.
  - apply BiMap_empty_consistent.
  - compute_done.
  - intros c Hc. now apply elem_of_nil in Hc.
  - reflexivity.
  - exists N. intros fuel Hfuel.
    destruct (HN fuel Hfuel) as (w' & rest & Hrun & Hcalls & Hsub & _).
    exists w'. split; [exact Hrun|].
    destruct rest as [|c rest]; [exact Hcalls|].
    exfalso. apply (elem_of_nil c). apply Hsub. left.
Defined.

(** By contrast, where [remove()] gives the parent a new child array and
    leaves the iterated one as it is, the loop reaches every child. *)
Lemma example_replaceArray_reaches_all :
  let w := withMethods replacing (upd_tiles (λ _, BiMap.empty) twoWindows) in
  (destroyLoop 5 [1; 2] 0 w).1 = Normal tt
  ∧ calls (destroyLoop 5 [1; 2] 0 w).2 = [CallTileRemove 1; CallTileRemove 2].
Proof. vm_compute. split; reflexivity. Qed.




End StructureWitness.

